(** * A model of the RTS battle simulation [rts_sim.py]

    The simulation engine of [rts_sim.py] is embedded as Rocq functions:
    the [Unit] class with its methods, the configuration loader at the
    start of [main], and the fixed-timestep [while] loop with its target
    selection, attack and movement code.

    Conventions of the model.
    - Python floats are read as real numbers ([R]): rounding, overflow and
      NaN are not modelled.  [math.hypot x y] is [sqrt (x*x + y*y)] and
      [float("inf")] is the extra element [Inf] of [bound].  Statements
      about what the loop does in the long run are made for magnitudes at
      which double-precision rounding is far below every step and hit
      ([moderate_type]).
    - [units] is a Python list of mutable objects, [alive_units] a second
      list holding references to the same objects.  The model keeps one
      store [list Unit.t] and represents [alive_units] by the indices of
      its members, so that a change made to an object through one list is
      seen through the other.
    - [unit_types] and [damage_stats] are dictionaries keyed by strings:
      [gmap string _]; a [defaultdict(float)] reads absent keys as 0.
    - of the window set-up and of the rendering of each frame the model
      keeps what Python itself computes and the exceptions it can raise;
      the calls into pygame are taken to succeed, and no window event
      arrives.  The frame-rate cap has no effect on the simulated time. *)

From Stdlib Require Import Reals Lra Lia.
From stdpp Require Import gmap strings list fin_maps sorting.

Local Open Scope R_scope.

(** ** Comparisons on floats as decidable propositions *)

#[global] Instance Rlt_decision (a b : R) : Decision (a < b) := Rlt_dec a b.
#[global] Instance Rle_decision (a b : R) : Decision (a <= b) := Rle_dec a b.
#[global] Instance Rgt_decision (a b : R) : Decision (a > b) := Rgt_dec a b.
#[global] Instance Rge_decision (a b : R) : Decision (a >= b) := Rge_dec a b.

(** [math.hypot] *)
Definition hypot (a b : R) : R := sqrt (a * a + b * b).

(** A float that may be [float("inf")]. *)
Inductive bound : Type :=
| Inf : bound
| Fin : R -> bound.

(** [d < nd] for a finite [d] and a possibly infinite [nd]. *)
Definition lt_bound (d : R) (nd : bound) : bool :=
  match nd with
  | Inf => true
  | Fin r => bool_decide (d < r)
  end.

(** [nd <= r] for a possibly infinite [nd] and a finite [r]. *)
Definition bound_le (nd : bound) (r : R) : bool :=
  match nd with
  | Inf => false
  | Fin d => bool_decide (d <= r)
  end.

(** ** class UnitType *)

Module UnitType.

Record t : Type := mk {
  max_health : R;
  move_speed : R;
  weapon_range : R;
  weapon_damage : R;
  weapon_cooldown : R
}.

End UnitType.

(** ** class Unit *)

Module Unit.

Record t : Type := mk {
  type_name : string;
  team_name : string;
  x : R;
  y : R;
  health : R;
  move_speed : R;
  weapon_range : R;
  weapon_damage : R;
  weapon_cooldown : R;
  last_attack_time : R
}.

(** [Unit.__init__]: the stats are copied from the registry entry of
    [type_name]; a type that is not registered raises [KeyError] ([None]). *)
Definition init (type_name team_name : string) (x y : R)
    (unit_types_dict : gmap string UnitType.t) : option t :=
  match unit_types_dict !! type_name with
  | None => None
  | Some ut =>
      Some {| type_name := type_name;
              team_name := team_name;
              x := x;
              y := y;
              health := UnitType.max_health ut;
              move_speed := UnitType.move_speed ut;
              weapon_range := UnitType.weapon_range ut;
              weapon_damage := UnitType.weapon_damage ut;
              weapon_cooldown := UnitType.weapon_cooldown ut;
              last_attack_time := -1e9 |}
  end.

Definition is_alive (self : t) : bool := bool_decide (health self > 0).

Definition distance_to (self other_unit : t) : R :=
  let dx := x self - x other_unit in
  let dy := y self - y other_unit in
  hypot dx dy.

(** Assignments to the mutable fields. *)
Definition set_pos (self : t) (x' y' : R) : t :=
  {| type_name := type_name self; team_name := team_name self;
     x := x'; y := y'; health := health self;
     move_speed := move_speed self; weapon_range := weapon_range self;
     weapon_damage := weapon_damage self;
     weapon_cooldown := weapon_cooldown self;
     last_attack_time := last_attack_time self |}.

Definition set_health (self : t) (h : R) : t :=
  {| type_name := type_name self; team_name := team_name self;
     x := x self; y := y self; health := h;
     move_speed := move_speed self; weapon_range := weapon_range self;
     weapon_damage := weapon_damage self;
     weapon_cooldown := weapon_cooldown self;
     last_attack_time := last_attack_time self |}.

Definition set_last_attack_time (self : t) (time : R) : t :=
  {| type_name := type_name self; team_name := team_name self;
     x := x self; y := y self; health := health self;
     move_speed := move_speed self; weapon_range := weapon_range self;
     weapon_damage := weapon_damage self;
     weapon_cooldown := weapon_cooldown self;
     last_attack_time := time |}.

Definition move_toward_origin (self : t) (dt : R) : t :=
  if decide (Rabs (x self) < 1e-6 /\ Rabs (y self) < 1e-6) then self
  else
    let dist := hypot (x self) (y self) in
    if decide (dist < 1e-6) then self
    else
      let step := move_speed self * dt in
      if decide (step >= dist) then set_pos self 0 0
      else
        let ratio := step / dist in
        set_pos self (x self - x self * ratio) (y self - y self * ratio).

(** Distance of a unit from the world origin. *)
Definition origin_distance (self : t) : R := hypot (x self) (y self).

(** The guard of the first line of [move_toward_origin]. *)
Definition at_origin (self : t) : Prop :=
  Rabs (x self) < 1e-6 /\ Rabs (y self) < 1e-6.

End Unit.

(** ** Loading the configuration (first part of [main]) *)

(** The result of a step that may print an error and call [sys.exit]. *)
Inductive result (A : Type) : Type :=
| Ok : A -> result A
| Exit : Z -> string -> result A.

Arguments Ok {A} _.
Arguments Exit {A} _ _.

#[global] Instance result_ret : MRet result := fun A a => Ok a.
#[global] Instance result_bind : MBind result := fun A B f m =>
  match m with
  | Ok a => f a
  | Exit status message => Exit status message
  end.

(** [stats[key]]: [KeyError] when the key is absent. *)
Definition field {A : Type} (v : option A) (on_missing : string) : result A :=
  match v with
  | Some a => Ok a
  | None => Exit 1 on_missing
  end.

Module Config.

(** One entry of the ["units"] object; a field that is absent is [None]. *)
Record stats : Type := mk_stats {
  health : option R;
  moveSpeed : option R;
  weaponRange : option R;
  weaponDamage : option R;
  weaponCooldown : option R
}.

(** One member of a team. *)
Record member : Type := mk_member {
  name : option string;
  x : option R;
  y : option R
}.

(** The parsed JSON document; a top-level key that is absent is [None].
    Objects are kept as lists of their items, in document order. *)
Record t : Type := mk {
  units : option (list (string * stats));
  teams : option (list (string * list member))
}.

End Config.

Definition missing_type_field (key type_name : string) : string :=
  "ERROR: Missing field '" +:+ key +:+ "' for unit type '" +:+ type_name +:+ "'".

Definition missing_member_field (key team_name : string) : string :=
  "ERROR: Missing field '" +:+ key +:+ "' for a member of team '"
    +:+ team_name +:+ "'".

Definition unknown_unit_type (name team_name : string) : string :=
  "ERROR: Unknown unit type '" +:+ name +:+ "' in team '" +:+ team_name +:+ "'".

Definition parse_unit_type (type_name : string) (stats : Config.stats)
    : result UnitType.t :=
  let missing key := missing_type_field key type_name in
  health ← field (Config.health stats) (missing "health");
  move_speed ← field (Config.moveSpeed stats) (missing "moveSpeed");
  weapon_range ← field (Config.weaponRange stats) (missing "weaponRange");
  weapon_damage ← field (Config.weaponDamage stats) (missing "weaponDamage");
  weapon_cooldown ← field (Config.weaponCooldown stats) (missing "weaponCooldown");
  mret (UnitType.mk health move_speed weapon_range weapon_damage weapon_cooldown).

(** [for type_name, stats in unit_types_raw.items()] *)
Fixpoint parse_unit_types (items : list (string * Config.stats))
    (unit_types : gmap string UnitType.t) : result (gmap string UnitType.t) :=
  match items with
  | [] => Ok unit_types
  | (type_name, stats) :: rest =>
      ut ← parse_unit_type type_name stats;
      parse_unit_types rest (<[type_name := ut]> unit_types)
  end.

(** The body of [for member in members]. *)
Definition parse_member (unit_types : gmap string UnitType.t)
    (team_name : string) (member : Config.member) : result Unit.t :=
  name ← field (Config.name member) (missing_member_field "name" team_name);
  x ← field (Config.x member) (missing_member_field "x" team_name);
  y ← field (Config.y member) (missing_member_field "y" team_name);
  match unit_types !! name with
  | None => Exit 1 (unknown_unit_type name team_name)
  | Some _ =>
      (* the lookup inside Unit.__init__ cannot fail after the test above *)
      field (Unit.init name team_name x y unit_types) "KeyError"
  end.

Fixpoint parse_members (unit_types : gmap string UnitType.t)
    (team_name : string) (members : list Config.member)
    (units : list Unit.t) : result (list Unit.t) :=
  match members with
  | [] => Ok units
  | member :: rest =>
      u ← parse_member unit_types team_name member;
      parse_members unit_types team_name rest (units ++ [u])
  end.

(** [for team_name, members in teams_raw.items()] *)
Fixpoint parse_teams (unit_types : gmap string UnitType.t)
    (items : list (string * list Config.member))
    (units : list Unit.t) : result (list Unit.t) :=
  match items with
  | [] => Ok units
  | (team_name, members) :: rest =>
      units' ← parse_members unit_types team_name members units;
      parse_teams unit_types rest units'
  end.

(** Lines 83-127 of [main]: the registry and the list of units, or the
    message printed before [sys.exit(1)]. *)
Definition load (data : Config.t)
    : result (gmap string UnitType.t * list Unit.t) :=
  let unit_types_raw := default [] (Config.units data) in
  match unit_types_raw with
  | [] => Exit 1 "ERROR: 'units' key is missing or empty."
  | _ =>
      unit_types ← parse_unit_types unit_types_raw ∅;
      let teams_raw := default [] (Config.teams data) in
      match teams_raw with
      | [] => Exit 1 "ERROR: 'teams' key is missing or empty."
      | _ =>
          units ← parse_teams unit_types teams_raw [];
          mret (unit_types, units)
      end
  end.

(** ** The simulation loop *)

Definition FIXED_DT : R := 1.0 / 60.0.

(** The variables of [main] that the loop reads and writes.  [winner] is
    unbound ([None]) until the loop assigns it; once bound it holds a team
    name or Python's [None]. *)
Record state : Type := mk_state {
  units : list Unit.t;
  damage_stats : gmap string R;
  frame_counter : nat;
  simulation_running : bool;
  winner : option (option string)
}.

Definition alive_at (units : list Unit.t) (i : nat) : bool :=
  match units !! i with
  | Some u => Unit.is_alive u
  | None => false
  end.

(** [alive_units = [u for u in units if u.is_alive()]], as indices. *)
Definition alive_units (units : list Unit.t) : list nat :=
  filter (fun i => alive_at units i) (seq 0 (length units)).

(** [set(u.team_name for u in alive_units)] *)
Definition teams_still_alive (units : list Unit.t) (alive_units : list nat)
    : gset string :=
  list_to_set (omap (fun i => Unit.team_name <$> units !! i) alive_units).

(** One round of the loop [for other in alive_units] of lines 196-202.
    The accumulator is the pair [(nearest_enemy, nearest_dist)]. *)
Definition scan_step (units : list Unit.t) (u : Unit.t)
    (acc : option nat * bound) (k : nat) : option nat * bound :=
  match units !! k with
  | None => acc
  | Some other =>
      if bool_decide (Unit.team_name other = Unit.team_name u) then acc
      else
        let d := Unit.distance_to u other in
        if lt_bound d (snd acc) then (Some k, Fin d) else acc
  end.

(** Lines 194-202: the nearest enemy of [u] among [alive_units], with its
    distance. *)
Definition find_nearest (units : list Unit.t) (u : Unit.t)
    (alive_units : list nat) : option nat * bound :=
  fold_left (scan_step units u) alive_units (None, Inf).

(** [damage_stats[key] += amount] on a [defaultdict(float)]. *)
Definition add_damage (key : string) (amount : R) (damage_stats : gmap string R)
    : gmap string R :=
  <[key := default 0 (damage_stats !! key) + amount]> damage_stats.

(** Lines 207-209. *)
Definition attack (i j : nat) (current_time : R)
    (st : list Unit.t * gmap string R) : list Unit.t * gmap string R :=
  match st.1 !! i with
  | None => st
  | Some u =>
      let units1 :=
        alter (fun e => Unit.set_health e (Unit.health e - Unit.weapon_damage u))
              j st.1 in
      let damage1 := add_damage (Unit.type_name u) (Unit.weapon_damage u) st.2 in
      let units2 :=
        alter (fun a => Unit.set_last_attack_time a current_time) i units1 in
      (units2, damage1)
  end.

(** Lines 193-211: the unit [u], found at index [i], selects its target
    and then attacks, waits or moves. *)
Definition scheduled_action (alive_units : list nat) (current_time dt : R)
    (st : list Unit.t * gmap string R) (i : nat) (u : Unit.t)
    : list Unit.t * gmap string R :=
  let '(nearest_enemy, nearest_dist) := find_nearest st.1 u alive_units in
  match nearest_enemy with
  | Some j =>
      if bound_le nearest_dist (Unit.weapon_range u) then
        if bool_decide (current_time - Unit.last_attack_time u
                        >= Unit.weapon_cooldown u)
        then attack i j current_time st
        else st
      else (alter (fun a => Unit.move_toward_origin a dt) i st.1, st.2)
  | None => (alter (fun a => Unit.move_toward_origin a dt) i st.1, st.2)
  end.

(** The body of [for u in alive_units] (lines 190-211) for the unit at
    index [i]: the liveness test of lines 190-191, then the action. *)
Definition unit_action (alive_units : list nat) (current_time dt : R)
    (st : list Unit.t * gmap string R) (i : nat)
    : list Unit.t * gmap string R :=
  match st.1 !! i with
  | None => st
  | Some u =>
      if negb (Unit.is_alive u) then st
      else scheduled_action alive_units current_time dt st i u
  end.

(** Lines 189-211: every member of the snapshot acts in turn. *)
Definition resolver (alive_units : list nat) (current_time dt : R)
    (st : list Unit.t * gmap string R) : list Unit.t * gmap string R :=
  fold_left (unit_action alive_units current_time dt) alive_units st.

(** One pass through the body of [while simulation_running]. *)
Definition loop_body (s : state) : state :=
  let dt := FIXED_DT in
  let current_time := INR (frame_counter s) * FIXED_DT in
  let frame_counter' := S (frame_counter s) in
  let alive := alive_units (units s) in
  let teams := teams_still_alive (units s) alive in
  if bool_decide (size teams <= 1)%nat then
    {| units := units s;
       damage_stats := damage_stats s;
       frame_counter := frame_counter';
       simulation_running := false;
       winner := Some (head (elements teams)) |}
  else
    let st := resolver alive current_time dt (units s, damage_stats s) in
    {| units := st.1;
       damage_stats := st.2;
       frame_counter := frame_counter';
       simulation_running := simulation_running s;
       winner := winner s |}.

(** The loop test followed by the body. *)
Definition while_iter (s : state) : state :=
  if simulation_running s then loop_body s else s.

(** [n] iterations of the loop. *)
Fixpoint run (n : nat) (s : state) : state :=
  match n with
  | O => s
  | S n' => run n' (while_iter s)
  end.

(** The state on entry to the loop (lines 158-165). *)
Definition initial_state (units : list Unit.t) : state :=
  {| units := units;
     damage_stats := ∅;
     frame_counter := 0;
     simulation_running := true;
     winner := None |}.

(** Sum of all the values of [damage_stats]. *)
Definition total_damage (damage_stats : gmap string R) : R :=
  map_fold (fun _ v acc => v + acc) 0 damage_stats.

(** [unit_types[u.type_name].max_health]. *)
Definition max_health_of (unit_types : gmap string UnitType.t) (u : Unit.t) : R :=
  match unit_types !! Unit.type_name u with
  | Some ut => UnitType.max_health ut
  | None => 0
  end.

(** Sum over all units of [max_health - health]. *)
Definition health_lost (unit_types : gmap string UnitType.t)
    (units : list Unit.t) : R :=
  foldr (fun u acc => (max_health_of unit_types u - Unit.health u) + acc) 0 units.

(** ** Colours, window and report (the rest of [main] and
    [generate_team_colors]) *)

(** The order of Python on strings, by code point (for strings held as
    UTF-8 the order on bytes is the same). *)
Definition string_le (a b : string) : Prop := String.leb a b = true.

#[global] Instance string_le_dec (a b : string) : Decision (string_le a b).
Proof. unfold string_le. apply _. Defined.

(** [sorted] on a list of strings: the ascending arrangement of the list. *)
Definition sorted (l : list string) : list string := merge_sort string_le l.

(** [int] on a float: truncation toward zero. *)
Definition int (r : R) : Z :=
  if decide (0 <= r) then Int_part r else (- Int_part (- r))%Z.

(** The colour that lines 68-73 compute from the rank [i] of a team among
    [T] teams; [hsv_to_rgb] is [colorsys.hsv_to_rgb]. *)
Definition team_color (hsv_to_rgb : R -> R -> R -> R * R * R) (T i : nat)
    : Z * Z * Z :=
  let hue := INR i / INR (Nat.max 1 T) in
  let '(r_f, g_f, b_f) := hsv_to_rgb hue 1.0 0.5 in
  (int (r_f * 255), int (g_f * 255), int (b_f * 255)).

(** [for i, team in enumerate(team_list)], from index [i] on. *)
Fixpoint assign_colors (hsv_to_rgb : R -> R -> R -> R * R * R) (T i : nat)
    (team_list : list string) (colors : gmap string (Z * Z * Z))
    : gmap string (Z * Z * Z) :=
  match team_list with
  | [] => colors
  | team :: rest =>
      assign_colors hsv_to_rgb T (S i) rest
        (<[team := team_color hsv_to_rgb T i]> colors)
  end.

Definition generate_team_colors (hsv_to_rgb : R -> R -> R -> R * R * R)
    (teams : list string) : gmap string (Z * Z * Z) :=
  let team_list := sorted teams in
  let T := length team_list in
  assign_colors hsv_to_rgb T 0 team_list ∅.

Definition WINDOW_SIZE : R := 800.

(** Lines 140-142. *)
Definition max_abs (units : list Unit.t) : R :=
  foldl (fun m u => Rmax m (Rmax (Rabs (Unit.x u)) (Rabs (Unit.y u)))) 0.0 units.

(** Lines 144-147; the division raises [ZeroDivisionError] ([None]) when
    [world_extent] is 0. *)
Definition pixels_per_unit (units : list Unit.t) : option R :=
  let padding := 0.1 * max_abs units in
  let world_extent := max_abs units + padding in
  if Req_dec_T world_extent 0 then None
  else Some ((WINDOW_SIZE / 2) / world_extent).

Definition world_to_screen (pixels_per_unit wx wy : R) : Z * Z :=
  let sx := WINDOW_SIZE / 2 + wx * pixels_per_unit in
  let sy := WINDOW_SIZE / 2 - wy * pixels_per_unit in
  (int sx, int sy).

(** Line 232: [KeyError] or [ZeroDivisionError] is [None]. *)
Definition health_pct (unit_types : gmap string UnitType.t) (u : Unit.t)
    : option R :=
  match unit_types !! Unit.type_name u with
  | None => None
  | Some ut =>
      if Req_dec_T (UnitType.max_health ut) 0 then None
      else Some (Rmax 0.0 (Unit.health u / UnitType.max_health ut))
  end.

(** Line 238: the width in pixels of the green part of the health bar. *)
Definition bar_fill (health_pct : R) : Z := int (16 * health_pct).

(** Lines 259-261: one entry per registered type, in sorted order, with
    the damage that the line prints (the two-decimal formatting apart). *)
Definition report_damage (unit_types : gmap string UnitType.t)
    (damage_stats : gmap string R) : list (string * R) :=
  (fun type_name => (type_name, default 0.0 (damage_stats !! type_name)))
    <$> sorted (elements (dom unit_types)).

(** ** The whole of [main] *)

Module colorsys.

(** [colorsys.hsv_to_rgb] of the Python standard library. *)
Definition hsv_to_rgb (h s v : R) : R * R * R :=
  if Req_dec_T s 0.0 then (v, v, v)
  else
    let i := int (h * 6.0) in
    let f := h * 6.0 - IZR i in
    let p := v * (1.0 - s) in
    let q := v * (1.0 - s * f) in
    let t := v * (1.0 - s * (1.0 - f)) in
    match (i mod 6)%Z with
    | 0%Z => (v, t, p)
    | 1%Z => (q, v, p)
    | 2%Z => (p, v, t)
    | 3%Z => (p, q, v)
    | 4%Z => (t, p, v)
    | _ => (v, p, q)
    end.

End colorsys.

(** Lines 223-243 for one unit of the frame: the exception that drawing
    it raises, if any, by the name of its class. *)
Definition draw_unit (pixels_per_unit : R) (colors : gmap string (Z * Z * Z))
    (unit_types : gmap string UnitType.t) (u : Unit.t) : option string :=
  if negb (Unit.is_alive u) then None
  else
    let '(sx, sy) := world_to_screen pixels_per_unit (Unit.x u) (Unit.y u) in
    match colors !! Unit.team_name u with
    | None => Some "KeyError"
    | Some color =>
        match unit_types !! Unit.type_name u with
        | None => Some "KeyError"
        | Some ut =>
            if Req_dec_T (UnitType.max_health ut) 0 then Some "ZeroDivisionError"
            else
              (* first_letter = u.type_name[0].upper() *)
              match Unit.type_name u with
              | EmptyString => Some "IndexError"
              | String _ _ => None
              end
        end
    end.

(** [for u in units] of line 223: the first exception raised. *)
Fixpoint draw_units (pixels_per_unit : R) (colors : gmap string (Z * Z * Z))
    (unit_types : gmap string UnitType.t) (units : list Unit.t)
    : option string :=
  match units with
  | [] => None
  | u :: rest =>
      match draw_unit pixels_per_unit colors unit_types u with
      | Some exn => Some exn
      | None => draw_units pixels_per_unit colors unit_types rest
      end
  end.

(** Lines 213-246: the rendering of the frame that shows the state [s]. *)
Definition render (pixels_per_unit : R) (colors : gmap string (Z * Z * Z))
    (unit_types : gmap string UnitType.t) (s : state) : option string :=
  draw_units pixels_per_unit colors unit_types (units s).

(** What [main] has done after at most [fuel] iterations of the loop: it
    has called [sys.exit], an exception has gone uncaught, the loop has
    ended and the summary is printed, or the loop is still running. *)
Inductive outcome : Type :=
| Exited : Z -> string -> outcome
| Raised : string -> outcome
| Terminated : option string -> gmap string R -> outcome
| StillRunning : state -> outcome.

(** The loop of lines 167-249, each pass followed by the rendering of its
    frame, for at most [fuel] passes. *)
Fixpoint frames (render : state -> option string) (fuel : nat) (s : state)
    : outcome :=
  if simulation_running s then
    match fuel with
    | O => StillRunning s
    | S fuel' =>
        let s' := loop_body s in
        match render s' with
        | Some exn => Raised exn
        | None => frames render fuel' s'
        end
    end
  else Terminated (default None (winner s)) (damage_stats s).

Definition main (data : Config.t) (fuel : nat) : outcome :=
  match load data with
  | Exit status message => Exited status message
  | Ok (unit_types, units) =>
      match pixels_per_unit units with
      | None => Raised "ZeroDivisionError"
      | Some pixels_per_unit =>
          let teams_raw := default [] (Config.teams data) in
          let colors := generate_team_colors colorsys.hsv_to_rgb teams_raw.*1 in
          frames (render pixels_per_unit colors unit_types) fuel
            (initial_state units)
      end
  end.

(** ** Notions used in the statements *)

(** Index [k] holds the unit [o], of another team than [u]. *)
Definition enemy_at (units : list Unit.t) (u : Unit.t) (k : nat) (o : Unit.t)
    : Prop :=
  units !! k = Some o /\ Unit.team_name o <> Unit.team_name u.

(** What the scan of lines 196-202 has established once the prefix [seen]
    of the snapshot is behind it. *)
Definition scan_inv (units : list Unit.t) (u : Unit.t) (seen : list nat)
    (acc : option nat * bound) : Prop :=
  match acc with
  | (None, Inf) => forall k o, k ∈ seen -> ¬ enemy_at units u k o
  | (Some j, Fin d) =>
      exists pre post o,
        seen = pre ++ j :: post /\ enemy_at units u j o /\
        d = Unit.distance_to u o /\
        (forall k o', k ∈ pre -> enemy_at units u k o' ->
           d < Unit.distance_to u o') /\
        (forall k o', k ∈ post -> enemy_at units u k o' ->
           d <= Unit.distance_to u o')
  | _ => False
  end.

(** Position of the unit at index [k]. *)
Definition position (units : list Unit.t) (k : nat) : option (R * R) :=
  (fun o => (Unit.x o, Unit.y o)) <$> units !! k.

(** Damage credited minus health taken. *)
Definition balance (uts : gmap string UnitType.t)
    (st : list Unit.t * gmap string R) : R :=
  total_damage st.2 - health_lost uts st.1.

(** [u] is as [Unit.__init__] builds it from the registry [uts]. *)
Definition built_from (uts : gmap string UnitType.t) (u : Unit.t) : Prop :=
  exists ut,
    uts !! Unit.type_name u = Some ut /\
    Unit.health u = UnitType.max_health ut /\
    Unit.move_speed u = UnitType.move_speed ut /\
    Unit.weapon_range u = UnitType.weapon_range ut /\
    Unit.weapon_damage u = UnitType.weapon_damage ut /\
    Unit.weapon_cooldown u = UnitType.weapon_cooldown ut /\
    Unit.last_attack_time u = -1e9.

(** All stats of a unit type are positive and of moderate size: a step
    of a sixtieth of [move_speed] and a hit of [weapon_damage] are then far
    above the spacing of double-precision numbers around any coordinate up
    to 1e6 and any health up to 1e6, so that the arithmetic of the program
    cannot absorb them; and the weapon reaches across the origin box. *)
Definition moderate_type (ut : UnitType.t) : Prop :=
  0 < UnitType.max_health ut <= 1e6 /\
  1e-3 <= UnitType.move_speed ut <= 1e6 /\
  3e-6 <= UnitType.weapon_range ut <= 1e6 /\
  1e-3 <= UnitType.weapon_damage ut <= 1e6 /\
  0 < UnitType.weapon_cooldown ut <= 1e6.

(** The configuration is sound up to a member of [team] that names the
    unregistered type [name]: the registry is built, and every member that
    comes earlier in the document is accepted. *)
Definition first_defect_unknown (data : Config.t) (team name : string) : Prop :=
  exists uts pre_teams pre_members m rest_members rest_teams us1 us2,
    default [] (Config.units data) <> [] /\
    parse_unit_types (default [] (Config.units data)) ∅ = Ok uts /\
    default [] (Config.teams data) =
      pre_teams ++ (team, pre_members ++ m :: rest_members) :: rest_teams /\
    parse_teams uts pre_teams [] = Ok us1 /\
    parse_members uts team pre_members us1 = Ok us2 /\
    Config.name m = Some name /\ is_Some (Config.x m) /\ is_Some (Config.y m) /\
    uts !! name = None.


(** The three outcomes of a turn. *)
Inductive turn (alive : list nat) (t dt : R) (st : list Unit.t * gmap string R)
    (i : nat) : list Unit.t * gmap string R -> Prop :=
| turn_idle : turn alive t dt st i st
| turn_attack u j o d :
    st.1 !! i = Some u -> Unit.health u > 0 ->
    find_nearest st.1 u alive = (Some j, Fin d) ->
    j ∈ alive -> st.1 !! j = Some o -> i <> j ->
    d <= Unit.weapon_range u ->
    t - Unit.last_attack_time u >= Unit.weapon_cooldown u ->
    turn alive t dt st i
      (<[i := Unit.set_last_attack_time u t]>
         (<[j := Unit.set_health o (Unit.health o - Unit.weapon_damage u)]> st.1),
       add_damage (Unit.type_name u) (Unit.weapon_damage u) st.2)
| turn_move u :
    st.1 !! i = Some u -> Unit.health u > 0 ->
    turn alive t dt st i (<[i := Unit.move_toward_origin u dt]> st.1, st.2).

(** [u'] is [u] at a later time: same fixed fields, no more health. *)
Definition ages (u u' : Unit.t) : Prop :=
  Unit.type_name u' = Unit.type_name u /\
  Unit.team_name u' = Unit.team_name u /\
  Unit.move_speed u' = Unit.move_speed u /\
  Unit.weapon_range u' = Unit.weapon_range u /\
  Unit.weapon_damage u' = Unit.weapon_damage u /\
  Unit.weapon_cooldown u' = Unit.weapon_cooldown u /\
  Unit.health u' <= Unit.health u.

(** The teams that still have a living unit. *)
Definition teams_alive (units : list Unit.t) : gset string :=
  teams_still_alive units (alive_units units).

(** *** A measure of the work left before the loop ends *)

Definition health_pot (dmin : R) (u : Unit.t) : R :=
  if decide (Unit.health u > 0) then 1 + Unit.health u / dmin else 0.

Definition travel_pot (sigma : R) (u : Unit.t) : R :=
  if decide (Unit.at_origin u) then 0 else 1 + Unit.origin_distance u / sigma.

Definition pot (dmin sigma : R) (u : Unit.t) : R :=
  health_pot dmin u + travel_pot sigma u.

Definition potential (dmin sigma : R) (units : list Unit.t) : R :=
  foldr (fun u acc => pot dmin sigma u + acc) 0 units.

(** The bounds that a valid configuration gives on the stats of a unit. *)
Definition unit_ok (dmin sigma cmax : R) (u : Unit.t) : Prop :=
  dmin <= Unit.weapon_damage u /\
  sigma <= Unit.move_speed u * FIXED_DT /\
  Unit.weapon_cooldown u <= cmax /\
  3e-6 <= Unit.weapon_range u.

(** Every member of the snapshot is alive in the store. *)
Definition fresh (alive : list nat) (us : list Unit.t) : Prop :=
  forall j o, j ∈ alive -> us !! j = Some o -> Unit.health o > 0.

(** The simulated time of the tick that the loop is about to run. *)
Definition now (s : state) : R := INR (frame_counter s) * FIXED_DT.

Definition sim_inv (dmin sigma cmax : R) (s : state) : Prop :=
  Forall (unit_ok dmin sigma cmax) (units s) /\
  Forall (fun u => Unit.last_attack_time u <= now s) (units s).

(** *** Documents that the loader accepts *)

(** All five fields of a unit type are present. *)
Definition complete_stats (stats : Config.stats) : Prop :=
  is_Some (Config.health stats) /\ is_Some (Config.moveSpeed stats) /\
  is_Some (Config.weaponRange stats) /\ is_Some (Config.weaponDamage stats) /\
  is_Some (Config.weaponCooldown stats).

(** A member has its three fields and names one of the types [names]. *)
Definition accepted_member (names : list string) (member : Config.member) : Prop :=
  exists name,
    Config.name member = Some name /\ is_Some (Config.x member) /\
    is_Some (Config.y member) /\ name ∈ names.

Definition well_formed (data : Config.t) : Prop :=
  let units_raw := default [] (Config.units data) in
  let teams_raw := default [] (Config.teams data) in
  units_raw <> [] /\ Forall (fun item => complete_stats item.2) units_raw /\
  teams_raw <> [] /\
  Forall (fun item => Forall (accepted_member units_raw.*1) item.2) teams_raw.

(** The unit type that a complete entry describes. *)
Definition type_of_stats (stats : Config.stats) : option UnitType.t :=
  health ← Config.health stats;
  move_speed ← Config.moveSpeed stats;
  weapon_range ← Config.weaponRange stats;
  weapon_damage ← Config.weaponDamage stats;
  weapon_cooldown ← Config.weaponCooldown stats;
  Some (UnitType.mk health move_speed weapon_range weapon_damage weapon_cooldown).

(** The first of the five keys, in the order in which line 95 reads them,
    that an entry lacks. *)
Definition first_missing (stats : Config.stats) : option string :=
  match Config.health stats, Config.moveSpeed stats, Config.weaponRange stats,
        Config.weaponDamage stats, Config.weaponCooldown stats with
  | None, _, _, _, _ => Some "health"%string
  | _, None, _, _, _ => Some "moveSpeed"%string
  | _, _, None, _, _ => Some "weaponRange"%string
  | _, _, _, None, _ => Some "weaponDamage"%string
  | _, _, _, _, None => Some "weaponCooldown"%string
  | _, _, _, _, _ => None
  end.

(** The first of the three keys, in the order in which lines 117-119 read
    them, that a member lacks. *)
Definition first_missing_member (member : Config.member) : option string :=
  match Config.name member, Config.x member, Config.y member with
  | None, _, _ => Some "name"%string
  | _, None, _ => Some "x"%string
  | _, _, None => Some "y"%string
  | _, _, _ => None
  end.

(** The unit that lines 117-126 build for a member of [team]. *)
Definition unit_of_member (uts : gmap string UnitType.t) (team : string)
    (member : Config.member) : option Unit.t :=
  name ← Config.name member;
  x ← Config.x member;
  y ← Config.y member;
  Unit.init name team x y uts.

(** The members of all teams in document order, each with its team. *)
Definition members_of (teams_raw : list (string * list Config.member))
    : list (string * Config.member) :=
  item ← teams_raw; (fun member => (item.1, member)) <$> item.2.

(** *** Notions about a run *)

(** Some unit is alive. *)
Definition someone_alive (units : list Unit.t) : Prop :=
  exists i u, units !! i = Some u /\ Unit.health u > 0.

(** The loop is still running, or it has recorded the outcome of a tick
    that began with at most one team. *)
Definition settled (s : state) : Prop :=
  simulation_running s = true \/
  (winner s = Some (head (elements (teams_alive (units s)))) /\
   (size (teams_alive (units s)) <= 1)%nat).

(** [u'] is the unit [u] at another time: same type and team. *)
Definition kin (u u' : Unit.t) : Prop :=
  Unit.type_name u' = Unit.type_name u /\ Unit.team_name u' = Unit.team_name u.

(** Every entry of the damage table belongs to the type of some unit. *)
Definition credited (st : list Unit.t * gmap string R) : Prop :=
  forall key, is_Some (st.2 !! key) ->
    exists i u, st.1 !! i = Some u /\ Unit.type_name u = key.

(** A unit that does not move away from the origin, inside the square of
    half-width [M]. *)
Definition tame (M : R) (u : Unit.t) : Prop :=
  0 <= Unit.move_speed u /\ Rabs (Unit.x u) <= M /\ Rabs (Unit.y u) <= M.

(** ** Example configurations *)

Local Open Scope string_scope.

(** *** Duel: two units within reach of each other *)

Definition duel_config : Config.t :=
  {| Config.units :=
       Some [("a", Config.mk_stats (Some 10) (Some 1) (Some 5) (Some 10) (Some 1))];
     Config.teams :=
       Some [("red", [Config.mk_member (Some "a") (Some 0) (Some 0)]);
             ("blue", [Config.mk_member (Some "a") (Some 3) (Some 0)])] |}.

Definition duel_types : gmap string UnitType.t := {[ "a" := UnitType.mk 10 1 5 10 1 ]}.
Definition duel_red : Unit.t := Unit.mk "a" "red" 0 0 10 1 5 10 1 (-1e9).
Definition duel_blue : Unit.t := Unit.mk "a" "blue" 3 0 10 1 5 10 1 (-1e9).
Definition duel_red_fired : Unit.t := Unit.mk "a" "red" 0 0 10 1 5 10 1 0.
Definition duel_blue_dead : Unit.t := Unit.mk "a" "blue" 3 0 0 1 5 10 1 (-1e9).
Definition duel_after_red : list Unit.t * gmap string R :=
  ([duel_red_fired; duel_blue_dead], {[ "a" := 10 ]}).

(** The state of the duel after the first and after the second tick. *)
Definition duel_tick1 : state :=
  {| units := [duel_red_fired; duel_blue_dead];
     damage_stats := {[ "a" := 10 ]};
     frame_counter := 1;
     simulation_running := true;
     winner := None |}.

Definition duel_tick2 : state :=
  {| units := [duel_red_fired; duel_blue_dead];
     damage_stats := {[ "a" := 10 ]};
     frame_counter := 2;
     simulation_running := false;
     winner := Some (Some "red") |}.

(** *** Skirmish: one red unit, a blue unit next to it, a blue unit at the origin *)

Definition skirmish_config : Config.t :=
  {| Config.units :=
       Some [("a", Config.mk_stats (Some 10) (Some 60) (Some 5) (Some 10) (Some 1))];
     Config.teams :=
       Some [("red", [Config.mk_member (Some "a") (Some 10) (Some 0)]);
             ("blue", [Config.mk_member (Some "a") (Some 12) (Some 0);
                       Config.mk_member (Some "a") (Some 0) (Some 0)])] |}.

Definition skirmish_red (x last : R) : Unit.t :=
  Unit.mk "a" "red" x 0 10 60 5 10 1 last.
Definition skirmish_near (health : R) : Unit.t :=
  Unit.mk "a" "blue" 12 0 health 60 5 10 1 (-1e9).
Definition skirmish_far : Unit.t := Unit.mk "a" "blue" 0 0 10 60 5 10 1 (-1e9).

Definition skirmish_units : list Unit.t :=
  [skirmish_red 10 (-1e9); skirmish_near 10; skirmish_far].

(** The state of the skirmish after the first and after the second tick. *)
Definition skirmish_tick1 : state :=
  {| units := [skirmish_red 10 0; skirmish_near 0; skirmish_far];
     damage_stats := {[ "a" := 10 ]};
     frame_counter := 1;
     simulation_running := true;
     winner := None |}.

Definition skirmish_tick2 : state :=
  {| units := [skirmish_red 9 0; skirmish_near 0; skirmish_far];
     damage_stats := {[ "a" := 10 ]};
     frame_counter := 2;
     simulation_running := true;
     winner := None |}.

(** *** Two units resting beside the origin, out of each other's reach *)

Definition stuck_config : Config.t :=
  {| Config.units :=
       Some [("a", Config.mk_stats (Some 10) (Some 1) (Some 1e-7) (Some 10) (Some 1))];
     Config.teams :=
       Some [("red", [Config.mk_member (Some "a") (Some 5e-7) (Some 0)]);
             ("blue", [Config.mk_member (Some "a") (Some (-5e-7)) (Some 0)])] |}.

Definition stuck_red : Unit.t := Unit.mk "a" "red" 5e-7 0 10 1 1e-7 10 1 (-1e9).
Definition stuck_blue : Unit.t := Unit.mk "a" "blue" (-5e-7) 0 10 1 1e-7 10 1 (-1e9).

Definition stuck_state (n : nat) : state :=
  {| units := [stuck_red; stuck_blue];
     damage_stats := ∅;
     frame_counter := n;
     simulation_running := true;
     winner := None |}.

(** *** A unit beside the origin *)

Definition near_origin_unit : Unit.t := Unit.mk "a" "red" 5e-7 0 10 1 5 10 1 (-1e9).

(** *** Configurations that the loader rejects *)

Definition ghost_config : Config.t :=
  {| Config.units :=
       Some [("a", Config.mk_stats (Some 10) (Some 1) (Some 5) (Some 10) (Some 1))];
     Config.teams :=
       Some [("red", [Config.mk_member (Some "a") (Some 0) (Some 0)]);
             ("blue", [Config.mk_member (Some "a") (Some 3) (Some 0);
                       Config.mk_member (Some "ghost") (Some 4) (Some 0)])] |}.

Definition ghost_after_gap_config : Config.t :=
  {| Config.units :=
       Some [("a", Config.mk_stats (Some 10) (Some 1) (Some 5) (Some 10) (Some 1))];
     Config.teams :=
       Some [("red", [Config.mk_member (Some "a") None (Some 0)]);
             ("blue", [Config.mk_member (Some "ghost") (Some 4) (Some 0)])] |}.

(** *** Documents with a missing field or a missing object *)

Definition incomplete_type_config : Config.t :=
  {| Config.units :=
       Some [("a", Config.mk_stats (Some 10) (Some 1) (Some 5) (Some 10) (Some 1));
             ("b", Config.mk_stats (Some 10) (Some 1) None (Some 10) None)];
     Config.teams := None |}.

Definition incomplete_member_config : Config.t :=
  {| Config.units :=
       Some [("a", Config.mk_stats (Some 10) (Some 1) (Some 5) (Some 10) (Some 1))];
     Config.teams :=
       Some [("red", [Config.mk_member (Some "a") (Some 0) (Some 0)]);
             ("blue", [Config.mk_member (Some "a") (Some 3) (Some 0);
                       Config.mk_member (Some "ghost") None (Some 0)])] |}.

Definition no_units_config : Config.t :=
  {| Config.units := Some [];
     Config.teams :=
       Some [("red", [Config.mk_member (Some "a") (Some 0) (Some 0)])] |}.

Definition no_teams_config : Config.t :=
  {| Config.units :=
       Some [("a", Config.mk_stats (Some 10) (Some 1) (Some 5) (Some 10) (Some 1))];
     Config.teams := None |}.

(** *** A stand-in for [colorsys.hsv_to_rgb] *)

Definition grey_hsv_to_rgb (h s v : R) : R * R * R := (v, v, v).

Local Close Scope string_scope.

(** * Properties *)

(** ** Geometry and movement *)

Lemma hypot_nonneg a b : 0 <= hypot a b.
Proof. apply sqrt_pos. Qed.

Lemma hypot_0 : hypot 0 0 = 0.
Proof. unfold hypot. replace (0 * 0 + 0 * 0) with 0 by lra. apply sqrt_0. Qed.

Lemma hypot_scale c a b : 0 <= c -> hypot (c * a) (c * b) = c * hypot a b.
Proof.
  intros Hc. unfold hypot.
  replace (c * a * (c * a) + c * b * (c * b)) with ((c * c) * (a * a + b * b)) by ring.
  rewrite sqrt_mult_alt by nra.
  by rewrite sqrt_square.
Qed.

Lemma hypot_axis a : hypot a 0 = Rabs a.
Proof.
  unfold hypot. replace (a * a + 0 * 0) with (a²) by (unfold Rsqr; ring).
  apply sqrt_Rsqr_abs.
Qed.

Lemma hypot_ge_abs_l a b : Rabs a <= hypot a b.
Proof.
  rewrite <- (hypot_axis a). unfold hypot. apply sqrt_le_1_alt. nra.
Qed.

Lemma hypot_ge_abs_r a b : Rabs b <= hypot a b.
Proof.
  rewrite <- (hypot_axis b). unfold hypot. apply sqrt_le_1_alt. nra.
Qed.

Lemma move_at_origin u dt : Unit.at_origin u -> Unit.move_toward_origin u dt = u.
Proof. intros H. unfold Unit.move_toward_origin. by rewrite decide_True. Qed.

Lemma far_hypot u : ¬ Unit.at_origin u -> 1e-6 <= hypot (Unit.x u) (Unit.y u).
Proof.
  intros H. unfold Unit.at_origin in H.
  pose proof (hypot_ge_abs_l (Unit.x u) (Unit.y u)).
  pose proof (hypot_ge_abs_r (Unit.x u) (Unit.y u)).
  destruct (Rlt_dec (Rabs (Unit.x u)) 1e-6);
    destruct (Rlt_dec (Rabs (Unit.y u)) 1e-6); try lra; tauto.
Qed.

Lemma move_distance u dt :
  ¬ Unit.at_origin u ->
  Unit.origin_distance (Unit.move_toward_origin u dt)
  = Rmax 0 (Unit.origin_distance u - Unit.move_speed u * dt).
Proof.
  intros H. pose proof (far_hypot u H) as Hd.
  unfold Unit.move_toward_origin, Unit.origin_distance.
  rewrite decide_False by exact H.
  cbv zeta. rewrite decide_False by lra.
  set (dist := hypot (Unit.x u) (Unit.y u)) in *.
  set (step := Unit.move_speed u * dt).
  destruct (decide (step >= dist)) as [Hs|Hs].
  - simpl. rewrite hypot_0. rewrite Rmax_left; lra.
  - simpl.
    replace (Unit.x u - Unit.x u * (step / dist))
      with ((1 - step / dist) * Unit.x u) by ring.
    replace (Unit.y u - Unit.y u * (step / dist))
      with ((1 - step / dist) * Unit.y u) by ring.
    assert (step / dist < 1).
    { assert (0 < / dist) by (apply Rinv_0_lt_compat; lra).
      assert (dist * / dist = 1) by (apply Rinv_r; lra).
      unfold Rdiv. nra. }
    rewrite hypot_scale by lra. fold dist.
    rewrite Rmax_right by lra. field. lra.
Qed.

Lemma hypot_axis_eval a b c : b = 0 -> Rabs a = c -> hypot a b = c.
Proof. intros -> <-. apply hypot_axis. Qed.

Lemma move_along_x_axis u dt :
  Unit.y u = 0 -> 1e-6 <= Unit.x u -> Unit.move_speed u * dt < Unit.x u ->
  Unit.move_toward_origin u dt
  = Unit.set_pos u (Unit.x u - Unit.move_speed u * dt) 0.
Proof.
  intros Hy Hx Hstep. unfold Unit.move_toward_origin.
  assert (hypot (Unit.x u) (Unit.y u) = Unit.x u) as Hd.
  { apply hypot_axis_eval; [done|]. rewrite Rabs_right; lra. }
  rewrite decide_False; cycle 1.
  { intros [H _]. rewrite Rabs_right in H; lra. }
  rewrite Hd. cbv zeta.
  rewrite decide_False by lra. rewrite decide_False by lra.
  f_equal; [field; lra | rewrite Hy; lra].
Qed.

Lemma hypot_lt a b c : 0 < c -> a * a + b * b < c * c -> hypot a b < c.
Proof.
  intros Hc H. unfold hypot. rewrite <- (sqrt_square c) by lra.
  apply sqrt_lt_1_alt. nra.
Qed.

(** Two units inside the origin box are less than [3e-6] apart. *)
Lemma box_distance u o :
  Unit.at_origin u -> Unit.at_origin o -> Unit.distance_to u o < 3e-6.
Proof.
  intros [Hx Hy] [Hx' Hy']. unfold Unit.distance_to. cbv zeta.
  apply Rabs_def2 in Hx, Hy, Hx', Hy'.
  apply hypot_lt; [lra|].
  assert (-2e-6 < Unit.x u - Unit.x o < 2e-6) as Hdx by lra.
  assert (-2e-6 < Unit.y u - Unit.y o < 2e-6) as Hdy by lra.
  assert ((Unit.x u - Unit.x o) * (Unit.x u - Unit.x o) < 2e-6 * 2e-6) by nra.
  assert ((Unit.y u - Unit.y o) * (Unit.y u - Unit.y o) < 2e-6 * 2e-6) by nra.
  lra.
Qed.

(** C3, as amended: a unit inside the origin box (both coordinates below
    1e-6 in absolute value) stays where it is, also when it is not exactly
    at the origin; any other unit ends at distance
    [max 0 (distance - move_speed * dt)] from the origin, and exactly at
    (0,0) when the step reaches the origin. *)
Theorem move_toward_origin_distance (u : Unit.t) (dt : R) :
  (Unit.at_origin u -> Unit.move_toward_origin u dt = u) /\
  (¬ Unit.at_origin u ->
     Unit.origin_distance (Unit.move_toward_origin u dt)
       = Rmax 0 (Unit.origin_distance u - Unit.move_speed u * dt) /\
     (Unit.move_speed u * dt >= Unit.origin_distance u ->
        Unit.x (Unit.move_toward_origin u dt) = 0 /\
        Unit.y (Unit.move_toward_origin u dt) = 0)).
Proof.
  split; [apply move_at_origin|]. intros Hbox. split; [by apply move_distance|].
  intros Hstep. pose proof (far_hypot u Hbox) as Hfar.
  unfold Unit.move_toward_origin, Unit.origin_distance in *.
  rewrite decide_False by done. cbv zeta.
  rewrite decide_False by lra. by rewrite decide_True.
Qed.

(** ** Target selection *)

Section Targeting.
Variable units : list Unit.t.
Variable u : Unit.t.

Lemma scan_inv_skip seen acc k :
  (forall o, ¬ enemy_at units u k o) ->
  scan_inv units u seen acc -> scan_inv units u (seen ++ [k]) acc.
Proof.
  intros Hk Hinv.
  destruct acc as [[j|] [|d]]; simpl in *; try done.
  - destruct Hinv as (pre & post & o & -> & Hj & Hd & Hpre & Hpost).
    exists pre, (post ++ [k]), o. rewrite <- app_assoc. repeat split; try done; try apply Hj.
    intros k' o' [Hin | ->%list_elem_of_singleton]%elem_of_app He; [eauto|].
    by destruct (Hk o').
  - intros k' o' [Hin | ->%list_elem_of_singleton]%elem_of_app; [by apply Hinv|apply Hk].
Qed.

Lemma scan_inv_step seen acc k :
  scan_inv units u seen acc -> scan_inv units u (seen ++ [k]) (scan_step units u acc k).
Proof.
  intros Hinv. unfold scan_step.
  destruct (units !! k) as [other|] eqn:Hk; cycle 1.
  { apply scan_inv_skip; [|done]. intros o [He _]. congruence. }
  case_bool_decide as Hteam.
  { apply scan_inv_skip; [|done]. intros o [He Hne]. congruence. }
  assert (enemy_at units u k other) as Hother by done.
  destruct acc as [[j|] [|d]]; simpl in *; try done.
  - destruct Hinv as (pre & post & o & -> & Hj & Hd & Hpre & Hpost).
    case_bool_decide as Hlt.
    + (* strictly nearer: [k] replaces [j] *)
      exists (pre ++ j :: post), [], other. repeat split; try done.
      * intros k' o' [Hin | [->|Hin]%elem_of_cons]%elem_of_app He.
        -- specialize (Hpre _ _ Hin He). lra.
        -- destruct He as [He _], Hj as [Hj _]. assert (o' = o) by congruence. subst. lra.
        -- specialize (Hpost _ _ Hin He). lra.
      * intros k' o' Hin. by apply elem_of_nil in Hin.
    + exists pre, (post ++ [k]), o. rewrite <- app_assoc. repeat split; try done; try apply Hj.
      intros k' o' [Hin | ->%list_elem_of_singleton]%elem_of_app He; [eauto|].
      destruct He as [He _]. assert (o' = other) by congruence. subst. lra.
  - (* the first enemy met *)
    exists seen, [], other. repeat split; try done.
    + intros k' o' Hin He. by destruct (Hinv k' o' Hin).
    + intros k' o' Hin. by apply elem_of_nil in Hin.
Qed.

Lemma scan_inv_fold l : forall seen acc,
  scan_inv units u seen acc ->
  scan_inv units u (seen ++ l) (fold_left (scan_step units u) l acc).
Proof.
  induction l as [|k l IH]; intros seen acc Hinv; simpl.
  - by rewrite app_nil_r.
  - replace (seen ++ k :: l) with ((seen ++ [k]) ++ l) by (by rewrite <- app_assoc).
    apply IH. by apply scan_inv_step.
Qed.

Lemma find_nearest_inv alive : scan_inv units u alive (find_nearest units u alive).
Proof.
  unfold find_nearest. apply (scan_inv_fold alive [] (None, Inf)).
  intros k o Hin. by apply elem_of_nil in Hin.
Qed.


End Targeting.

Lemma elem_of_alive_units units0 i :
  i ∈ alive_units units0 <-> alive_at units0 i = true.
Proof.
  unfold alive_units. rewrite list_elem_of_filter, elem_of_seq. split.
  - intros [H _]. by apply Is_true_true.
  - intros H. split; [by apply Is_true_true|].
    unfold alive_at in H. destruct (units0 !! i) eqn:E; [|done].
    apply lookup_lt_Some in E. lia.
Qed.

Lemma NoDup_alive_units units0 : NoDup (alive_units units0).
Proof. apply NoDup_filter, NoDup_seq. Qed.

(** C4: the target found for [u] is a member of the snapshot taken at the
    start of the tick, belongs to another team, and is the first member of
    the snapshot among the enemies at the least distance: every enemy
    before it is strictly farther, no enemy after it is nearer.  No target
    is found only when the snapshot holds no enemy. *)
Theorem nearest_enemy_is_first_minimal (units0 units : list Unit.t) (u : Unit.t) :
  match find_nearest units u (alive_units units0) with
  | (Some j, Fin d) =>
      exists pre post o,
        alive_units units0 = pre ++ j :: post /\
        alive_at units0 j = true /\
        units !! j = Some o /\
        Unit.team_name o <> Unit.team_name u /\
        d = Unit.distance_to u o /\
        (forall k o', k ∈ pre -> units !! k = Some o' ->
           Unit.team_name o' <> Unit.team_name u -> d < Unit.distance_to u o') /\
        (forall k o', k ∈ post -> units !! k = Some o' ->
           Unit.team_name o' <> Unit.team_name u -> d <= Unit.distance_to u o')
  | (None, Inf) =>
      forall k o, k ∈ alive_units units0 -> units !! k = Some o ->
        Unit.team_name o = Unit.team_name u
  | _ => False
  end.
Proof.
  pose proof (find_nearest_inv units u (alive_units units0)) as H.
  destruct (find_nearest units u (alive_units units0)) as [[j|] [|d]]; simpl in H; try done.
  - destruct H as (pre & post & o & Heq & [Hj Hne] & Hd & Hpre & Hpost).
    exists pre, post, o. repeat split; try done.
    + apply elem_of_alive_units. rewrite Heq. set_solver.
    + intros k o' Hin Hk Ht. by apply (Hpre k o').
    + intros k o' Hin Hk Ht. by apply (Hpost k o').
  - intros k o Hin Hk. destruct (decide (Unit.team_name o = Unit.team_name u)); [done|].
    by destruct (H k o Hin).
Qed.

(** ** One unit's turn *)

Lemma unit_action_dead alive t dt st i u :
  st.1 !! i = Some u -> Unit.is_alive u = false ->
  unit_action alive t dt st i = st.
Proof. intros Hi Hd. unfold unit_action. by rewrite Hi, Hd. Qed.

Lemma unit_action_alive alive t dt st i u :
  st.1 !! i = Some u -> Unit.is_alive u = true ->
  unit_action alive t dt st i = scheduled_action alive t dt st i u.
Proof. intros Hi Hd. unfold unit_action. by rewrite Hi, Hd. Qed.

Lemma is_alive_true u : Unit.is_alive u = true <-> Unit.health u > 0.
Proof. unfold Unit.is_alive. apply bool_decide_eq_true. Qed.

Lemma is_alive_false u : Unit.is_alive u = false <-> Unit.health u <= 0.
Proof.
  unfold Unit.is_alive. rewrite bool_decide_eq_false. split; lra.
Qed.

Lemma scheduled_action_in_range alive t dt st i u j d :
  find_nearest st.1 u alive = (Some j, Fin d) -> d <= Unit.weapon_range u ->
  scheduled_action alive t dt st i u =
    if bool_decide (t - Unit.last_attack_time u >= Unit.weapon_cooldown u)
    then attack i j t st else st.
Proof.
  intros Hn Hd. unfold scheduled_action. rewrite Hn. simpl.
  by rewrite bool_decide_eq_true_2.
Qed.

Lemma scheduled_action_out_of_range alive t dt st i u j d :
  find_nearest st.1 u alive = (Some j, Fin d) -> Unit.weapon_range u < d ->
  scheduled_action alive t dt st i u =
    (alter (fun a => Unit.move_toward_origin a dt) i st.1, st.2).
Proof.
  intros Hn Hd. unfold scheduled_action. rewrite Hn. simpl.
  rewrite bool_decide_eq_false_2; [done|lra].
Qed.

Lemma scheduled_action_no_enemy alive t dt st i u nd :
  find_nearest st.1 u alive = (None, nd) ->
  scheduled_action alive t dt st i u =
    (alter (fun a => Unit.move_toward_origin a dt) i st.1, st.2).
Proof. intros Hn. unfold scheduled_action. by rewrite Hn. Qed.

Lemma attack_position i j t st k :
  position (attack i j t st).1 k = position st.1 k.
Proof.
  unfold attack, position. destruct (st.1 !! i) as [u|]; [|done]. simpl.
  rewrite !list_lookup_alter.
  repeat case_decide; subst; rewrite ?list_lookup_alter_eq;
    by destruct (st.1 !! k).
Qed.

Lemma list_alter_insert {A} (f : A -> A) (l : list A) i x :
  l !! i = Some x -> alter f i l = <[i := f x]> l.
Proof.
  intros Hi. apply list_eq. intros k. destruct (decide (i = k)) as [->|Hne].
  - rewrite list_lookup_alter_eq, Hi, list_lookup_insert_eq; [done|].
    by apply lookup_lt_Some in Hi.
  - by rewrite list_lookup_alter_ne, list_lookup_insert_ne.
Qed.

Lemma attack_insert i j t st u o :
  st.1 !! i = Some u -> st.1 !! j = Some o -> i <> j ->
  attack i j t st =
    (<[i := Unit.set_last_attack_time u t]>
       (<[j := Unit.set_health o (Unit.health o - Unit.weapon_damage u)]> st.1),
     add_damage (Unit.type_name u) (Unit.weapon_damage u) st.2).
Proof.
  intros Hi Hj Hne. unfold attack. rewrite Hi.
  rewrite (list_alter_insert _ _ j o Hj).
  rewrite (list_alter_insert _ _ i u); [done|].
  by rewrite list_lookup_insert_ne.
Qed.

Lemma unit_action_turn alive t dt st i :
  turn alive t dt st i (unit_action alive t dt st i).
Proof.
  unfold unit_action. destruct (st.1 !! i) as [u|] eqn:Hi; [|constructor].
  destruct (Unit.is_alive u) eqn:Hlive; simpl; [|constructor].
  apply is_alive_true in Hlive.
  assert (turn alive t dt st i
            (alter (fun a => Unit.move_toward_origin a dt) i st.1, st.2)) as Hmove.
  { rewrite (list_alter_insert _ _ i u Hi). by constructor. }
  unfold scheduled_action.
  pose proof (find_nearest_inv st.1 u alive) as Hinv.
  destruct (find_nearest st.1 u alive) as [[j|] nd] eqn:Hn; [|done].
  destruct nd as [|d]; simpl in *; [done|].
  case_bool_decide as Hd; [|done].
  case_bool_decide as Hc; [|constructor].
  destruct Hinv as (pre & post & o & -> & [Hj Hne] & -> & _).
  assert (i <> j) as Hij by (intros ->; congruence).
  rewrite (attack_insert i j t st u o) by done.
  eapply turn_attack; try done. set_solver.
Qed.

(** C1, as amended: liveness is tested again before each unit acts
    (lines 190-191).  A unit whose health has been driven to 0 or below by
    a unit processed earlier in the tick is skipped, its turn changes
    nothing; a unit that is still alive performs its action. *)
Theorem killed_unit_is_skipped alive t dt st i u :
  st.1 !! i = Some u ->
  (Unit.health u <= 0 -> unit_action alive t dt st i = st) /\
  (Unit.health u > 0 ->
     unit_action alive t dt st i = scheduled_action alive t dt st i u).
Proof.
  intros Hi. split; intros Hh.
  - apply (unit_action_dead _ _ _ _ _ u); [done|]. by apply is_alive_false.
  - apply unit_action_alive; [done|]. by apply is_alive_true.
Qed.

Lemma enemies_out_of_range_nearest alive units u :
  (forall k o, k ∈ alive -> units !! k = Some o ->
     Unit.team_name o <> Unit.team_name u ->
     Unit.weapon_range u < Unit.distance_to u o) ->
  (exists nd, find_nearest units u alive = (None, nd)) \/
  (exists j d, find_nearest units u alive = (Some j, Fin d) /\ Unit.weapon_range u < d).
Proof.
  intros Hfar. pose proof (find_nearest_inv units u alive) as H.
  destruct (find_nearest units u alive) as [[j|] [|d]]; simpl in H; try done.
  - right. exists j, d. split; [done|].
    destruct H as (pre & post & o & -> & [Hj Hne] & -> & _).
    apply (Hfar j o); [set_solver|done|done].
  - left. by eexists.
Qed.

(** C2, as amended: a living unit with no enemy within its weapon range
    does not attack (no health, damage total or attack time changes) and
    takes the movement step toward the origin, whatever the state of its
    cooldown. *)
Theorem out_of_range_unit_moves alive t dt st i u :
  st.1 !! i = Some u ->
  Unit.health u > 0 ->
  (forall k o, k ∈ alive -> st.1 !! k = Some o ->
     Unit.team_name o <> Unit.team_name u ->
     Unit.weapon_range u < Unit.distance_to u o) ->
  unit_action alive t dt st i =
    (<[i := Unit.move_toward_origin u dt]> st.1, st.2).
Proof.
  intros Hi Hh Hfar.
  rewrite (unit_action_alive _ _ _ _ _ u) by (done || by apply is_alive_true).
  rewrite <- (list_alter_insert (fun a => Unit.move_toward_origin a dt) _ _ _ Hi).
  destruct (enemies_out_of_range_nearest alive st.1 u Hfar)
    as [[nd Hn] | (j & d & Hn & Hd)].
  - by eapply scheduled_action_no_enemy.
  - by eapply scheduled_action_out_of_range.
Qed.

(** C5, as amended: during the turn of a unit whose nearest enemy is
    within its weapon range nobody moves.  If the unit is alive when its
    turn comes and its cooldown has elapsed, it attacks that enemy: the
    enemy, another unit than itself, loses exactly [weapon_damage] health,
    the attacker's [last_attack_time] becomes the time of the tick, its
    type is credited with [weapon_damage] in the damage table, and
    nothing else changes.  If the cooldown has not elapsed, or if the unit
    has been killed earlier in the tick, its turn changes nothing. *)
Theorem in_range_unit_attacks_or_waits alive t dt st i u j d :
  st.1 !! i = Some u ->
  find_nearest st.1 u alive = (Some j, Fin d) ->
  d <= Unit.weapon_range u ->
  (forall k, position (unit_action alive t dt st i).1 k = position st.1 k) /\
  (Unit.health u > 0 ->
   t - Unit.last_attack_time u >= Unit.weapon_cooldown u ->
     exists o, st.1 !! j = Some o /\ j <> i /\
       unit_action alive t dt st i =
         (<[i := Unit.set_last_attack_time u t]>
            (<[j := Unit.set_health o (Unit.health o - Unit.weapon_damage u)]>
               st.1),
          <[Unit.type_name u :=
              default 0 (st.2 !! Unit.type_name u) + Unit.weapon_damage u]>
            st.2)) /\
  (t - Unit.last_attack_time u < Unit.weapon_cooldown u ->
     unit_action alive t dt st i = st) /\
  (Unit.health u <= 0 -> unit_action alive t dt st i = st).
Proof.
  intros Hi Hn Hd.
  destruct (Unit.is_alive u) eqn:Hlive.
  - rewrite (unit_action_alive _ _ _ _ _ u) by done.
    rewrite (scheduled_action_in_range _ _ _ _ _ _ j d) by done.
    apply is_alive_true in Hlive.
    split; [|split; [|split]].
    + intros k. case_bool_decide; [apply attack_position|done].
    + intros _ Hc. rewrite bool_decide_eq_true_2 by done.
      pose proof (find_nearest_inv st.1 u alive) as Hinv. rewrite Hn in Hinv.
      destruct Hinv as (pre & post & o & _ & [Hj Hteam] & _).
      assert (j <> i) as Hji by (intros ->; congruence).
      exists o. split; [done|]. split; [done|].
      by rewrite (attack_insert i j t st u o).
    + intros Hc. rewrite bool_decide_eq_false_2; [done|lra].
    + intros Hdead. lra.
  - rewrite (unit_action_dead _ _ _ _ _ u) by done.
    apply is_alive_false in Hlive.
    split; [done|]. split; [intros Hh; lra|]. by split.
Qed.

(** Only the unit whose turn it is can change its position. *)
Lemma turn_other_position alive t dt st i st' k :
  turn alive t dt st i st' -> k <> i -> position st'.1 k = position st.1 k.
Proof.
  intros [|u j o d Hi Hh Hn Hj Ho Hij Hd Hc|u Hi Hh] Hk; simpl; [done| |].
  - unfold position. rewrite list_lookup_insert_ne by done.
    destruct (decide (j = k)) as [->|Hjk].
    + rewrite list_lookup_insert_eq by (by eapply lookup_lt_Some).
      by rewrite Ho.
    + by rewrite list_lookup_insert_ne.
  - unfold position. by rewrite list_lookup_insert_ne.
Qed.

Lemma fold_other_position alive t dt k l : forall st,
  k ∉ l ->
  position (fold_left (unit_action alive t dt) l st).1 k = position st.1 k.
Proof.
  induction l as [|i l IH]; intros st Hk; simpl; [done|].
  apply not_elem_of_cons in Hk as [Hki Hkl].
  rewrite IH by done.
  apply (turn_other_position alive t dt st i); [apply unit_action_turn|done].
Qed.

(** Over a whole tick the position of a snapshot member changes at most
    in its own turn; with its nearest enemy in range at that moment it
    ends the tick where it started. *)
Lemma in_range_unit_stays_for_the_tick t dt st pre i post u j d :
  let alive := alive_units st.1 in
  alive = pre ++ i :: post ->
  (fold_left (unit_action alive t dt) pre st).1 !! i = Some u ->
  find_nearest (fold_left (unit_action alive t dt) pre st).1 u alive
    = (Some j, Fin d) ->
  d <= Unit.weapon_range u ->
  position (resolver alive t dt st).1 i = position st.1 i.
Proof.
  intros alive Halive Hi Hn Hd. unfold resolver.
  pose proof (NoDup_alive_units st.1) as Hnodup. fold alive in Hnodup.
  rewrite Halive in Hnodup. apply NoDup_app in Hnodup as (_ & Hpre & Hpost).
  apply NoDup_cons in Hpost as [Hpost _].
  rewrite Halive at 2. rewrite fold_left_app. simpl.
  rewrite fold_other_position by done.
  rewrite <- (fold_other_position alive t dt i pre st); cycle 1.
  { intros Hin. by apply (Hpre i Hin), list_elem_of_here. }
  set (st1 := fold_left (unit_action alive t dt) pre st) in *.
  destruct (Unit.is_alive u) eqn:Hlive.
  - rewrite (unit_action_alive _ _ _ _ _ u) by done.
    rewrite (scheduled_action_in_range _ _ _ _ _ _ j d) by done.
    case_bool_decide; [apply attack_position|done].
  - by rewrite (unit_action_dead _ _ _ _ _ u).
Qed.

(** ** The clock *)

Lemma run_stopped n : forall s, simulation_running s = false -> run n s = s.
Proof.
  induction n as [|n IH]; intros s Hs; [done|].
  simpl. unfold while_iter. rewrite Hs. by apply IH.
Qed.

Lemma loop_body_terminal s :
  (size (teams_still_alive (units s) (alive_units (units s))) <= 1)%nat ->
  loop_body s =
    {| units := units s; damage_stats := damage_stats s;
       frame_counter := S (frame_counter s); simulation_running := false;
       winner := Some (head (elements
                   (teams_still_alive (units s) (alive_units (units s))))) |}.
Proof. intros H. unfold loop_body. by rewrite bool_decide_eq_true_2. Qed.

Lemma loop_body_running s :
  (1 < size (teams_still_alive (units s) (alive_units (units s))))%nat ->
  loop_body s =
    let st := resolver (alive_units (units s))
                (INR (frame_counter s) * FIXED_DT) FIXED_DT
                (units s, damage_stats s) in
    {| units := st.1; damage_stats := st.2;
       frame_counter := S (frame_counter s);
       simulation_running := simulation_running s; winner := winner s |}.
Proof. intros H. unfold loop_body. rewrite bool_decide_eq_false_2; [done|lia]. Qed.

Lemma size_le_1_cases (X : gset string) :
  (size X <= 1)%nat -> X = ∅ \/ exists t, X = {[ t ]}.
Proof.
  intros H. destruct (decide (size X = 0%nat)) as [H0|H0].
  - left. by apply size_empty_inv, leibniz_equiv in H0.
  - right. assert (size X = 1%nat) as H1 by lia.
    apply size_1_elem_of in H1 as [t Ht]. exists t. by apply leibniz_equiv.
Qed.

Lemma run_S n : forall s, run (S n) s = while_iter (run n s).
Proof.
  induction n as [|n IH]; intros s; [done|].
  change (run (S (S n)) s) with (run (S n) (while_iter s)). by rewrite IH.
Qed.

Lemma run_add m : forall n s, run (m + n) s = run n (run m s).
Proof. induction m as [|m IH]; intros n s; [done|]. simpl. apply IH. Qed.

(** Without an exception from the rendering, [frames] is [run] followed
    by a look at the loop variable. *)
Lemma frames_run render fuel : forall s,
  (forall k, (k < fuel)%nat -> render (run (S k) s) = None) ->
  frames render fuel s =
    if simulation_running (run fuel s) then StillRunning (run fuel s)
    else Terminated (default None (winner (run fuel s)))
           (damage_stats (run fuel s)).
Proof.
  induction fuel as [|fuel IH]; intros s Hrender;
    destruct (simulation_running s) eqn:Hs.
  - simpl. by rewrite Hs.
  - simpl. by rewrite Hs.
  - assert (while_iter s = loop_body s) as Hbody
      by (unfold while_iter; by rewrite Hs).
    simpl. rewrite Hs, Hbody.
    pose proof (Hrender 0%nat ltac:(lia)) as H0. simpl in H0.
    rewrite Hbody in H0. rewrite H0. apply IH.
    intros k Hk. specialize (Hrender (S k) ltac:(lia)).
    simpl in Hrender. by rewrite Hbody in Hrender.
  - rewrite run_stopped by done. simpl. by rewrite Hs.
Qed.

(** When [frames] ends with the summary, the loop has stopped after some
    number of iterations, and the summary shows its variables. *)
Lemma frames_Terminated render fuel : forall s w d,
  frames render fuel s = Terminated w d ->
  exists k, simulation_running (run k s) = false /\
    w = default None (winner (run k s)) /\ d = damage_stats (run k s).
Proof.
  induction fuel as [|fuel IH]; intros s w d;
    destruct (simulation_running s) eqn:Hs; simpl; rewrite Hs; try done.
  - intros [= <- <-]. by exists 0%nat.
  - destruct (render (loop_body s)); [done|]. intros Hrest.
    destruct (IH _ _ _ Hrest) as (k & Hk). exists (S k). simpl.
    unfold while_iter. by rewrite Hs.
  - intros [= <- <-]. by exists 0%nat.
Qed.

Lemma FIXED_DT_pos : 0 < FIXED_DT.
Proof. unfold FIXED_DT. lra. Qed.

Lemma now_S s s' : frame_counter s' = S (frame_counter s) -> now s' = now s + FIXED_DT.
Proof. intros H. unfold now. rewrite H, S_INR. lra. Qed.

(** C6: on a tick that starts with at most one team among the living
    units the resolver does not run: units and damage totals are left as
    they are, the loop stops, the winner is the one remaining team or
    [None] when no team remains, and further iterations change nothing. *)
Theorem terminal_tick_skips_resolver (s : state) :
  simulation_running s = true ->
  (size (teams_still_alive (units s) (alive_units (units s))) <= 1)%nat ->
  let teams := teams_still_alive (units s) (alive_units (units s)) in
  let s' := while_iter s in
  units s' = units s /\ damage_stats s' = damage_stats s /\
  simulation_running s' = false /\
  ((exists team, teams = {[ team ]} /\ winner s' = Some (Some team)) \/
   (teams = ∅ /\ winner s' = Some None)) /\
  (forall n, run n s' = s').
Proof.
  intros Hrun Hsz teams s'. subst s'. unfold while_iter. rewrite Hrun.
  rewrite loop_body_terminal by done. simpl. repeat split.
  - fold teams. destruct (size_le_1_cases teams Hsz) as [->|[t ->]].
    + right. by rewrite elements_empty.
    + left. exists t. by rewrite elements_singleton.
  - intros n. by apply run_stopped.
Qed.

(** ** Unit construction *)

Lemma init_last_attack_time type_name team_name x y uts u :
  Unit.init type_name team_name x y uts = Some u ->
  Unit.last_attack_time u = -1e9.
Proof.
  unfold Unit.init. destruct (uts !! type_name); [|done].
  by intros [= <-].
Qed.

(** C7, as amended: [last_attack_time] starts at -1e9, so the first attack
    of a fresh unit passes the cooldown test at every time [t >= 0] provided
    its weapon cooldown is at most 1e9. *)
Theorem first_attack_not_blocked type_name team_name x y uts u t :
  Unit.init type_name team_name x y uts = Some u ->
  0 <= t ->
  Unit.weapon_cooldown u <= 1e9 ->
  t - Unit.last_attack_time u >= Unit.weapon_cooldown u.
Proof.
  intros Hinit Ht Hcd. rewrite (init_last_attack_time _ _ _ _ _ _ Hinit). lra.
Qed.

Lemma first_attack_blocked_iff type_name team_name x y uts u t :
  Unit.init type_name team_name x y uts = Some u ->
  t - Unit.last_attack_time u >= Unit.weapon_cooldown u <->
  Unit.weapon_cooldown u <= t + 1e9.
Proof.
  intros Hinit. rewrite (init_last_attack_time _ _ _ _ _ _ Hinit). lra.
Qed.

(** ** The loader *)

Lemma bind_Ok {A B} (m : result A) (f : A -> result B) b :
  m ≫= f = Ok b -> exists a, m = Ok a /\ f a = Ok b.
Proof. destruct m as [a|]; [|done]. intros H. by exists a. Qed.

Lemma parse_unit_type_status type_name stats status message :
  parse_unit_type type_name stats = Exit status message -> status = 1%Z.
Proof.
  unfold parse_unit_type.
  destruct stats as [[h|] [ms|] [wr|] [wd|] [wc|]]; simpl; try done;
    by intros [= <- _].
Qed.

Lemma parse_unit_types_status items : forall uts status message,
  parse_unit_types items uts = Exit status message -> status = 1%Z.
Proof.
  induction items as [|[n st] items IH]; intros uts status message; simpl; [done|].
  destruct (parse_unit_type n st) as [ut|c m] eqn:E; simpl.
  - apply IH.
  - intros [= <- _]. by eapply parse_unit_type_status.
Qed.

Lemma parse_member_status uts team m status message :
  parse_member uts team m = Exit status message -> status = 1%Z.
Proof.
  unfold parse_member, Unit.init.
  destruct m as [[n|] [x|] [y|]]; simpl; try (by intros [= <- _]).
  destruct (uts !! n); simpl; [done|by intros [= <- _]].
Qed.

Lemma parse_members_status uts team members : forall us status message,
  parse_members uts team members us = Exit status message -> status = 1%Z.
Proof.
  induction members as [|m members IH]; intros us status message; simpl; [done|].
  destruct (parse_member uts team m) as [u|c msg] eqn:E; simpl.
  - apply IH.
  - intros [= <- _]. by eapply parse_member_status.
Qed.

Lemma parse_teams_status uts items : forall us status message,
  parse_teams uts items us = Exit status message -> status = 1%Z.
Proof.
  induction items as [|[team members] items IH]; intros us status message; simpl; [done|].
  destruct (parse_members uts team members us) as [us'|c msg] eqn:E; simpl.
  - apply IH.
  - intros [= <- _]. by eapply parse_members_status.
Qed.

(** Every failure of the loader is an exit with status 1. *)
Lemma load_status data status message :
  load data = Exit status message -> status = 1%Z.
Proof.
  unfold load. destruct (default [] (Config.units data)) as [|it its] eqn:Eu.
  { by intros [= <- _]. }
  destruct (parse_unit_types (it :: its) ∅) as [uts|c m] eqn:Ep; simpl.
  2:{ intros [= <- _]. by eapply parse_unit_types_status. }
  destruct (default [] (Config.teams data)) as [|tm tms] eqn:Et.
  { by intros [= <- _]. }
  destruct (parse_teams uts (tm :: tms) []) as [us|c m] eqn:Eq; simpl; [done|].
  intros [= <- _]. by eapply parse_teams_status.
Qed.

(** The registry holds exactly the names of the ["units"] object. *)
Lemma parse_unit_types_dom items : forall uts uts',
  parse_unit_types items uts = Ok uts' ->
  forall n, is_Some (uts' !! n) -> n ∈ items.*1 \/ is_Some (uts !! n).
Proof.
  induction items as [|[k st] items IH]; intros uts uts'; simpl.
  - intros [= <-] n Hn. by right.
  - intros (ut & Hut & Hrest)%bind_Ok n Hn.
    destruct (IH _ _ Hrest n Hn) as [Hin|Hin].
    + left. by right.
    + destruct (decide (k = n)) as [->|Hne].
      * left. by left.
      * right. by rewrite lookup_insert_ne in Hin.
Qed.

Lemma parse_member_known uts team m u :
  parse_member uts team m = Ok u ->
  exists n, Config.name m = Some n /\ is_Some (uts !! n).
Proof.
  unfold parse_member. destruct m as [[n|] [x|] [y|]]; simpl; try done.
  destruct (uts !! n) eqn:E; [|done]. intros _. exists n. by rewrite E.
Qed.

Lemma parse_members_known uts team members : forall us us',
  parse_members uts team members us = Ok us' ->
  forall m, m ∈ members -> exists n, Config.name m = Some n /\ is_Some (uts !! n).
Proof.
  induction members as [|m0 members IH]; intros us us'; simpl.
  - intros _ m Hm. by apply elem_of_nil in Hm.
  - intros (u & Hu & Hrest)%bind_Ok m [->|Hm]%elem_of_cons.
    + by eapply parse_member_known.
    + by eapply IH.
Qed.

Lemma parse_teams_known uts items : forall us us',
  parse_teams uts items us = Ok us' ->
  forall team members m, (team, members) ∈ items -> m ∈ members ->
    exists n, Config.name m = Some n /\ is_Some (uts !! n).
Proof.
  induction items as [|[tm ms] items IH]; intros us us'; simpl.
  - intros _ team members m Hin. by apply elem_of_nil in Hin.
  - intros (us1 & Hus1 & Hrest)%bind_Ok team members m [[= -> ->]|Hin]%elem_of_cons Hm.
    + by eapply parse_members_known.
    + by eapply IH.
Qed.

Lemma load_rejects_unknown data team members m name :
  (team, members) ∈ default [] (Config.teams data) ->
  m ∈ members ->
  Config.name m = Some name ->
  name ∉ (default [] (Config.units data)).*1 ->
  exists message, load data = Exit 1 message.
Proof.
  intros Hteam Hm Hname Hfresh.
  destruct (load data) as [[uts us]|status message] eqn:Hload.
  - exfalso. unfold load in Hload.
    destruct (default [] (Config.units data)) as [|it its] eqn:Eu; [done|].
    apply bind_Ok in Hload as (uts' & Huts & Hload).
    destruct (default [] (Config.teams data)) as [|tm tms] eqn:Et; [done|].
    apply bind_Ok in Hload as (us' & Hus & _).
    destruct (parse_teams_known _ _ _ _ Hus team members m Hteam Hm) as (n & Hn & Hsome).
    assert (n = name) as -> by congruence.
    destruct (parse_unit_types_dom _ _ _ Huts name Hsome) as [Hin|Hin]; [done|].
    rewrite lookup_empty in Hin. by destruct Hin.
  - exists message. by rewrite (load_status _ _ _ Hload).
Qed.

Lemma parse_members_app uts team pre : forall rest us,
  parse_members uts team (pre ++ rest) us =
  parse_members uts team pre us ≫= parse_members uts team rest.
Proof.
  induction pre as [|m pre IH]; intros rest us; simpl; [done|].
  destruct (parse_member uts team m) as [u|c msg]; simpl; [apply IH|done].
Qed.

Lemma parse_teams_app uts pre : forall rest us,
  parse_teams uts (pre ++ rest) us =
  parse_teams uts pre us ≫= parse_teams uts rest.
Proof.
  induction pre as [|[tm ms] pre IH]; intros rest us; simpl; [done|].
  destruct (parse_members uts tm ms us) as [us'|c msg]; simpl; [apply IH|done].
Qed.

Lemma load_first_defect_unknown data team name :
  first_defect_unknown data team name ->
  load data = Exit 1 (unknown_unit_type name team).
Proof.
  intros (uts & pt & pm & m & rm & rt & us1 & us2 & Hne & Huts & Hteams & Hpt & Hpm
          & Hname & [x Hx] & [y Hy] & Hnone).
  unfold load. destruct (default [] (Config.units data)) as [|it its] eqn:Eu; [done|].
  rewrite Huts. simpl. rewrite Hteams.
  destruct (pt ++ (team, pm ++ m :: rm) :: rt) as [|tm tms] eqn:Et.
  { by destruct pt. }
  rewrite <- Et. rewrite parse_teams_app, Hpt. simpl.
  rewrite parse_members_app, Hpm. simpl.
  unfold parse_member. rewrite Hname, Hx, Hy. simpl. by rewrite Hnone.
Qed.

(** C9, as amended: a configuration in which a team member names a type
    that is not a key of the units object is always rejected before the
    loop starts, with exit status 1; the message is the one that names the
    type and the team when nothing earlier in the document is at fault
    (the first defect in document order is the one reported). *)
Theorem unknown_unit_type_rejected data team members m name :
  (team, members) ∈ default [] (Config.teams data) ->
  m ∈ members ->
  Config.name m = Some name ->
  name ∉ (default [] (Config.units data)).*1 ->
  (exists message, load data = Exit 1 message /\
     forall fuel, main data fuel = Exited 1 message) /\
  (first_defect_unknown data team name ->
     forall fuel, main data fuel = Exited 1 (unknown_unit_type name team)).
Proof.
  intros Hteam Hm Hname Hfresh. split.
  - destruct (load_rejects_unknown _ _ _ _ _ Hteam Hm Hname Hfresh) as [msg Hmsg].
    exists msg. split; [done|]. intros fuel. unfold main. by rewrite Hmsg.
  - intros Hfirst fuel. unfold main.
    by rewrite (load_first_defect_unknown _ _ _ Hfirst).
Qed.


Lemma init_built type_name team_name x y uts u :
  Unit.init type_name team_name x y uts = Some u -> built_from uts u.
Proof.
  unfold Unit.init. destruct (uts !! type_name) as [ut|] eqn:E; [|done].
  intros [= <-]. exists ut. simpl. by rewrite E.
Qed.

Lemma parse_member_built uts team m u :
  parse_member uts team m = Ok u -> built_from uts u.
Proof.
  unfold parse_member. destruct m as [[n|] [x|] [y|]]; simpl; try done.
  destruct (uts !! n) as [ut|] eqn:E; simpl; [|done].
  destruct (Unit.init n team x y uts) as [u'|] eqn:Hinit; simpl; [|done].
  intros [= <-]. by eapply init_built.
Qed.

Lemma parse_members_built uts team members : forall us us',
  Forall (built_from uts) us ->
  parse_members uts team members us = Ok us' -> Forall (built_from uts) us'.
Proof.
  induction members as [|m members IH]; intros us us' Hus; simpl.
  - by intros [= <-].
  - intros (u & Hu & Hrest)%bind_Ok. eapply IH; [|done].
    apply Forall_app. split; [done|]. apply Forall_singleton.
    by eapply parse_member_built.
Qed.

Lemma parse_teams_built uts items : forall us us',
  Forall (built_from uts) us ->
  parse_teams uts items us = Ok us' -> Forall (built_from uts) us'.
Proof.
  induction items as [|[team members] items IH]; intros us us' Hus; simpl.
  - by intros [= <-].
  - intros (us1 & Hus1 & Hrest)%bind_Ok. eapply IH; [|done].
    by eapply parse_members_built.
Qed.

Lemma load_built data uts us :
  load data = Ok (uts, us) -> Forall (built_from uts) us.
Proof.
  unfold load. destruct (default [] (Config.units data)) as [|it its]; [done|].
  intros (uts' & Huts & Hload)%bind_Ok.
  destruct (default [] (Config.teams data)) as [|tm tms]; [done|].
  apply bind_Ok in Hload as (us' & Hus & [= <- <-]).
  by eapply parse_teams_built.
Qed.

(** ** Damage accounting *)

Lemma total_damage_insert_fresh k v (m : gmap string R) :
  m !! k = None -> total_damage (<[k := v]> m) = v + total_damage m.
Proof.
  intros Hk. unfold total_damage.
  apply (map_fold_insert_L (fun _ v acc => v + acc) 0 k v m); [|done].
  intros. lra.
Qed.

Lemma total_damage_lookup k v (m : gmap string R) :
  m !! k = Some v -> total_damage m = v + total_damage (delete k m).
Proof.
  intros Hk. rewrite <- (insert_delete_id m k v Hk) at 1.
  apply total_damage_insert_fresh. apply lookup_delete_eq.
Qed.

Lemma total_damage_add k d (m : gmap string R) :
  total_damage (add_damage k d m) = total_damage m + d.
Proof.
  unfold add_damage. rewrite <- insert_delete_eq.
  rewrite total_damage_insert_fresh by apply lookup_delete_eq.
  destruct (m !! k) as [v|] eqn:Hk; simpl.
  - rewrite (total_damage_lookup k v m Hk). lra.
  - rewrite delete_id by done. lra.
Qed.

Lemma total_damage_empty : total_damage ∅ = 0.
Proof. unfold total_damage. apply map_fold_empty. Qed.

Lemma health_lost_alter_health uts d us : forall j o,
  us !! j = Some o ->
  health_lost uts (alter (fun e => Unit.set_health e (Unit.health e - d)) j us)
  = health_lost uts us + d.
Proof.
  induction us as [|e us IH]; intros j o Hj; [done|].
  destruct j as [|j].
  - simpl. unfold max_health_of. simpl. lra.
  - specialize (IH j o Hj). simpl in *. unfold alter in IH. rewrite IH. lra.
Qed.

Lemma health_lost_alter_same uts (f : Unit.t -> Unit.t) us :
  (forall e, Unit.type_name (f e) = Unit.type_name e /\
             Unit.health (f e) = Unit.health e) ->
  forall i, health_lost uts (alter f i us) = health_lost uts us.
Proof.
  intros Hf. induction us as [|e us IH]; intros i; [done|].
  destruct i as [|i].
  - simpl. destruct (Hf e) as [Ht Hh]. unfold max_health_of. by rewrite Ht, Hh.
  - specialize (IH i). simpl in *. unfold alter in IH. by rewrite IH.
Qed.

Lemma move_toward_origin_keeps u dt :
  Unit.type_name (Unit.move_toward_origin u dt) = Unit.type_name u /\
  Unit.health (Unit.move_toward_origin u dt) = Unit.health u.
Proof. unfold Unit.move_toward_origin. by repeat case_decide. Qed.

Lemma attack_balance uts i j t st o :
  st.1 !! j = Some o -> balance uts (attack i j t st) = balance uts st.
Proof.
  intros Hj. unfold attack, balance. destruct (st.1 !! i) as [u|]; [|done]. simpl.
  rewrite total_damage_add.
  rewrite health_lost_alter_same by done.
  rewrite (health_lost_alter_health _ _ _ j o) by done. lra.
Qed.

Lemma find_nearest_valid units u alive j nd :
  find_nearest units u alive = (Some j, nd) -> is_Some (units !! j).
Proof.
  intros H. pose proof (find_nearest_inv units u alive) as Hinv. rewrite H in Hinv.
  destruct nd as [|d]; simpl in Hinv; [done|].
  destruct Hinv as (pre & post & o & _ & [Hj _] & _). by exists o.
Qed.

Lemma move_balance uts i dt (st : list Unit.t * gmap string R) :
  balance uts (alter (fun a => Unit.move_toward_origin a dt) i st.1, st.2)
  = balance uts st.
Proof.
  unfold balance. simpl. rewrite health_lost_alter_same; [done|].
  intros e. apply move_toward_origin_keeps.
Qed.

Lemma unit_action_balance uts alive t dt st i :
  balance uts (unit_action alive t dt st i) = balance uts st.
Proof.
  unfold unit_action. destruct (st.1 !! i) as [u|]; [|done].
  destruct (Unit.is_alive u); simpl; [|done].
  unfold scheduled_action.
  destruct (find_nearest st.1 u alive) as [[j|] nd] eqn:Hn.
  - destruct (bound_le nd (Unit.weapon_range u)); [|apply move_balance].
    case_bool_decide; [|done].
    destruct (find_nearest_valid _ _ _ _ _ Hn) as [o Ho]. by eapply attack_balance.
  - apply move_balance.
Qed.

Lemma resolver_balance uts alive t dt l : forall st,
  balance uts (fold_left (unit_action alive t dt) l st) = balance uts st.
Proof.
  induction l as [|i l IH]; intros st; simpl; [done|].
  rewrite IH. apply unit_action_balance.
Qed.

Lemma while_iter_balance uts s :
  balance uts (units (while_iter s), damage_stats (while_iter s))
  = balance uts (units s, damage_stats s).
Proof.
  unfold while_iter. destruct (simulation_running s); [|done].
  unfold loop_body. case_bool_decide; [done|]. simpl.
  rewrite <- (resolver_balance uts (alive_units (units s))
                (INR (frame_counter s) * FIXED_DT) FIXED_DT
                (alive_units (units s)) (units s, damage_stats s)).
  unfold resolver. by destruct (fold_left _ _ _).
Qed.

Lemma run_balance uts n : forall s,
  balance uts (units (run n s), damage_stats (run n s))
  = balance uts (units s, damage_stats s).
Proof.
  induction n as [|n IH]; intros s; [done|].
  simpl. rewrite IH. apply while_iter_balance.
Qed.

Lemma health_lost_built uts us :
  Forall (built_from uts) us -> health_lost uts us = 0.
Proof.
  induction 1 as [|u us (ut & Hut & Hh & _) _ IH]; [done|].
  simpl. unfold max_health_of. rewrite Hut, IH, Hh. lra.
Qed.


(** ** Units only lose health *)

Lemma ages_refl u : ages u u.
Proof. unfold ages. repeat split; lra. Qed.

Lemma ages_trans u1 u2 u3 : ages u1 u2 -> ages u2 u3 -> ages u1 u3.
Proof.
  unfold ages. intros (?&?&?&?&?&?&?) (?&?&?&?&?&?&?).
  repeat split; try congruence. lra.
Qed.

Lemma Forall2_ages_refl us : Forall2 ages us us.
Proof. apply Forall_Forall2_diag, Forall_forall. intros. apply ages_refl. Qed.

Lemma Forall2_ages_trans us1 us2 us3 :
  Forall2 ages us1 us2 -> Forall2 ages us2 us3 -> Forall2 ages us1 us3.
Proof.
  intros H12. revert us3. induction H12 as [|u1 u2 us1 us2 Hu _ IH]; intros us3 H23.
  - by inversion H23.
  - inversion H23 as [|? u3 ? us3' Hu' Hrest]; subst. constructor; [|by apply IH].
    by eapply ages_trans.
Qed.

Lemma Forall2_ages_insert us i u u' :
  us !! i = Some u -> ages u u' -> Forall2 ages us (<[i := u']> us).
Proof.
  intros Hi Hu. rewrite <- (list_insert_id us i u Hi) at 1.
  apply Forall2_insert; [apply Forall2_ages_refl|done].
Qed.

Lemma move_toward_origin_ages u dt : ages u (Unit.move_toward_origin u dt).
Proof.
  unfold Unit.move_toward_origin. repeat case_decide; unfold ages; simpl;
    repeat split; lra.
Qed.

Lemma turn_ages alive t dt st i st' :
  Forall (fun u => 0 <= Unit.weapon_damage u) st.1 ->
  turn alive t dt st i st' -> Forall2 ages st.1 st'.1.
Proof.
  intros Hdmg [|u j o d Hi Hh Hn Hj Ho Hij Hd Hc|u Hi Hh]; simpl.
  - apply Forall2_ages_refl.
  - apply (Forall2_ages_trans _
      (<[j := Unit.set_health o (Unit.health o - Unit.weapon_damage u)]> st.1)).
    + apply (Forall2_ages_insert _ j o); [done|].
      unfold ages. simpl. repeat split; try done.
      rewrite Forall_forall in Hdmg.
      assert (0 <= Unit.weapon_damage u); [|lra].
      apply Hdmg. by eapply list_elem_of_lookup_2.
    + apply (Forall2_ages_insert _ i u); [by rewrite list_lookup_insert_ne|].
      unfold ages. simpl. repeat split; lra.
  - apply (Forall2_ages_insert _ i u); [done|]. apply move_toward_origin_ages.
Qed.

Lemma ages_damage us us' :
  Forall2 ages us us' ->
  Forall (fun u => 0 <= Unit.weapon_damage u) us ->
  Forall (fun u => 0 <= Unit.weapon_damage u) us'.
Proof.
  induction 1 as [|u u' us us' Hu _ IH]; [done|].
  intros [H1 H2]%Forall_cons. constructor; [|by apply IH].
  destruct Hu as (_&_&_&_&->&_). done.
Qed.

Lemma resolver_ages alive t dt l : forall st,
  Forall (fun u => 0 <= Unit.weapon_damage u) st.1 ->
  Forall2 ages st.1 (fold_left (unit_action alive t dt) l st).1.
Proof.
  induction l as [|i l IH]; intros st Hdmg; simpl; [apply Forall2_ages_refl|].
  pose proof (turn_ages _ _ _ _ _ _ Hdmg (unit_action_turn alive t dt st i)) as H1.
  eapply Forall2_ages_trans; [exact H1|]. apply IH. by eapply ages_damage.
Qed.

Lemma while_iter_ages s :
  Forall (fun u => 0 <= Unit.weapon_damage u) (units s) ->
  Forall2 ages (units s) (units (while_iter s)).
Proof.
  intros Hdmg. unfold while_iter. destruct (simulation_running s);
    [|apply Forall2_ages_refl].
  unfold loop_body. case_bool_decide; simpl; [apply Forall2_ages_refl|].
  by apply (resolver_ages _ _ _ _ (units s, damage_stats s)).
Qed.

Lemma elem_of_teams_alive us team :
  team ∈ teams_alive us <->
  exists i u, us !! i = Some u /\ Unit.health u > 0 /\ Unit.team_name u = team.
Proof.
  unfold teams_alive, teams_still_alive.
  rewrite elem_of_list_to_set, list_elem_of_omap. split.
  - intros (i & Hi & Hteam). apply elem_of_alive_units in Hi.
    unfold alive_at in Hi. destruct (us !! i) as [u|] eqn:E; [|done].
    exists i, u. simpl in Hteam. split; [done|]. split; [by apply is_alive_true|].
    congruence.
  - intros (i & u & Hi & Hh & <-). exists i. split.
    + apply elem_of_alive_units. unfold alive_at. rewrite Hi. by apply is_alive_true.
    + by rewrite Hi.
Qed.

Lemma ages_teams_alive us us' :
  Forall2 ages us us' -> teams_alive us' ⊆ teams_alive us.
Proof.
  intros Hages team (i & u' & Hi & Hh & Hteam)%elem_of_teams_alive.
  apply elem_of_teams_alive.
  destruct (Forall2_lookup_r _ _ _ _ _ Hages Hi) as (u & Hu & Hage).
  exists i, u. split; [done|]. destruct Hage as (_&Ht&_&_&_&_&Hhealth).
  split; [lra|congruence].
Qed.

Lemma run_ages n : forall s,
  Forall (fun u => 0 <= Unit.weapon_damage u) (units s) ->
  Forall2 ages (units s) (units (run n s)).
Proof.
  induction n as [|n IH]; intros s Hdmg; [apply Forall2_ages_refl|].
  simpl. eapply Forall2_ages_trans; [by apply while_iter_ages|].
  apply IH. eapply ages_damage; [by apply while_iter_ages|done].
Qed.

Lemma teams_never_grow s n :
  Forall (fun u => 0 <= Unit.weapon_damage u) (units s) ->
  (size (teams_alive (units (run (S n) s))) <= size (teams_alive (units (run n s))))%nat.
Proof.
  intros Hdmg. rewrite run_S. apply subseteq_size, ages_teams_alive, while_iter_ages.
  eapply ages_damage; [by apply run_ages|done].
Qed.

(** ** A measure of the work left *)

Section Potential.
Variables dmin sigma cmax : R.
Hypothesis dmin_pos : 0 < dmin.
Hypothesis sigma_pos : 0 < sigma.

Lemma div_nonneg a b : 0 <= a -> 0 < b -> 0 <= a / b.
Proof.
  intros Ha Hb. unfold Rdiv.
  apply Rmult_le_pos; [done|]. left. by apply Rinv_0_lt_compat.
Qed.

Lemma div_sub a d b : 0 < b -> b <= d -> (a - d) / b <= a / b - 1.
Proof.
  intros Hb Hd. unfold Rdiv.
  assert (0 < / b) as Hinv by (by apply Rinv_0_lt_compat).
  assert (b * / b = 1) as Hone by (apply Rinv_r; lra).
  assert (1 <= d * / b); [|lra].
  rewrite <- Hone. apply Rmult_le_compat_r; lra.
Qed.

Lemma health_pot_nonneg u : 0 <= health_pot dmin u.
Proof.
  unfold health_pot. case_decide; [|lra].
  assert (0 <= Unit.health u / dmin) by (apply div_nonneg; lra). lra.
Qed.

Lemma travel_pot_nonneg u : 0 <= travel_pot sigma u.
Proof.
  unfold travel_pot. case_decide; [lra|].
  assert (0 <= Unit.origin_distance u / sigma)
    by (apply div_nonneg; [apply hypot_nonneg|done]). lra.
Qed.

Lemma pot_nonneg u : 0 <= pot dmin sigma u.
Proof.
  unfold pot. pose proof (health_pot_nonneg u). pose proof (travel_pot_nonneg u). lra.
Qed.

Lemma potential_nonneg us : 0 <= potential dmin sigma us.
Proof.
  induction us as [|u us IH]; simpl; [lra|]. pose proof (pot_nonneg u). lra.
Qed.

Lemma potential_insert us : forall i u u',
  us !! i = Some u ->
  potential dmin sigma (<[i := u']> us)
  = potential dmin sigma us - pot dmin sigma u + pot dmin sigma u'.
Proof.
  induction us as [|e us IH]; intros i u u' Hi; [done|].
  destruct i as [|i]; simpl in *.
  - injection Hi as ->. lra.
  - rewrite (IH i u u' Hi). lra.
Qed.

(** A hit of at least [dmin] on a living unit costs it one unit of measure. *)
Lemma health_pot_hit o d :
  dmin <= d ->
  health_pot dmin (Unit.set_health o (Unit.health o - d)) <= health_pot dmin o /\
  (Unit.health o > 0 ->
   health_pot dmin (Unit.set_health o (Unit.health o - d)) <= health_pot dmin o - 1).
Proof.
  intros Hd. unfold health_pot. simpl.
  pose proof (div_sub (Unit.health o) d dmin dmin_pos Hd) as Hsub.
  destruct (decide (Unit.health o - d > 0)) as [H1|H1];
    destruct (decide (Unit.health o > 0)) as [H2|H2]; try lra.
  assert (0 <= Unit.health o / dmin) by (apply div_nonneg; lra). split; lra.
Qed.

(** A step of at least [sigma] by a unit outside the origin box costs it
    one unit of measure. *)
Lemma travel_pot_move u :
  sigma <= Unit.move_speed u * FIXED_DT ->
  travel_pot sigma (Unit.move_toward_origin u FIXED_DT) <= travel_pot sigma u /\
  (¬ Unit.at_origin u ->
   travel_pot sigma (Unit.move_toward_origin u FIXED_DT) <= travel_pot sigma u - 1).
Proof.
  intros Hstep. destruct (decide (Unit.at_origin u)) as [Hbox|Hbox].
  { rewrite move_at_origin by done. split; [lra|done]. }
  assert (travel_pot sigma (Unit.move_toward_origin u FIXED_DT)
          <= travel_pot sigma u - 1); [|split; [lra|done]].
  pose proof (move_distance u FIXED_DT Hbox) as Hdist.
  unfold travel_pot at 2. rewrite decide_False by done.
  unfold travel_pot. case_decide as Hbox'.
  - assert (0 <= Unit.origin_distance u / sigma)
      by (apply div_nonneg; [apply hypot_nonneg|done]). lra.
  - pose proof (far_hypot _ Hbox') as Hfar.
    fold (Unit.origin_distance (Unit.move_toward_origin u FIXED_DT)) in Hfar.
    rewrite Hdist in *.
    assert (Rmax 0 (Unit.origin_distance u - Unit.move_speed u * FIXED_DT)
            = Unit.origin_distance u - Unit.move_speed u * FIXED_DT) as ->.
    { apply Rmax_right. destruct (Rmax_case 0
        (Unit.origin_distance u - Unit.move_speed u * FIXED_DT)
        (fun r => 1e-6 <= r -> 0 <= Unit.origin_distance u - Unit.move_speed u * FIXED_DT));
        try lra. }
    pose proof (div_sub (Unit.origin_distance u) (Unit.move_speed u * FIXED_DT)
                  sigma sigma_pos Hstep). lra.
Qed.


Lemma health_pot_move u dt :
  health_pot dmin (Unit.move_toward_origin u dt) = health_pot dmin u.
Proof. unfold Unit.move_toward_origin. by repeat case_decide. Qed.

Lemma pot_move u :
  sigma <= Unit.move_speed u * FIXED_DT ->
  pot dmin sigma (Unit.move_toward_origin u FIXED_DT) <= pot dmin sigma u /\
  (¬ Unit.at_origin u ->
   pot dmin sigma (Unit.move_toward_origin u FIXED_DT) <= pot dmin sigma u - 1).
Proof.
  intros Hstep. unfold pot. rewrite health_pot_move.
  destruct (travel_pot_move u Hstep) as [H1 H2]. split; [lra|].
  intros Hbox. specialize (H2 Hbox). lra.
Qed.

Lemma pot_hit o d :
  dmin <= d ->
  pot dmin sigma (Unit.set_health o (Unit.health o - d)) <= pot dmin sigma o /\
  (Unit.health o > 0 ->
   pot dmin sigma (Unit.set_health o (Unit.health o - d)) <= pot dmin sigma o - 1).
Proof.
  intros Hd. unfold pot.
  change (travel_pot sigma (Unit.set_health o (Unit.health o - d)))
    with (travel_pot sigma o).
  destruct (health_pot_hit o d Hd) as [H1 H2]. split; [lra|].
  intros Hh. specialize (H2 Hh). lra.
Qed.

Lemma pot_set_last_attack_time u t :
  pot dmin sigma (Unit.set_last_attack_time u t) = pot dmin sigma u.
Proof. done. Qed.

Local Abbreviation ok := (unit_ok dmin sigma cmax).

Lemma ages_ok u u' : ages u u' -> ok u -> ok u'.
Proof.
  intros (_&_&Hs&Hr&Hd&Hc&_) (H1&H2&H3&H4). unfold unit_ok.
  rewrite Hs, Hr, Hd, Hc. done.
Qed.

Lemma Forall2_ages_ok us us' : Forall2 ages us us' -> Forall ok us -> Forall ok us'.
Proof.
  induction 1 as [|u u' us us' Hu _ IH]; [done|].
  intros [H1 H2]%Forall_cons. constructor; [by eapply ages_ok|by apply IH].
Qed.

Lemma ok_damage us : Forall ok us -> Forall (fun u => 0 <= Unit.weapon_damage u) us.
Proof. intros H. eapply Forall_impl; [exact H|]. intros u (Hd&_). simpl. lra. Qed.

Lemma fresh_alive_units us : fresh (alive_units us) us.
Proof.
  intros j o Hj Ho. apply elem_of_alive_units in Hj. unfold alive_at in Hj.
  rewrite Ho in Hj. by apply is_alive_true.
Qed.

(** A turn never adds to the measure; on a store in which nobody has been
    hit yet it either changes nothing or takes one unit off. *)
Lemma turn_potential alive t st i st' :
  Forall ok st.1 ->
  turn alive t FIXED_DT st i st' ->
  potential dmin sigma st'.1 <= potential dmin sigma st.1 /\
  (fresh alive st.1 ->
   st' = st \/ potential dmin sigma st'.1 <= potential dmin sigma st.1 - 1).
Proof.
  intros Hok [|u j o d Hi Hh Hn Hj Ho Hij Hd Hc|u Hi Hh]; simpl.
  - split; [lra|by left].
  - rewrite Forall_forall in Hok.
    assert (ok u) as (Hdu&_) by (apply Hok; by eapply list_elem_of_lookup_2).
    rewrite (potential_insert _ i u) by (by rewrite list_lookup_insert_ne).
    rewrite (potential_insert _ j o) by done.
    rewrite pot_set_last_attack_time.
    destruct (pot_hit o (Unit.weapon_damage u) Hdu) as [H1 H2].
    split; [lra|]. intros Hfresh. right.
    specialize (H2 (Hfresh j o Hj Ho)). lra.
  - rewrite Forall_forall in Hok.
    assert (ok u) as (_&Hsu&_) by (apply Hok; by eapply list_elem_of_lookup_2).
    rewrite (potential_insert _ i u) by done.
    destruct (pot_move u Hsu) as [H1 H2]. split; [lra|]. intros _.
    destruct (decide (Unit.at_origin u)) as [Hbox|Hbox].
    + left. rewrite move_at_origin by done. rewrite list_insert_id by done.
      by destruct st.
    + right. specialize (H2 Hbox). lra.
Qed.

Lemma unit_action_ok alive t st i :
  Forall ok st.1 -> Forall ok (unit_action alive t FIXED_DT st i).1.
Proof.
  intros Hok. eapply Forall2_ages_ok; [|done].
  eapply turn_ages; [by apply ok_damage|apply unit_action_turn].
Qed.

Lemma fold_potential_le alive t l : forall st,
  Forall ok st.1 ->
  potential dmin sigma (fold_left (unit_action alive t FIXED_DT) l st).1
  <= potential dmin sigma st.1.
Proof.
  induction l as [|i l IH]; intros st Hok; simpl; [lra|].
  pose proof (turn_potential alive t st i _ Hok (unit_action_turn _ _ _ _ _)) as [H _].
  specialize (IH _ (unit_action_ok alive t st i Hok)). lra.
Qed.

(** A whole round over the snapshot leaves the store as it was, every
    turn having been idle, or takes one unit off the measure. *)
Lemma fold_idle_or_progress alive t st0 l :
  Forall ok st0.1 -> fresh alive st0.1 ->
  (fold_left (unit_action alive t FIXED_DT) l st0 = st0 /\
   forall i, i ∈ l -> unit_action alive t FIXED_DT st0 i = st0) \/
  potential dmin sigma (fold_left (unit_action alive t FIXED_DT) l st0).1
  <= potential dmin sigma st0.1 - 1.
Proof.
  intros Hok Hfresh. induction l as [|i l IH]; simpl.
  - left. split; [done|]. intros i Hi. by apply elem_of_nil in Hi.
  - pose proof (turn_potential alive t st0 i _ Hok (unit_action_turn _ _ _ _ _))
      as [_ H].
    destruct (H Hfresh) as [Hsame|Hless].
    + rewrite Hsame. destruct IH as [[IH1 IH2]|IH]; [left|by right].
      split; [done|]. intros k [->|Hk]%elem_of_cons; [done|by apply IH2].
    + right.
      pose proof (fold_potential_le alive t l _ (unit_action_ok alive t st0 i Hok)).
      lra.
Qed.

(** A living unit with its nearest enemy in range and its cooldown over
    does change the state. *)
Lemma ready_unit_acts alive t dt st i u j d :
  st.1 !! i = Some u -> Unit.health u > 0 -> 0 < Unit.weapon_damage u ->
  find_nearest st.1 u alive = (Some j, Fin d) ->
  d <= Unit.weapon_range u ->
  t - Unit.last_attack_time u >= Unit.weapon_cooldown u ->
  unit_action alive t dt st i <> st.
Proof.
  intros Hi Hh Hdmg Hn Hd Hc.
  rewrite (unit_action_alive _ _ _ _ _ u) by (done || by apply is_alive_true).
  rewrite (scheduled_action_in_range _ _ _ _ _ _ j d) by done.
  rewrite bool_decide_eq_true_2 by done.
  unfold attack. rewrite Hi. intros Heq.
  assert (total_damage (add_damage (Unit.type_name u) (Unit.weapon_damage u) st.2)
          = total_damage st.2) as Htot.
  { rewrite <- Heq at 2. done. }
  rewrite total_damage_add in Htot. lra.
Qed.

(** A living unit outside the origin box with no enemy in range does
    change the state. *)
Lemma far_unit_acts alive t st i u j d :
  st.1 !! i = Some u -> Unit.health u > 0 ->
  0 < Unit.move_speed u * FIXED_DT ->
  ¬ Unit.at_origin u ->
  find_nearest st.1 u alive = (Some j, Fin d) ->
  Unit.weapon_range u < d ->
  unit_action alive t FIXED_DT st i <> st.
Proof.
  intros Hi Hh Hstep Hbox Hn Hd.
  rewrite (unit_action_alive _ _ _ _ _ u) by (done || by apply is_alive_true).
  rewrite (scheduled_action_out_of_range _ _ _ _ _ _ j d) by done.
  intros Heq.
  assert (alter (fun a => Unit.move_toward_origin a FIXED_DT) i st.1 !! i = Some u)
    as Hlook.
  { replace (alter (fun a => Unit.move_toward_origin a FIXED_DT) i st.1) with st.1;
      [done|]. by rewrite <- Heq at 1. }
  rewrite list_lookup_alter_eq, Hi in Hlook. simpl in Hlook. injection Hlook as Hu.
  pose proof (move_distance u FIXED_DT Hbox) as Hdist. rewrite Hu in Hdist.
  pose proof (far_hypot u Hbox) as Hfar. fold (Unit.origin_distance u) in Hfar.
  destruct (Rmax_case 0 (Unit.origin_distance u - Unit.move_speed u * FIXED_DT)
              (fun r => Unit.origin_distance u = r -> False)); try lra.
Qed.

End Potential.

(** ** Somebody can always act *)

Lemma other_team_alive us team :
  (1 < size (teams_alive us))%nat ->
  exists k o, k ∈ alive_units us /\ us !! k = Some o /\ Unit.team_name o <> team.
Proof.
  intros Hsize.
  destruct (set_choose_or_empty (teams_alive us ∖ {[ team ]})) as [[t Ht]|Hempty].
  - apply elem_of_difference in Ht as [Ht Hne].
    apply elem_of_teams_alive in Ht as (k & o & Hk & Hh & <-).
    exists k, o. split; [|split; [done|]].
    2:{ intros Heq. apply Hne. by apply elem_of_singleton. }
    apply elem_of_alive_units. unfold alive_at. rewrite Hk. by apply is_alive_true.
  - assert (teams_alive us ⊆ {[ team ]}) as Hsub.
    { intros t Ht. destruct (decide (t = team)) as [->|Hne];
        [by apply elem_of_singleton|].
      exfalso. apply (not_elem_of_empty (C := gset string) t). rewrite <- Hempty.
      apply elem_of_difference. split; [done|]. by rewrite elem_of_singleton. }
    apply subseteq_size in Hsub. rewrite size_singleton in Hsub. lia.
Qed.

Lemma nearest_exists us u :
  (1 < size (teams_alive us))%nat ->
  exists j d o,
    find_nearest us u (alive_units us) = (Some j, Fin d) /\
    j ∈ alive_units us /\ us !! j = Some o /\ d = Unit.distance_to u o.
Proof.
  intros Hsize.
  destruct (other_team_alive us (Unit.team_name u) Hsize) as (k & e & Hk & He & Hne).
  pose proof (find_nearest_inv us u (alive_units us)) as Hinv.
  destruct (find_nearest us u (alive_units us)) as [[j|] [|d]]; simpl in Hinv; try done.
  - destruct Hinv as (pre & post & o & Heq & [Hj _] & Hd & _).
    exists j, d, o. repeat split; try done. rewrite Heq. set_solver.
  - by destruct (Hinv k e Hk).
Qed.

Lemma someone_must_act dmin sigma cmax us :
  Forall (unit_ok dmin sigma cmax) us ->
  (1 < size (teams_alive us))%nat ->
  exists i u j d,
    i ∈ alive_units us /\ us !! i = Some u /\ Unit.health u > 0 /\
    find_nearest us u (alive_units us) = (Some j, Fin d) /\
    (d <= Unit.weapon_range u \/ (Unit.weapon_range u < d /\ ¬ Unit.at_origin u)).
Proof.
  intros Hok Hsize. rewrite Forall_forall in Hok.
  destruct (other_team_alive us "" Hsize) as (i & u & Hi & Hu & _).
  pose proof (fresh_alive_units us i u Hi Hu) as Hh.
  destruct (nearest_exists us u Hsize) as (j & d & o & Hn & Hj & Ho & Hd).
  destruct (Rle_dec d (Unit.weapon_range u)) as [Hin|Hout].
  { exists i, u, j, d. repeat split; try done. by left. }
  destruct (decide (Unit.at_origin u)) as [Hbox|Hbox]; cycle 1.
  { exists i, u, j, d. repeat split; try done. right. split; [lra|done]. }
  (* [u] rests in the box: its nearest enemy lies outside of it *)
  assert (¬ Unit.at_origin o) as Hbox'.
  { intros Hbox'. pose proof (box_distance u o Hbox Hbox').
    assert (unit_ok dmin sigma cmax u) as (_&_&_&Hr)
      by (apply Hok; by eapply list_elem_of_lookup_2). lra. }
  pose proof (fresh_alive_units us j o Hj Ho) as Hh'.
  destruct (nearest_exists us o Hsize) as (j' & d' & o' & Hn' & _ & _ & _).
  exists j, o, j', d'. repeat split; try done.
  destruct (Rle_dec d' (Unit.weapon_range o)); [by left|right]. split; [lra|done].
Qed.

(** ** Progress of the loop *)

Lemma turn_last alive t dt st i st' :
  Forall (fun u => Unit.last_attack_time u <= t) st.1 ->
  turn alive t dt st i st' ->
  Forall (fun u => Unit.last_attack_time u <= t) st'.1.
Proof.
  intros Hlast [|u j o d Hi Hh Hn Hj Ho Hij Hd Hc|u Hi Hh]; simpl; [done| |].
  - apply Forall_insert; [|simpl; lra].
    apply Forall_insert; [done|]. simpl.
    rewrite Forall_forall in Hlast. apply Hlast. by eapply list_elem_of_lookup_2.
  - apply Forall_insert; [done|].
    rewrite Forall_forall in Hlast.
    assert (Unit.last_attack_time u <= t) by (apply Hlast; by eapply list_elem_of_lookup_2).
    unfold Unit.move_toward_origin. by repeat case_decide.
Qed.

Lemma fold_last alive t dt l : forall st,
  Forall (fun u => Unit.last_attack_time u <= t) st.1 ->
  Forall (fun u => Unit.last_attack_time u <= t)
    (fold_left (unit_action alive t dt) l st).1.
Proof.
  induction l as [|i l IH]; intros st Hlast; simpl; [done|].
  apply IH. eapply turn_last; [done|apply unit_action_turn].
Qed.

Section Progress.
Variables dmin sigma cmax : R.
Hypothesis dmin_pos : 0 < dmin.
Hypothesis sigma_pos : 0 < sigma.

Local Abbreviation inv := (sim_inv dmin sigma cmax).
Local Abbreviation measure := (potential dmin sigma).

Lemma fold_ok alive t l : forall st,
  Forall (unit_ok dmin sigma cmax) st.1 ->
  Forall (unit_ok dmin sigma cmax) (fold_left (unit_action alive t FIXED_DT) l st).1.
Proof.
  induction l as [|i l IH]; intros st Hok; simpl; [done|].
  apply IH. by apply unit_action_ok.
Qed.

(** One tick stops the loop, takes a unit off the measure, or leaves the
    units as they are while some unit in range waits for its cooldown. *)
Lemma tick_cases s :
  inv s -> simulation_running s = true ->
  simulation_running (while_iter s) = false \/
  (inv (while_iter s) /\ simulation_running (while_iter s) = true /\
   measure (units (while_iter s)) <= measure (units s) - 1) \/
  (units (while_iter s) = units s /\
   frame_counter (while_iter s) = S (frame_counter s) /\
   simulation_running (while_iter s) = true /\
   exists u, u ∈ units s /\
     now s - Unit.last_attack_time u < Unit.weapon_cooldown u).
Proof.
  intros [Hok Hlast] Hrun. unfold while_iter. rewrite Hrun.
  destruct (decide (size (teams_alive (units s)) <= 1)%nat) as [Hsize|Hsize].
  { left. by rewrite loop_body_terminal by exact Hsize. }
  right. rewrite loop_body_running by (unfold teams_alive in Hsize; lia).
  cbv zeta. simpl.
  set (alive := alive_units (units s)).
  set (st0 := (units s, damage_stats s)).
  fold (now s).
  destruct (fold_idle_or_progress dmin sigma cmax dmin_pos sigma_pos
              alive (now s) st0 alive Hok (fresh_alive_units (units s)))
    as [[Hsame Hidle]|Hless].
  - right. unfold resolver. rewrite Hsame. simpl. repeat split; try done.
    destruct (someone_must_act dmin sigma cmax (units s) Hok)
      as (i & u & j & d & Hi & Hu & Hh & Hn & Hcase); [lia|].
    rewrite Forall_forall in Hok.
    assert (unit_ok dmin sigma cmax u) as (Hdu & Hsu & _)
      by (apply Hok; by eapply list_elem_of_lookup_2).
    specialize (Hidle i Hi).
    destruct Hcase as [Hin|[Hout Hbox]].
    + exists u. split; [by eapply list_elem_of_lookup_2|].
      destruct (Rlt_dec (now s - Unit.last_attack_time u) (Unit.weapon_cooldown u))
        as [Hwait|Hready]; [done|].
      exfalso. revert Hidle.
      apply (ready_unit_acts alive (now s) FIXED_DT st0 i u j d); try done; lra.
    + exfalso. revert Hidle.
      apply (far_unit_acts alive (now s) st0 i u j d); try done; lra.
  - left. unfold resolver. repeat split.
    + by apply (fold_ok alive (now s) alive st0).
    + simpl. eapply Forall_impl; [apply (fold_last alive (now s) FIXED_DT alive st0 Hlast)|].
      intros u Hu. simpl in Hu. rewrite (now_S s) by done.
      pose proof FIXED_DT_pos. lra.
    + done.
    + done.
Qed.

(** While the units stand still the cooldowns run down: after at most
    [k] further idle ticks somebody acts. *)
Lemma countdown k : forall s,
  inv s -> simulation_running s = true ->
  Forall (fun u => Unit.weapon_cooldown u - (now s - Unit.last_attack_time u)
                   <= INR k * FIXED_DT) (units s) ->
  exists m,
    simulation_running (run m s) = false \/
    (inv (run m s) /\ measure (units (run m s)) <= measure (units s) - 1).
Proof.
  induction k as [|k IH]; intros s Hinv Hrun Hcount;
    destruct (tick_cases s Hinv Hrun)
      as [Hstop|[(Hinv' & Hrun' & Hless)|(Hunits & Hframe & Hrun' & u & Hu & Hwait)]];
    try (exists 1%nat; simpl; by eauto).
  - exfalso. rewrite Forall_forall in Hcount. specialize (Hcount u Hu).
    simpl in Hcount. lra.
  - destruct (IH (while_iter s)) as [m Hm]; [|done| |].
    + destruct Hinv as [Hok Hlast]. split; rewrite Hunits; [done|].
      eapply Forall_impl; [exact Hlast|]. intros e He. simpl in *.
      rewrite (now_S s) by done. pose proof FIXED_DT_pos. lra.
    + rewrite Hunits. eapply Forall_impl; [exact Hcount|]. intros e He.
      cbv beta in *. rewrite (now_S s) by done. rewrite S_INR in He. lra.
    + exists (S m). simpl. by rewrite Hunits in Hm.
Qed.

Lemma nat_above (r : R) : exists n, r <= INR n.
Proof.
  destruct (archimed r) as [Hup _]. exists (Z.to_nat (up r)).
  destruct (Z_le_gt_dec 0 (up r)) as [Hpos|Hneg].
  - rewrite INR_IZR_INZ, Z2Nat.id by done. lra.
  - assert (IZR (up r) <= 0) by (apply IZR_le; lia).
    pose proof (pos_INR (Z.to_nat (up r))). lra.
Qed.

Lemma terminates_from B : forall s,
  inv s -> measure (units s) <= INR B ->
  exists n, simulation_running (run n s) = false.
Proof.
  induction B as [|B IH]; intros s Hinv Hbound;
    (destruct (simulation_running s) eqn:Hrun; [|by exists 0%nat]);
    destruct (nat_above (cmax / FIXED_DT)) as [K HK];
    (destruct (countdown K s Hinv Hrun) as [m [Hstop|[Hinv' Hless]]];
     [|by exists m|]).
  1,3: destruct Hinv as [Hok Hlast]; rewrite Forall_forall in Hok, Hlast;
    apply Forall_forall; intros u Hu;
    destruct (Hok u Hu) as (_&_&Hc&_); specialize (Hlast u Hu); simpl in Hlast;
    pose proof FIXED_DT_pos as Hdt;
    assert (cmax <= INR K * FIXED_DT);
    [ apply (Rmult_le_compat_r FIXED_DT) in HK; [|lra];
      unfold Rdiv in HK; rewrite Rmult_assoc, Rinv_l in HK; lra
    | lra ].
  - pose proof (potential_nonneg dmin sigma dmin_pos sigma_pos (units (run m s))).
    simpl in Hbound. lra.
  - destruct (IH (run m s) Hinv') as [n Hn].
    + rewrite S_INR in Hbound. lra.
    + exists (m + n)%nat. by rewrite run_add.
Qed.

End Progress.

(** Common bounds for finitely many units with positive stats. *)
Lemma bounds_exist us :
  Forall (fun u => 0 < Unit.weapon_damage u /\ 0 < Unit.move_speed u /\
                   3e-6 <= Unit.weapon_range u) us ->
  exists dmin sigma cmax,
    0 < dmin /\ 0 < sigma /\ Forall (unit_ok dmin sigma cmax) us.
Proof.
  induction 1 as [|u us (Hd & Hs & Hr) _ (dmin & sigma & cmax & Hdmin & Hsigma & IH)].
  - exists 1, 1, 0. repeat split; try lra. constructor.
  - pose proof FIXED_DT_pos as Hdt.
    assert (0 < Unit.move_speed u * FIXED_DT) by (by apply Rmult_lt_0_compat).
    exists (Rmin dmin (Unit.weapon_damage u)),
           (Rmin sigma (Unit.move_speed u * FIXED_DT)),
           (Rmax cmax (Unit.weapon_cooldown u)).
    split; [by apply Rmin_glb_lt|]. split; [by apply Rmin_glb_lt|].
    constructor.
    + repeat split; [apply Rmin_r|apply Rmin_r|apply Rmax_r|done].
    + eapply Forall_impl; [exact IH|]. intros e (H1 & H2 & H3 & H4).
      repeat split; [| | |done].
      * etransitivity; [apply Rmin_l|done].
      * etransitivity; [apply Rmin_l|done].
      * etransitivity; [done|apply Rmax_l].
Qed.

(** The loop stops when all units are as built, hit and move by positive
    amounts, and reach across the origin box. *)
Lemma loop_terminates uts us :
  Forall (built_from uts) us ->
  Forall (fun u => 0 < Unit.weapon_damage u /\ 0 < Unit.move_speed u /\
                   3e-6 <= Unit.weapon_range u) us ->
  exists n, simulation_running (run n (initial_state us)) = false.
Proof.
  intros Hbuilt Hpos.
  destruct (bounds_exist us Hpos) as (dmin & sigma & cmax & Hdmin & Hsigma & Hok).
  destruct (nat_above (potential dmin sigma us)) as [B HB].
  apply (terminates_from dmin sigma cmax Hdmin Hsigma B (initial_state us));
    [|done].
  split; [done|]. simpl. eapply Forall_impl; [exact Hbuilt|].
  intros u (ut & _ & _ & _ & _ & _ & _ & ->). unfold now. simpl. lra.
Qed.

(** ** What the loader accepts and what it reports *)

Lemma parse_unit_type_type_of name stats :
  parse_unit_type name stats =
    match type_of_stats stats with
    | Some ut => Ok ut
    | None => Exit 1 (missing_type_field (default ""%string (first_missing stats)) name)
    end.
Proof. by destruct stats as [[h|] [ms|] [wr|] [wd|] [wc|]]. Qed.

Lemma type_of_stats_complete stats :
  is_Some (type_of_stats stats) <-> complete_stats stats.
Proof.
  unfold complete_stats. split.
  - intros [ut Hut].
    destruct stats as [[h|] [ms|] [wr|] [wd|] [wc|]]; simpl in *;
      first [done | repeat split; by eexists].
  - intros ([h Hh] & [ms Hms] & [wr Hwr] & [wd Hwd] & [wc Hwc]).
    destruct stats; simpl in *; subst. by eexists.
Qed.

Lemma type_of_stats_first_missing stats :
  type_of_stats stats = None <-> is_Some (first_missing stats).
Proof.
  destruct stats as [[h|] [ms|] [wr|] [wd|] [wc|]]; simpl; split;
    first [done | by eexists | by intros [? ?]].
Qed.

Lemma parse_unit_types_ok items : forall uts,
  (exists uts', parse_unit_types items uts = Ok uts') <->
  Forall (fun item => complete_stats item.2) items.
Proof.
  induction items as [|[k st] items IH]; intros uts; simpl.
  - split; [done|]. intros _. by eexists.
  - rewrite parse_unit_type_type_of.
    destruct (type_of_stats st) as [ut|] eqn:Hty; simpl.
    + rewrite IH, Forall_cons. simpl.
      assert (complete_stats st) by (apply type_of_stats_complete; by eexists).
      tauto.
    + split; [by intros [? ?]|]. intros [Hc _]%Forall_cons. simpl in Hc.
      apply type_of_stats_complete in Hc as [? Hc]. congruence.
Qed.

Lemma parse_unit_types_lookup items : forall uts uts',
  parse_unit_types items uts = Ok uts' ->
  (forall name, name ∉ items.*1 -> uts' !! name = uts !! name) /\
  (NoDup items.*1 ->
   forall name stats, (name, stats) ∈ items -> uts' !! name = type_of_stats stats).
Proof.
  induction items as [|[k st] items IH]; intros uts uts'; simpl.
  - intros [= <-]. split; [done|]. intros _ name stats Hin. by apply elem_of_nil in Hin.
  - rewrite parse_unit_type_type_of.
    destruct (type_of_stats st) as [ut|] eqn:Hty; simpl; [|done].
    intros Hp. destruct (IH _ _ Hp) as [Hout Hin]. split.
    + intros name [Hne Hrest]%not_elem_of_cons.
      rewrite Hout by done. by rewrite lookup_insert_ne.
    + intros [Hk Hnd]%NoDup_cons name stats [[= -> ->]|Hmem]%elem_of_cons.
      * rewrite Hout by done. by rewrite lookup_insert_eq.
      * by apply Hin.
Qed.

Lemma parse_unit_types_first_incomplete pre name stats rest key : forall uts,
  Forall (fun item => complete_stats item.2) pre ->
  first_missing stats = Some key ->
  parse_unit_types (pre ++ (name, stats) :: rest) uts
  = Exit 1 (missing_type_field key name).
Proof.
  induction pre as [|[k st] pre IH]; intros uts Hpre Hkey; simpl.
  - rewrite parse_unit_type_type_of.
    assert (type_of_stats stats = None) as ->
      by (apply type_of_stats_first_missing; by eexists).
    by rewrite Hkey.
  - apply Forall_cons in Hpre as [Hc Hpre]. simpl in Hc.
    rewrite parse_unit_type_type_of.
    apply type_of_stats_complete in Hc as [ut ->]. simpl. by apply IH.
Qed.

Lemma parse_member_unit_of uts team m u :
  parse_member uts team m = Ok u <-> unit_of_member uts team m = Some u.
Proof.
  unfold parse_member, unit_of_member, Unit.init.
  destruct m as [[n|] [x|] [y|]]; simpl; try done.
  destruct (uts !! n); simpl; [|done]. split; by intros [= <-].
Qed.

Lemma parse_member_accepts uts team m :
  (exists u, parse_member uts team m = Ok u) <->
  exists name, Config.name m = Some name /\ is_Some (Config.x m) /\
               is_Some (Config.y m) /\ is_Some (uts !! name).
Proof.
  unfold parse_member, Unit.init. split.
  - intros [u Hu]. destruct m as [[n|] [x|] [y|]]; simpl in *; try done.
    destruct (uts !! n) as [ut|] eqn:E; [|done].
    exists n. rewrite E. split; [done|]. split; [by eexists|]. split; by eexists.
  - intros (name & Hn & [x Hx] & [y Hy] & [ut Hut]).
    rewrite Hn, Hx, Hy. simpl. rewrite Hut. simpl. by eexists.
Qed.

Lemma parse_members_spec uts team members : forall us,
  (exists us', parse_members uts team members us = Ok us') <->
  Forall (fun m => exists u, parse_member uts team m = Ok u) members.
Proof.
  induction members as [|m members IH]; intros us; simpl.
  - split; [done|]. intros _. by eexists.
  - destruct (parse_member uts team m) as [u|c msg] eqn:E; simpl.
    + rewrite IH, Forall_cons. split; [|tauto]. intros H. split; [|done].
      rewrite E. by eexists.
    + split; [by intros [? ?]|]. intros [[u' Hu'] _]%Forall_cons. congruence.
Qed.

Lemma parse_members_units uts team members : forall us us',
  parse_members uts team members us = Ok us' ->
  exists new, us' = us ++ new /\
    Forall2 (fun m u => unit_of_member uts team m = Some u) members new.
Proof.
  induction members as [|m members IH]; intros us us'; simpl.
  - intros [= <-]. exists []. by rewrite app_nil_r.
  - intros (u & Hu & Hrest)%bind_Ok.
    destruct (IH _ _ Hrest) as (new & -> & Hnew).
    exists (u :: new). rewrite <- app_assoc. split; [done|].
    constructor; [by apply parse_member_unit_of|done].
Qed.

Lemma parse_teams_spec uts items : forall us,
  (exists us', parse_teams uts items us = Ok us') <->
  Forall (fun item => Forall (fun m => exists u, parse_member uts item.1 m = Ok u)
                        item.2) items.
Proof.
  induction items as [|[team members] items IH]; intros us; simpl.
  - split; [done|]. intros _. by eexists.
  - rewrite Forall_cons. simpl. rewrite <- (parse_members_spec uts team members us).
    destruct (parse_members uts team members us) as [us1|c msg]; simpl.
    + rewrite IH. split; [|tauto]. intros H. split; [by eexists|done].
    + split; [by intros [? ?]|]. by intros [[? ?] _].
Qed.

Lemma parse_teams_units uts items : forall us us',
  parse_teams uts items us = Ok us' ->
  exists new, us' = us ++ new /\
    Forall2 (fun tm u => unit_of_member uts tm.1 tm.2 = Some u)
      (members_of items) new.
Proof.
  induction items as [|[team members] items IH]; intros us us'; simpl.
  - intros [= <-]. exists []. by rewrite app_nil_r.
  - intros (us1 & Hus1 & Hrest)%bind_Ok.
    destruct (parse_members_units _ _ _ _ _ Hus1) as (new1 & -> & Hnew1).
    destruct (IH _ _ Hrest) as (new2 & -> & Hnew2).
    exists (new1 ++ new2). rewrite <- app_assoc. split; [done|].
    unfold members_of. simpl. apply Forall2_app; [|done].
    by apply Forall2_fmap_l.
Qed.

Lemma parse_unit_types_keys items : forall uts uts',
  parse_unit_types items uts = Ok uts' ->
  forall name, is_Some (uts' !! name) <-> name ∈ items.*1 \/ is_Some (uts !! name).
Proof.
  induction items as [|[k st] items IH]; intros uts uts'; simpl.
  - intros [= <-] name. rewrite elem_of_nil. tauto.
  - intros (ut & Hut & Hrest)%bind_Ok name.
    rewrite (IH _ _ Hrest), elem_of_cons, lookup_insert_is_Some. simpl.
    destruct (decide (k = name)); intuition congruence.
Qed.

(** X1: the loader accepts a document exactly when the units object is not
    empty and each of its entries has the five stats, the teams object is
    not empty, and every member has a name, an x and a y, the name being a
    key of the units object. *)
Theorem load_accepts_iff (data : Config.t) :
  (exists loaded, load data = Ok loaded) <-> well_formed data.
Proof.
  unfold load, well_formed. cbv zeta.
  destruct (default [] (Config.units data)) as [|it its] eqn:Eu.
  { split; [by intros [? ?]|]. intros [H _]. by destruct H. }
  rewrite <- Eu. set (units_raw := default [] (Config.units data)) in *.
  destruct (parse_unit_types units_raw ∅) as [uts|c msg] eqn:Hp; simpl.
  - assert (Forall (fun item => complete_stats item.2) units_raw) as Hall
      by (apply (parse_unit_types_ok units_raw ∅); by eexists).
    pose proof (parse_unit_types_keys _ _ _ Hp) as Hkeys.
    destruct (default [] (Config.teams data)) as [|tm tms] eqn:Et.
    { split; [by intros [? ?]|]. intros (_ & _ & H & _). by destruct H. }
    rewrite <- Et. set (teams_raw := default [] (Config.teams data)) in *.
    assert ((exists us, parse_teams uts teams_raw [] = Ok us) <->
            Forall (fun item => Forall (accepted_member units_raw.*1) item.2)
              teams_raw) as Hteams.
    { rewrite parse_teams_spec. apply Forall_iff. intros [team members]. simpl.
      apply Forall_iff. intros m. rewrite parse_member_accepts.
      unfold accepted_member. f_equiv. intros name. rewrite Hkeys.
      rewrite lookup_empty. split.
      - intros (?&?&?&[?|[? ?]]); done.
      - intros (?&?&?&?). repeat split; try done. by left. }
    rewrite <- Hteams. split.
    + intros [[uts' us] H].
      split; [by rewrite Eu|]. split; [done|]. split; [by rewrite Et|].
      destruct (parse_teams uts teams_raw []) as [us'|]; [by eexists|done].
    + intros (_ & _ & _ & [us Hus]). rewrite Hus. by eexists.
  - split; [by intros [? ?]|]. intros (_ & Hall & _).
    apply (parse_unit_types_ok units_raw ∅) in Hall as [uts Huts]. congruence.
Qed.

Lemma load_builds_members data uts us :
  load data = Ok (uts, us) ->
  Forall2 (fun tm u => unit_of_member uts tm.1 tm.2 = Some u)
    (members_of (default [] (Config.teams data))) us /\
  length us = length (members_of (default [] (Config.teams data))).
Proof.
  intros Hload. unfold load in Hload.
  destruct (default [] (Config.units data)) as [|it its]; [done|].
  apply bind_Ok in Hload as (uts' & Huts & Hload).
  destruct (default [] (Config.teams data)) as [|tm tms]; [done|].
  apply bind_Ok in Hload as (us' & Hus & [= <- <-]).
  destruct (parse_teams_units _ _ _ _ Hus) as (new & -> & Hnew). simpl.
  split; [done|]. symmetry. by eapply Forall2_length.
Qed.

(** X2: the units of an accepted document are the members of the teams in
    document order, team after team, each built by [Unit.__init__] from
    its member record; there are as many units as members. *)
Theorem load_units_in_document_order data uts us :
  load data = Ok (uts, us) ->
  Forall2 (fun tm u => unit_of_member uts tm.1 tm.2 = Some u)
    (members_of (default [] (Config.teams data))) us /\
  length us = length (members_of (default [] (Config.teams data))).
Proof. apply load_builds_members. Qed.

(** X3: in an accepted document whose units object has no repeated key,
    the registry maps each key to the five stats of its entry and holds
    nothing else. *)
Theorem load_registry data uts us :
  load data = Ok (uts, us) ->
  NoDup (default [] (Config.units data)).*1 ->
  (forall name stats, (name, stats) ∈ default [] (Config.units data) ->
     uts !! name = type_of_stats stats /\ is_Some (uts !! name)) /\
  (forall name, is_Some (uts !! name) ->
     name ∈ (default [] (Config.units data)).*1).
Proof.
  intros Hload Hnodup. unfold load in Hload.
  destruct (default [] (Config.units data)) as [|it its] eqn:Eu; [done|].
  rewrite <- Eu in *.
  apply bind_Ok in Hload as (uts' & Huts & Hload).
  destruct (default [] (Config.teams data)) as [|tm tms]; [done|].
  apply bind_Ok in Hload as (us' & Hus & [= <- <-]).
  destruct (parse_unit_types_lookup _ _ _ Huts) as [_ Hin].
  pose proof (parse_unit_types_keys _ _ _ Huts) as Hkeys. split.
  - intros name stats Hmem. split; [by apply Hin|].
    apply Hkeys. left. apply list_elem_of_fmap. by exists (name, stats).
  - intros name Hsome. apply Hkeys in Hsome as [?|Hsome]; [done|].
    rewrite lookup_empty in Hsome. by destruct Hsome.
Qed.

(** X4: when the units object is not empty, the first entry in document
    order that lacks a field stops the loader with status 1 and a message
    naming the first missing field, in the order health, moveSpeed,
    weaponRange, weaponDamage, weaponCooldown, and the type; the teams are
    not looked at. *)
Theorem load_first_incomplete_type data pre name stats rest key :
  default [] (Config.units data) = pre ++ (name, stats) :: rest ->
  Forall (fun item => complete_stats item.2) pre ->
  first_missing stats = Some key ->
  load data = Exit 1 (missing_type_field key name) /\
  forall fuel, main data fuel = Exited 1 (missing_type_field key name).
Proof.
  intros Hunits Hpre Hkey.
  assert (load data = Exit 1 (missing_type_field key name)) as Hload.
  { unfold load. rewrite Hunits.
    destruct (pre ++ (name, stats) :: rest) as [|it its] eqn:E; [by destruct pre|].
    rewrite <- E. by rewrite (parse_unit_types_first_incomplete pre name stats rest key). }
  split; [done|]. intros fuel. unfold main. by rewrite Hload.
Qed.

Lemma parse_unit_types_registry items :
  Forall (fun item => complete_stats item.2) items ->
  exists uts, parse_unit_types items ∅ = Ok uts /\
    forall name, is_Some (uts !! name) <-> name ∈ items.*1.
Proof.
  intros Hall. apply (parse_unit_types_ok items ∅) in Hall as [uts Huts].
  exists uts. split; [done|]. intros name.
  rewrite (parse_unit_types_keys _ _ _ Huts), lookup_empty.
  split; [|by left]. intros [?|[? ?]]; done.
Qed.

Lemma parse_teams_accepted uts names items :
  (forall name, is_Some (uts !! name) <-> name ∈ names) ->
  Forall (fun item => Forall (accepted_member names) item.2) items ->
  forall us, exists us', parse_teams uts items us = Ok us'.
Proof.
  intros Hkeys Hall us. apply parse_teams_spec.
  eapply Forall_impl; [exact Hall|]. intros [team members] Hm. simpl in *.
  eapply Forall_impl; [exact Hm|]. intros m (name & Hn & Hx & Hy & Hin).
  apply parse_member_accepts. exists name. by rewrite Hkeys.
Qed.

Lemma parse_members_accepted uts names team members :
  (forall name, is_Some (uts !! name) <-> name ∈ names) ->
  Forall (accepted_member names) members ->
  forall us, exists us', parse_members uts team members us = Ok us'.
Proof.
  intros Hkeys Hall us. apply parse_members_spec.
  eapply Forall_impl; [exact Hall|]. intros m (name & Hn & Hx & Hy & Hin).
  apply parse_member_accepts. exists name. by rewrite Hkeys.
Qed.

Lemma parse_member_first_missing uts team m key :
  first_missing_member m = Some key ->
  parse_member uts team m = Exit 1 (missing_member_field key team).
Proof.
  unfold parse_member, first_missing_member.
  destruct m as [[n|] [x|] [y|]]; simpl; by intros [= <-].
Qed.

(** X5: when the unit types are complete, the first member in document
    order that lacks a field stops the loader with status 1 and a message
    naming the first missing field, in the order name, x, y, and the team;
    whether the member's type is registered is not looked at. *)
Theorem load_first_incomplete_member data pre_teams team pre_members m
    rest_members rest_teams key :
  let units_raw := default [] (Config.units data) in
  units_raw <> [] ->
  Forall (fun item => complete_stats item.2) units_raw ->
  default [] (Config.teams data) =
    pre_teams ++ (team, pre_members ++ m :: rest_members) :: rest_teams ->
  Forall (fun item => Forall (accepted_member units_raw.*1) item.2) pre_teams ->
  Forall (accepted_member units_raw.*1) pre_members ->
  first_missing_member m = Some key ->
  load data = Exit 1 (missing_member_field key team) /\
  forall fuel, main data fuel = Exited 1 (missing_member_field key team).
Proof.
  intros units_raw Hne Hall Hteams Hpt Hpm Hkey.
  assert (load data = Exit 1 (missing_member_field key team)) as Hload.
  { destruct (parse_unit_types_registry _ Hall) as (uts & Huts & Hkeys).
    destruct (parse_teams_accepted uts _ _ Hkeys Hpt []) as [us1 Hus1].
    destruct (parse_members_accepted uts _ team _ Hkeys Hpm us1) as [us2 Hus2].
    unfold load. fold units_raw.
    destruct units_raw as [|it its] eqn:Eu; [done|].
    rewrite Huts. simpl. rewrite Hteams.
    destruct (pre_teams ++ (team, pre_members ++ m :: rest_members) :: rest_teams)
      as [|tm tms] eqn:Et; [by destruct pre_teams|].
    rewrite <- Et, parse_teams_app, Hus1. simpl.
    rewrite parse_members_app, Hus2. simpl.
    by rewrite (parse_member_first_missing uts team m key). }
  split; [done|]. intros fuel. unfold main. by rewrite Hload.
Qed.

(** X6: a document whose units object is absent or empty is rejected with
    the units message whatever its teams are; one whose unit types are all
    complete and whose teams object is absent or empty is rejected with
    the teams message.  Both exits have status 1. *)
Theorem load_missing_top_level (data : Config.t) :
  (default [] (Config.units data) = [] ->
   forall fuel,
     main data fuel = Exited 1 "ERROR: 'units' key is missing or empty."%string) /\
  (default [] (Config.units data) <> [] ->
   Forall (fun item => complete_stats item.2) (default [] (Config.units data)) ->
   default [] (Config.teams data) = [] ->
   forall fuel,
     main data fuel = Exited 1 "ERROR: 'teams' key is missing or empty."%string).
Proof.
  split.
  - intros Hu fuel. unfold main, load. by rewrite Hu.
  - intros Hne Hall Ht fuel.
    destruct (parse_unit_types_registry _ Hall) as (uts & Huts & _).
    unfold main, load.
    destruct (default [] (Config.units data)) as [|it its] eqn:Eu; [done|].
    rewrite Huts. simpl. by rewrite Ht.
Qed.

(** ** Distances and steps *)

Lemma hypot_sym a b : hypot (- a) (- b) = hypot a b.
Proof. unfold hypot. f_equal. ring. Qed.

Lemma hypot_eq_0 a b : hypot a b = 0 <-> a = 0 /\ b = 0.
Proof.
  split.
  - intros H. pose proof (hypot_ge_abs_l a b) as Ha.
    pose proof (hypot_ge_abs_r a b) as Hb. rewrite H in Ha, Hb.
    split.
    + destruct (Req_dec a 0) as [|Hne]; [done|].
      pose proof (Rabs_pos_lt a Hne). lra.
    + destruct (Req_dec b 0) as [|Hne]; [done|].
      pose proof (Rabs_pos_lt b Hne). lra.
  - intros [-> ->]. apply hypot_0.
Qed.

(** X7: [distance_to] is symmetric and never negative, and it is 0 exactly
    between units at the same position. *)
Theorem distance_to_symmetric (u o : Unit.t) :
  Unit.distance_to u o = Unit.distance_to o u /\
  0 <= Unit.distance_to u o /\
  (Unit.distance_to u o = 0 <-> Unit.x u = Unit.x o /\ Unit.y u = Unit.y o).
Proof.
  unfold Unit.distance_to. cbv zeta. split; [|split].
  - rewrite <- (hypot_sym (Unit.x o - Unit.x u)). f_equal; ring.
  - apply hypot_nonneg.
  - rewrite hypot_eq_0. split; intros [Hx Hy]; split; lra.
Qed.

Lemma move_scaling (u : Unit.t) (dt : R) :
  0 <= Unit.move_speed u * dt ->
  exists c, 0 <= c <= 1 /\
    Unit.move_toward_origin u dt = Unit.set_pos u (c * Unit.x u) (c * Unit.y u).
Proof.
  intros Hstep. unfold Unit.move_toward_origin.
  assert (u = Unit.set_pos u (1 * Unit.x u) (1 * Unit.y u)) as Hsame.
  { destruct u. unfold Unit.set_pos. simpl. f_equal; lra. }
  case_decide as Hbox; [exists 1; split; [lra|done]|].
  cbv zeta. case_decide as Hd; [exists 1; split; [lra|done]|].
  case_decide as Hs.
  - exists 0. split; [lra|]. f_equal; lra.
  - set (dist := hypot (Unit.x u) (Unit.y u)) in *.
    exists (1 - Unit.move_speed u * dt / dist). split.
    + assert (0 < / dist) by (apply Rinv_0_lt_compat; lra).
      assert (dist * / dist = 1) by (apply Rinv_r; lra).
      unfold Rdiv. split; nra.
    + f_equal; ring.
Qed.

(** X8: a step with [move_speed * dt >= 0] scales the position by a factor
    between 0 and 1: the unit stays on its ray from the origin, neither
    coordinate grows in absolute value or changes sign, and no other field
    of the unit changes. *)
Theorem move_toward_origin_scales (u : Unit.t) (dt : R) :
  0 <= Unit.move_speed u * dt ->
  exists c, 0 <= c <= 1 /\
    Unit.move_toward_origin u dt = Unit.set_pos u (c * Unit.x u) (c * Unit.y u).
Proof. apply move_scaling. Qed.

(** ** What a run keeps *)

(** X10: with non-negative weapon damage, a run never adds, removes or
    reorders units; a unit keeps its type, team and stats, and its health
    never rises. *)
Theorem run_keeps_units (s : state) (n : nat) :
  Forall (fun u => 0 <= Unit.weapon_damage u) (units s) ->
  length (units (run n s)) = length (units s) /\
  forall i u, units s !! i = Some u ->
    exists u', units (run n s) !! i = Some u' /\ ages u u'.
Proof.
  intros Hdmg. pose proof (run_ages n s Hdmg) as Hages. split.
  - symmetry. by eapply Forall2_length.
  - intros i u Hi. by eapply Forall2_lookup_l.
Qed.

(** A unit outside the snapshot is neither actor nor target. *)
Lemma turn_outsider alive t dt st k st' i :
  turn alive t dt st k st' -> i <> k -> i ∉ alive -> st'.1 !! i = st.1 !! i.
Proof.
  intros [|u j o d Hk Hh Hn Hj Ho Hkj Hd Hc|u Hk Hh] Hik Hi; simpl; [done| |].
  - rewrite list_lookup_insert_ne by done.
    rewrite list_lookup_insert_ne; [done|]. intros ->. done.
  - by rewrite list_lookup_insert_ne.
Qed.

Lemma fold_outsider alive t dt i l : forall st,
  i ∉ alive -> l ⊆ alive ->
  (fold_left (unit_action alive t dt) l st).1 !! i = st.1 !! i.
Proof.
  induction l as [|k l IH]; intros st Hi Hl; simpl; [done|].
  rewrite IH; [|done|set_solver].
  apply (turn_outsider alive t dt st k); [apply unit_action_turn| |done].
  intros ->. apply Hi, Hl. by left.
Qed.

Lemma while_iter_dead s i u :
  units s !! i = Some u -> Unit.health u <= 0 ->
  units (while_iter s) !! i = Some u.
Proof.
  intros Hi Hh. unfold while_iter. destruct (simulation_running s); [|done].
  unfold loop_body. case_bool_decide; [done|]. simpl.
  unfold resolver. rewrite fold_outsider; [done| |done].
  rewrite elem_of_alive_units. unfold alive_at. rewrite Hi.
  apply is_alive_false in Hh. by rewrite Hh.
Qed.

(** X11: a unit whose health is 0 or below at the start of an iteration is
    inert from then on: it stays in the list, and none of its fields,
    position, health and attack time included, ever changes again. *)
Theorem dead_unit_is_inert (s : state) (i : nat) (u : Unit.t) (n : nat) :
  units s !! i = Some u -> Unit.health u <= 0 ->
  units (run n s) !! i = Some u.
Proof.
  revert s. induction n as [|n IH]; intros s Hi Hh; [done|].
  simpl. apply IH; [|done]. by apply while_iter_dead.
Qed.

Lemma turn_survivor alive t dt st k st' :
  turn alive t dt st k st' -> someone_alive st.1 -> someone_alive st'.1.
Proof.
  intros [|u j o d Hk Hh Hn Hj Ho Hkj Hd Hc|u Hk Hh] Hsome; simpl; [done| |].
  - exists k, (Unit.set_last_attack_time u t). split; [|done].
    apply list_lookup_insert_eq. rewrite length_insert. by eapply lookup_lt_Some.
  - exists k, (Unit.move_toward_origin u dt). split.
    + apply list_lookup_insert_eq. by eapply lookup_lt_Some.
    + destruct (move_toward_origin_keeps u dt) as [_ ->]. done.
Qed.

Lemma fold_survivor alive t dt l : forall st,
  someone_alive st.1 ->
  someone_alive (fold_left (unit_action alive t dt) l st).1.
Proof.
  induction l as [|k l IH]; intros st Hsome; simpl; [done|].
  apply IH. eapply turn_survivor; [apply unit_action_turn|done].
Qed.

Lemma someone_alive_teams us : someone_alive us <-> teams_alive us <> ∅.
Proof.
  split.
  - intros (i & u & Hi & Hh) Hempty.
    assert (Unit.team_name u ∈ teams_alive us) as Hin
      by (apply elem_of_teams_alive; by exists i, u).
    rewrite Hempty in Hin. by apply not_elem_of_empty in Hin.
  - intros Hne. destruct (set_choose_or_empty (teams_alive us)) as [[t Ht]|Hempty].
    + apply elem_of_teams_alive in Ht as (i & u & Hi & Hh & _). by exists i, u.
    + destruct Hne. by apply leibniz_equiv.
Qed.

Lemma while_iter_survivor s :
  someone_alive (units s) -> winner s <> Some None ->
  someone_alive (units (while_iter s)) /\ winner (while_iter s) <> Some None.
Proof.
  intros Hsome Hw. unfold while_iter. destruct (simulation_running s); [|done].
  unfold loop_body. case_bool_decide as Hsize; simpl.
  - split; [done|]. fold (teams_alive (units s)).
    apply someone_alive_teams in Hsome.
    destruct (size_le_1_cases _ Hsize) as [Hempty|[team Hteam]]; [done|].
    fold (teams_alive (units s)) in Hteam. rewrite Hteam, elements_singleton. done.
  - split; [|done]. by apply (fold_survivor _ _ _ _ (units s, damage_stats s)).
Qed.

Lemma run_survivor n : forall s,
  someone_alive (units s) -> winner s <> Some None ->
  someone_alive (units (run n s)) /\ winner (run n s) <> Some None.
Proof.
  induction n as [|n IH]; intros s Hsome Hw; [done|].
  simpl. destruct (while_iter_survivor s Hsome Hw). by apply IH.
Qed.

Lemma while_iter_settled s : settled s -> settled (while_iter s).
Proof.
  intros Hs. unfold while_iter. destruct (simulation_running s) eqn:Hrun; [|done].
  unfold loop_body. case_bool_decide as Hsize.
  - right. simpl. done.
  - left. done.
Qed.

Lemma run_settled n : forall s, settled s -> settled (run n s).
Proof.
  induction n as [|n IH]; intros s Hs; [done|].
  simpl. by apply IH, while_iter_settled.
Qed.

(** X12: the fight never ends without survivors.  From a loaded
    configuration with a living unit, some unit is alive after any number
    of iterations (the last unit to strike in a tick outlives the tick),
    so [main] never ends with the winner [None]: "No units remain (tie)"
    is printed only when no unit was alive to begin with. *)
Theorem somebody_survives data uts us :
  load data = Ok (uts, us) ->
  someone_alive us ->
  (forall n, someone_alive (units (run n (initial_state us)))) /\
  (forall fuel damage, main data fuel <> Terminated None damage).
Proof.
  intros Hload Hsome.
  assert (forall n, someone_alive (units (run n (initial_state us))) /\
                    winner (run n (initial_state us)) <> Some None) as Hrun.
  { intros n. by apply run_survivor. }
  split; [intros n; apply Hrun|].
  intros fuel damage. unfold main. rewrite Hload.
  destruct (pixels_per_unit us) as [ppu|]; [|done]. cbv zeta.
  intros (k & Hstop & Hnone & _)%frames_Terminated.
  destruct (Hrun k) as [_ Hw].
  destruct (run_settled k (initial_state us)) as [Hr|[Hwin _]];
    [by left|congruence|].
  rewrite Hwin in Hnone, Hw. simpl in Hnone.
  destruct (head (elements (teams_alive (units (run k (initial_state us))))));
    [done|]. by destruct Hw.
Qed.

(** X13: when the loop has stopped, the recorded winner is right for the
    units as they are: a team wins only if it has a living unit and every
    living unit belongs to it, and [None] is recorded only if no unit is
    alive. *)
Theorem winner_is_the_last_team (us : list Unit.t) (n : nat) :
  simulation_running (run n (initial_state us)) = false ->
  let final := run n (initial_state us) in
  exists w, winner final = Some w /\
    match w with
    | Some team =>
        (exists i u, units final !! i = Some u /\ Unit.health u > 0 /\
                     Unit.team_name u = team) /\
        (forall i u, units final !! i = Some u -> Unit.health u > 0 ->
                     Unit.team_name u = team)
    | None => forall i u, units final !! i = Some u -> Unit.health u <= 0
    end.
Proof.
  intros Hstop. cbv zeta.
  destruct (run_settled n (initial_state us)) as [Hr|[Hwin Hsize]]; [by left| |].
  { congruence. }
  set (final := run n (initial_state us)) in *. rewrite Hwin. eexists. split; [done|].
  destruct (size_le_1_cases _ Hsize) as [Hempty|[team Hteam]].
  - rewrite Hempty, elements_empty. simpl. intros i u Hi.
    destruct (Rle_dec (Unit.health u) 0) as [|Hpos]; [done|]. exfalso.
    assert (Unit.team_name u ∈ teams_alive (units final)) as Hin
      by (apply elem_of_teams_alive; exists i, u; repeat split; [done|lra]).
    rewrite Hempty in Hin. by apply not_elem_of_empty in Hin.
  - rewrite Hteam, elements_singleton. simpl. split.
    + apply elem_of_teams_alive. rewrite Hteam. by apply elem_of_singleton.
    + intros i u Hi Hh.
      assert (Unit.team_name u ∈ teams_alive (units final)) as Hin
        by (apply elem_of_teams_alive; by exists i, u).
      rewrite Hteam in Hin. by apply elem_of_singleton in Hin.
Qed.

Lemma stopped_few_teams n : forall s,
  settled s -> simulation_running (run n s) = false ->
  (size (teams_alive (units (run n s))) <= 1)%nat.
Proof.
  intros s Hs Hstop. destruct (run_settled n s Hs) as [Hr|[_ Hsize]]; [congruence|done].
Qed.

(** X14: the loop stops exactly at the first tick that begins with at
    most one team alive: from a running state it is stopped after [n + 1]
    iterations if and only if at most one team has a living unit after
    [n] iterations. *)
Theorem stops_when_one_team_is_left (s : state) (n : nat) :
  simulation_running s = true ->
  simulation_running (run (S n) s) = false <->
  (size (teams_alive (units (run n s))) <= 1)%nat.
Proof.
  intros Hrun. rewrite run_S.
  assert (settled s) as Hs by (by left).
  destruct (simulation_running (run n s)) eqn:Hn.
  - unfold while_iter. rewrite Hn. unfold loop_body.
    fold (teams_alive (units (run n s))). case_bool_decide as Hsize; simpl.
    + tauto.
    + rewrite Hn. split; [done|]. intros. lia.
  - unfold while_iter. rewrite Hn.
    pose proof (stopped_few_teams n s Hs Hn). tauto.
Qed.

(** ** Attack times and the damage table *)

Lemma turn_attack_time alive t dt st k st' i u :
  turn alive t dt st k st' -> st.1 !! i = Some u ->
  exists u', st'.1 !! i = Some u' /\
    Unit.weapon_cooldown u' = Unit.weapon_cooldown u /\
    (Unit.last_attack_time u' = Unit.last_attack_time u \/
     (i = k /\ Unit.last_attack_time u' = t /\
      t - Unit.last_attack_time u >= Unit.weapon_cooldown u)).
Proof.
  intros [|uk j o d Hk Hh Hn Hj Ho Hkj Hd Hc|uk Hk Hh] Hi; simpl.
  - exists u. by repeat split; try left.
  - destruct (decide (i = k)) as [->|Hik].
    + assert (u = uk) as -> by congruence.
      exists (Unit.set_last_attack_time uk t). split.
      * apply list_lookup_insert_eq. rewrite length_insert. by eapply lookup_lt_Some.
      * split; [done|]. right. done.
    + rewrite list_lookup_insert_ne by done.
      destruct (decide (i = j)) as [->|Hij].
      * assert (u = o) as -> by congruence. eexists. split.
        -- apply list_lookup_insert_eq. by eapply lookup_lt_Some.
        -- split; [done|by left].
      * rewrite list_lookup_insert_ne by done. exists u. by repeat split; try left.
  - destruct (decide (i = k)) as [->|Hik].
    + assert (u = uk) as -> by congruence. eexists. split.
      * apply list_lookup_insert_eq. by eapply lookup_lt_Some.
      * unfold Unit.move_toward_origin. repeat case_decide; split; try done; by left.
    + rewrite list_lookup_insert_ne by done. exists u. by repeat split; try left.
Qed.

Lemma fold_attack_time alive t dt l : forall st i u,
  NoDup l -> st.1 !! i = Some u ->
  exists u', (fold_left (unit_action alive t dt) l st).1 !! i = Some u' /\
    Unit.weapon_cooldown u' = Unit.weapon_cooldown u /\
    (Unit.last_attack_time u' = Unit.last_attack_time u \/
     (i ∈ l /\ Unit.last_attack_time u' = t /\
      t - Unit.last_attack_time u >= Unit.weapon_cooldown u)).
Proof.
  induction l as [|k l IH]; intros st i u Hnd Hi; simpl.
  - exists u. by repeat split; try left.
  - apply NoDup_cons in Hnd as [Hk Hnd].
    destruct (turn_attack_time alive t dt st k _ i u (unit_action_turn _ _ _ _ _) Hi)
      as (u1 & Hu1 & Hcd1 & Hlast1).
    destruct (IH _ i u1 Hnd Hu1) as (u' & Hu' & Hcd & Hlast).
    exists u'. split; [done|]. split; [congruence|].
    destruct Hlast1 as [Hsame|(-> & Ht & Hguard)].
    + destruct Hlast as [Hsame'|(Hin & Ht & Hguard)].
      * left. congruence.
      * right. rewrite <- Hsame, <- Hcd1. repeat split; try done. by right.
    + right. destruct Hlast as [Hsame'|(Hin & _)]; [|done].
      repeat split; [by left|congruence|done].
Qed.

(** X15: the cooldown is respected.  Over one iteration a unit's
    [last_attack_time] either stays as it was or becomes the time of the
    tick, and the latter only if at least its [weapon_cooldown] had passed
    since the old value. *)
Theorem attack_respects_cooldown (s : state) (i : nat) (u : Unit.t) :
  units s !! i = Some u ->
  exists u', units (while_iter s) !! i = Some u' /\
    (Unit.last_attack_time u' = Unit.last_attack_time u \/
     (Unit.last_attack_time u' = now s /\
      now s - Unit.last_attack_time u >= Unit.weapon_cooldown u)).
Proof.
  intros Hi. unfold while_iter.
  destruct (simulation_running s); [|exists u; split; [done|by left]].
  unfold loop_body. case_bool_decide; simpl; [exists u; split; [done|by left]|].
  fold (now s).
  destruct (fold_attack_time (alive_units (units s)) (now s) FIXED_DT
              (alive_units (units s)) (units s, damage_stats s) i u
              (NoDup_alive_units _) Hi) as (u' & Hu' & _ & Hlast).
  exists u'. split; [done|]. destruct Hlast as [?|(_ & ? & ?)]; [by left|by right].
Qed.

Lemma Forall2_kin_refl us : Forall2 kin us us.
Proof. by apply Forall_Forall2_diag, Forall_forall. Qed.

Lemma Forall2_kin_trans us1 us2 us3 :
  Forall2 kin us1 us2 -> Forall2 kin us2 us3 -> Forall2 kin us1 us3.
Proof.
  intros H12. revert us3. induction H12 as [|u1 u2 us1 us2 [? ?] _ IH]; intros us3 H23.
  - by inversion H23.
  - inversion H23 as [|? u3 ? us3' [? ?] Hrest]; subst.
    constructor; [split; congruence|by apply IH].
Qed.

Lemma Forall2_kin_insert us i u u' :
  us !! i = Some u -> kin u u' -> Forall2 kin us (<[i := u']> us).
Proof.
  intros Hi Hu. rewrite <- (list_insert_id us i u Hi) at 1.
  apply Forall2_insert; [apply Forall2_kin_refl|done].
Qed.

Lemma turn_kin alive t dt st k st' :
  turn alive t dt st k st' -> Forall2 kin st.1 st'.1.
Proof.
  intros [|u j o d Hk Hh Hn Hj Ho Hkj Hd Hc|u Hk Hh]; simpl.
  - apply Forall2_kin_refl.
  - apply (Forall2_kin_trans _
      (<[j := Unit.set_health o (Unit.health o - Unit.weapon_damage u)]> st.1)).
    + by apply (Forall2_kin_insert _ j o).
    + apply (Forall2_kin_insert _ k u); [by rewrite list_lookup_insert_ne|done].
  - apply (Forall2_kin_insert _ k u); [done|].
    unfold kin, Unit.move_toward_origin. by repeat case_decide.
Qed.

Lemma fold_kin alive t dt l : forall st,
  Forall2 kin st.1 (fold_left (unit_action alive t dt) l st).1.
Proof.
  induction l as [|k l IH]; intros st; simpl; [apply Forall2_kin_refl|].
  eapply Forall2_kin_trans; [|apply IH]. apply turn_kin with alive t dt k.
  apply unit_action_turn.
Qed.

Lemma while_iter_kin s : Forall2 kin (units s) (units (while_iter s)).
Proof.
  unfold while_iter. destruct (simulation_running s); [|apply Forall2_kin_refl].
  unfold loop_body. case_bool_decide; simpl; [apply Forall2_kin_refl|].
  apply (fold_kin _ _ _ _ (units s, damage_stats s)).
Qed.

Lemma run_kin n : forall s, Forall2 kin (units s) (units (run n s)).
Proof.
  induction n as [|n IH]; intros s; [apply Forall2_kin_refl|].
  simpl. eapply Forall2_kin_trans; [apply while_iter_kin|apply IH].
Qed.

Lemma turn_credited alive t dt st k st' :
  turn alive t dt st k st' -> credited st -> credited st'.
Proof.
  intros Hturn Hcred key Hkey.
  pose proof (turn_kin _ _ _ _ _ _ Hturn) as Hkin.
  assert (forall i u, st.1 !! i = Some u -> Unit.type_name u = key ->
            exists i' u', st'.1 !! i' = Some u' /\ Unit.type_name u' = key) as Hkeep.
  { intros i u Hi Hty.
    destruct (Forall2_lookup_l _ _ _ _ _ Hkin Hi) as (u' & Hu' & [Hty' _]).
    exists i, u'. split; [done|congruence]. }
  assert (is_Some (st.2 !! key) ->
          exists i' u', st'.1 !! i' = Some u' /\ Unit.type_name u' = key) as Hold.
  { intros Hsome. destruct (Hcred key Hsome) as (i & u0 & Hi & Hty).
    by apply (Hkeep i u0). }
  destruct Hturn as [|u j o d Hk Hh Hn Hj Ho Hkj Hd Hc|u Hk Hh]; simpl in *;
    try (by apply Hold).
  unfold add_damage in Hkey. apply lookup_insert_is_Some in Hkey as [Heq|[_ Hkey]].
  - by apply (Hkeep k u).
  - by apply Hold.
Qed.

Lemma fold_credited alive t dt l : forall st,
  credited st -> credited (fold_left (unit_action alive t dt) l st).
Proof.
  induction l as [|k l IH]; intros st Hcred; simpl; [done|].
  apply IH. eapply turn_credited; [apply unit_action_turn|done].
Qed.

Lemma while_iter_credited s :
  credited (units s, damage_stats s) ->
  credited (units (while_iter s), damage_stats (while_iter s)).
Proof.
  intros Hcred. unfold while_iter. destruct (simulation_running s); [|done].
  unfold loop_body. case_bool_decide; simpl; [done|].
  pose proof (fold_credited (alive_units (units s)) (INR (frame_counter s) * FIXED_DT)
                FIXED_DT (alive_units (units s)) (units s, damage_stats s) Hcred)
    as Hfold. unfold resolver. by destruct (fold_left _ _ _).
Qed.

Lemma run_credited n : forall s,
  credited (units s, damage_stats s) ->
  credited (units (run n s), damage_stats (run n s)).
Proof.
  induction n as [|n IH]; intros s Hcred; [done|].
  simpl. by apply IH, while_iter_credited.
Qed.

Lemma run_damage_keys data uts us n key :
  load data = Ok (uts, us) ->
  is_Some (damage_stats (run n (initial_state us)) !! key) ->
  is_Some (uts !! key).
Proof.
  intros Hload Hkey.
  assert (credited (units (initial_state us), damage_stats (initial_state us)))
    as Hinit by (intros k' [v' H]; simpl in H; by rewrite lookup_empty in H).
  destruct (run_credited n (initial_state us) Hinit key Hkey) as (i & u' & Hi & Hty).
  destruct (Forall2_lookup_r _ _ _ _ _ (run_kin n (initial_state us)) Hi)
    as (u & Hu & [Hty' _]).
  pose proof (load_built _ _ _ Hload) as Hbuilt. rewrite Forall_forall in Hbuilt.
  destruct (Hbuilt u) as (ut & Hut & _); [by eapply list_elem_of_lookup_2|].
  rewrite <- Hty, Hty', Hut. by eexists.
Qed.

(** The entries of the damage table are sums of weapon damages. *)
Lemma turn_damage_nonneg alive t dt st k st' :
  Forall (fun u => 0 <= Unit.weapon_damage u) st.1 ->
  turn alive t dt st k st' ->
  (forall key v, st.2 !! key = Some v -> 0 <= v) ->
  forall key v, st'.2 !! key = Some v -> 0 <= v.
Proof.
  intros Hdmg [|u j o d Hk Hh Hn Hj Ho Hkj Hd Hc|u Hk Hh] Hold key v Hkey;
    simpl in *; try (by eapply Hold).
  unfold add_damage in Hkey.
  destruct (decide (Unit.type_name u = key)) as [Heq|Hne].
  - rewrite Heq, lookup_insert_eq in Hkey. injection Hkey as <-.
    rewrite Forall_forall in Hdmg.
    assert (0 <= Unit.weapon_damage u)
      by (apply Hdmg; by eapply list_elem_of_lookup_2).
    destruct (st.2 !! key) as [v0|] eqn:E; simpl; [|lra].
    pose proof (Hold key v0 E). lra.
  - rewrite lookup_insert_ne in Hkey by done. by eapply Hold.
Qed.

Lemma fold_damage_nonneg alive t dt l : forall st,
  Forall (fun u => 0 <= Unit.weapon_damage u) st.1 ->
  (forall key v, st.2 !! key = Some v -> 0 <= v) ->
  forall key v,
    (fold_left (unit_action alive t dt) l st).2 !! key = Some v -> 0 <= v.
Proof.
  induction l as [|k l IH]; intros st Hdmg Hold; simpl; [done|].
  pose proof (unit_action_turn alive t dt st k) as Hturn.
  apply IH.
  - eapply ages_damage; [by eapply turn_ages|done].
  - by eapply turn_damage_nonneg.
Qed.

Lemma run_damage_nonneg n : forall s,
  Forall (fun u => 0 <= Unit.weapon_damage u) (units s) ->
  (forall key v, damage_stats s !! key = Some v -> 0 <= v) ->
  forall key v, damage_stats (run n s) !! key = Some v -> 0 <= v.
Proof.
  induction n as [|n IH]; intros s Hdmg Hold; [done|].
  simpl. apply IH.
  - eapply ages_damage; [by apply while_iter_ages|done].
  - unfold while_iter. destruct (simulation_running s); [|done].
    unfold loop_body. case_bool_decide; simpl; [done|].
    by apply (fold_damage_nonneg _ _ _ _ (units s, damage_stats s)).
Qed.

(** X16: the damage table of a run from a loaded configuration only ever
    holds registered unit types; with non-negative weapon damage every
    total in it is non-negative. *)
Theorem damage_table_entries data uts us n key v :
  load data = Ok (uts, us) ->
  damage_stats (run n (initial_state us)) !! key = Some v ->
  is_Some (uts !! key) /\
  (Forall (fun u => 0 <= Unit.weapon_damage u) us -> 0 <= v).
Proof.
  intros Hload Hkey. split.
  - apply (run_damage_keys data uts us n key Hload). by eexists.
  - intros Hdmg. apply (run_damage_nonneg n (initial_state us) Hdmg) with key; [|done].
    intros k' v' H. simpl in H. by rewrite lookup_empty in H.
Qed.

(** ** Sorting *)

#[global] Instance string_le_total : Total string_le.
Proof. intros a b. apply String.leb_total. Qed.

Lemma sorted_Permutation l : sorted l ≡ₚ l.
Proof. apply merge_sort_Permutation. Qed.

Lemma sorted_Sorted l : Sorted string_le (sorted l).
Proof. apply (Sorted_merge_sort string_le). Qed.

Lemma elem_of_sorted l a : a ∈ sorted l <-> a ∈ l.
Proof. by rewrite sorted_Permutation. Qed.

Lemma NoDup_sorted l : NoDup (sorted l) <-> NoDup l.
Proof. by rewrite sorted_Permutation. Qed.

(** ** Team colours *)

Section Colours.
Variable hsv_to_rgb : R -> R -> R -> R * R * R.

Lemma assign_colors_keys T l : forall i colors team,
  is_Some (assign_colors hsv_to_rgb T i l colors !! team) <->
  team ∈ l \/ is_Some (colors !! team).
Proof.
  induction l as [|a l IH]; intros i colors team; simpl.
  - rewrite elem_of_nil. tauto.
  - rewrite IH, elem_of_cons, lookup_insert_is_Some.
    destruct (decide (a = team)); intuition congruence.
Qed.

Lemma assign_colors_other T l : forall i colors team,
  team ∉ l -> assign_colors hsv_to_rgb T i l colors !! team = colors !! team.
Proof.
  induction l as [|a l IH]; intros i colors team Hnot; simpl; [done|].
  apply not_elem_of_cons in Hnot as [Hne Hnot].
  rewrite IH by done. by rewrite lookup_insert_ne.
Qed.

Lemma assign_colors_rank T l : forall i colors k team,
  NoDup l -> l !! k = Some team ->
  assign_colors hsv_to_rgb T i l colors !! team
  = Some (team_color hsv_to_rgb T (i + k)).
Proof.
  induction l as [|a l IH]; intros i colors k team Hnd Hk; [done|].
  apply NoDup_cons in Hnd as [Ha Hnd]. destruct k as [|k]; simpl in *.
  - injection Hk as ->. rewrite assign_colors_other by done.
    by rewrite lookup_insert_eq, Nat.add_0_r.
  - rewrite (IH _ _ k team Hnd Hk). do 2 f_equal. lia.
Qed.

Lemma generate_team_colors_keys teams team :
  is_Some (generate_team_colors hsv_to_rgb teams !! team) <-> team ∈ teams.
Proof.
  unfold generate_team_colors. cbv zeta.
  rewrite assign_colors_keys, elem_of_sorted, lookup_empty.
  split; [intros [?|[? ?]]; done|by left].
Qed.

End Colours.

(** The team of a unit built for a member is the team of the member. *)
Lemma unit_of_member_team uts team m u :
  unit_of_member uts team m = Some u -> Unit.team_name u = team.
Proof.
  unfold unit_of_member, Unit.init. destruct m as [[n|] [x|] [y|]]; simpl; try done.
  destruct (uts !! n); [|done]. by intros [= <-].
Qed.

Lemma members_of_team items team m :
  (team, m) ∈ members_of items -> team ∈ items.*1.
Proof.
  unfold members_of. rewrite list_elem_of_bind.
  intros ([t ms] & Hin & Hitem). simpl in Hin.
  apply list_elem_of_fmap in Hin as (m' & [= -> ->] & _).
  apply list_elem_of_fmap. by exists (t, ms).
Qed.

Lemma load_team_names data uts us u :
  load data = Ok (uts, us) -> u ∈ us ->
  Unit.team_name u ∈ (default [] (Config.teams data)).*1.
Proof.
  intros Hload Hu.
  destruct (load_builds_members _ _ _ Hload) as [Hall _].
  apply list_elem_of_lookup in Hu as [i Hi].
  destruct (Forall2_lookup_r _ _ _ _ _ Hall Hi) as ([team m] & Hm & Hunit).
  simpl in Hunit. rewrite (unit_of_member_team _ _ _ _ Hunit).
  apply (members_of_team _ team m). by eapply list_elem_of_lookup_2.
Qed.

(** X17: every unit of a loaded configuration, at any time of the run,
    finds the colour of its team in the table built from the keys of the
    teams object, whatever [colorsys.hsv_to_rgb] returns: the lookup of
    line 227 cannot fail, and the table holds no other key. *)
Theorem every_team_has_a_colour hsv_to_rgb data uts us n i u :
  load data = Ok (uts, us) ->
  units (run n (initial_state us)) !! i = Some u ->
  let colors :=
    generate_team_colors hsv_to_rgb (default [] (Config.teams data)).*1 in
  is_Some (colors !! Unit.team_name u) /\
  forall team, is_Some (colors !! team) ->
    team ∈ (default [] (Config.teams data)).*1.
Proof.
  intros Hload Hi colors. split.
  - apply generate_team_colors_keys.
    destruct (Forall2_lookup_r _ _ _ _ _ (run_kin n (initial_state us)) Hi)
      as (u0 & Hu0 & [_ ->]).
    apply (load_team_names data uts us); [done|by eapply list_elem_of_lookup_2].
  - intros team. by apply generate_team_colors_keys.
Qed.

Lemma hue_bounds T i : (i < T)%nat -> 0 <= INR i / INR (Nat.max 1 T) < 1.
Proof.
  intros Hi. assert (Nat.max 1 T = T) as -> by lia.
  assert (0 < INR T) by (apply lt_0_INR; lia).
  assert (INR i < INR T) by (by apply lt_INR).
  pose proof (pos_INR i).
  assert (0 < / INR T) by (by apply Rinv_0_lt_compat).
  assert (INR T * / INR T = 1) by (apply Rinv_r; lra).
  unfold Rdiv. split; nra.
Qed.

Lemma hue_injective T i j :
  (i < T)%nat -> (j < T)%nat ->
  INR i / INR (Nat.max 1 T) = INR j / INR (Nat.max 1 T) -> i = j.
Proof.
  intros Hi Hj. assert (Nat.max 1 T = T) as -> by lia.
  assert (0 < INR T) by (apply lt_0_INR; lia).
  intros Heq. apply INR_eq.
  apply (Rmult_eq_reg_r (/ INR T)); [exact Heq|].
  apply Rinv_neq_0_compat. lra.
Qed.

(** X18: for team names without repetition, the team at rank [i] of the
    sorted names gets the colour computed from the hue [i / T], [T] being
    the number of teams; these hues lie in [0, 1) and differ from team to
    team. *)
Theorem team_colour_by_rank hsv_to_rgb teams i team :
  NoDup teams ->
  sorted teams !! i = Some team ->
  generate_team_colors hsv_to_rgb teams !! team
    = Some (team_color hsv_to_rgb (length teams) i) /\
  0 <= INR i / INR (Nat.max 1 (length teams)) < 1 /\
  forall j team', sorted teams !! j = Some team' -> team' <> team ->
    INR j / INR (Nat.max 1 (length teams))
    <> INR i / INR (Nat.max 1 (length teams)).
Proof.
  intros Hnd Hi.
  assert (length (sorted teams) = length teams) as Hlen
    by (by rewrite sorted_Permutation).
  assert (i < length teams)%nat as Hlt
    by (rewrite <- Hlen; by eapply lookup_lt_Some).
  split; [|split].
  - unfold generate_team_colors. cbv zeta. rewrite Hlen.
    rewrite (assign_colors_rank _ _ _ 0%nat _ i team); [done| |done].
    by apply NoDup_sorted.
  - by apply hue_bounds.
  - intros j team' Hj Hne Heq.
    assert (j < length teams)%nat
      by (rewrite <- Hlen; by eapply lookup_lt_Some).
    apply hue_injective in Heq; [|done|done]. subst. congruence.
Qed.

(** ** The window *)

Lemma max_abs_fold_ge us : forall m,
  m <= foldl (fun m u => Rmax m (Rmax (Rabs (Unit.x u)) (Rabs (Unit.y u)))) m us /\
  Forall (fun u => Rabs (Unit.x u)
                   <= foldl (fun m u => Rmax m (Rmax (Rabs (Unit.x u)) (Rabs (Unit.y u)))) m us /\
                   Rabs (Unit.y u)
                   <= foldl (fun m u => Rmax m (Rmax (Rabs (Unit.x u)) (Rabs (Unit.y u)))) m us)
    us.
Proof.
  induction us as [|u us IH]; intros m; simpl; [split; [lra|done]|].
  destruct (IH (Rmax m (Rmax (Rabs (Unit.x u)) (Rabs (Unit.y u))))) as [Hm Hall].
  pose proof (Rmax_l m (Rmax (Rabs (Unit.x u)) (Rabs (Unit.y u)))).
  pose proof (Rmax_r m (Rmax (Rabs (Unit.x u)) (Rabs (Unit.y u)))).
  pose proof (Rmax_l (Rabs (Unit.x u)) (Rabs (Unit.y u))).
  pose proof (Rmax_r (Rabs (Unit.x u)) (Rabs (Unit.y u))).
  split; [lra|]. constructor; [lra|done].
Qed.

Lemma max_abs_nonneg us : 0 <= max_abs us.
Proof.
  unfold max_abs. destruct (max_abs_fold_ge us 0.0) as [H _]. lra.
Qed.

Lemma max_abs_bound us u :
  u ∈ us -> Rabs (Unit.x u) <= max_abs us /\ Rabs (Unit.y u) <= max_abs us.
Proof.
  intros Hu. destruct (max_abs_fold_ge us 0.0) as [_ Hall].
  rewrite Forall_forall in Hall. by apply Hall.
Qed.

Lemma max_abs_fold_zero us :
  Forall (fun u => Unit.x u = 0 /\ Unit.y u = 0) us ->
  foldl (fun m u => Rmax m (Rmax (Rabs (Unit.x u)) (Rabs (Unit.y u)))) 0 us = 0.
Proof.
  induction 1 as [|u us [Hx Hy] _ IH]; simpl; [done|].
  rewrite Hx, Hy, Rabs_R0. rewrite (Rmax_left 0 0) by lra.
  rewrite (Rmax_left 0 0) by lra. done.
Qed.

Lemma pixels_per_unit_cases (us : list Unit.t) :
  (pixels_per_unit us = None <->
   Forall (fun u => Unit.x u = 0 /\ Unit.y u = 0) us) /\
  (forall ppu, pixels_per_unit us = Some ppu ->
     0 < max_abs us /\ ppu * (1.1 * max_abs us) = 400).
Proof.
  unfold pixels_per_unit. cbv zeta. pose proof (max_abs_nonneg us) as Hnn.
  destruct (Req_dec_T (max_abs us + 0.1 * max_abs us) 0) as [Hz|Hnz]; split.
  - split; [intros _|done]. apply Forall_forall. intros u Hu.
    destruct (max_abs_bound us u Hu) as [Hx Hy].
    pose proof (Rabs_pos (Unit.x u)). pose proof (Rabs_pos (Unit.y u)).
    split.
    + destruct (Req_dec (Unit.x u) 0) as [|Hne]; [done|].
      pose proof (Rabs_pos_lt _ Hne). lra.
    + destruct (Req_dec (Unit.y u) 0) as [|Hne]; [done|].
      pose proof (Rabs_pos_lt _ Hne). lra.
  - done.
  - split; [done|]. intros Hall. exfalso. apply Hnz.
    unfold max_abs. replace 0.0 with 0 by lra.
    rewrite (max_abs_fold_zero us Hall). lra.
  - intros ppu [= <-]. split; [lra|]. unfold WINDOW_SIZE.
    replace (max_abs us + 0.1 * max_abs us) with (1.1 * max_abs us) in * by lra.
    unfold Rdiv. rewrite Rmult_assoc, Rinv_l by done. lra.
Qed.


Lemma move_toward_origin_tame M u :
  tame M u -> tame M (Unit.move_toward_origin u FIXED_DT).
Proof.
  intros (Hs & Hx & Hy). pose proof FIXED_DT_pos.
  destruct (move_scaling u FIXED_DT) as (c & Hc & ->); [nra|].
  unfold tame. simpl. rewrite !Rabs_mult, (Rabs_right c) by lra.
  pose proof (Rabs_pos (Unit.x u)). pose proof (Rabs_pos (Unit.y u)).
  repeat split; [done|nra|nra].
Qed.

Lemma turn_tame M alive t st k st' :
  turn alive t FIXED_DT st k st' -> Forall (tame M) st.1 -> Forall (tame M) st'.1.
Proof.
  intros [|u j o d Hk Hh Hn Hj Ho Hkj Hd Hc|u Hk Hh] Hall; simpl; [done| |];
    rewrite Forall_forall in Hall.
  - assert (tame M u) by (apply Hall; by eapply list_elem_of_lookup_2).
    assert (tame M o) by (apply Hall; by eapply list_elem_of_lookup_2).
    apply Forall_insert; [|done]. apply Forall_insert; [|done].
    by apply Forall_forall.
  - assert (tame M u) by (apply Hall; by eapply list_elem_of_lookup_2).
    apply Forall_insert; [by apply Forall_forall|by apply move_toward_origin_tame].
Qed.

Lemma fold_tame M alive t l : forall st,
  Forall (tame M) st.1 ->
  Forall (tame M) (fold_left (unit_action alive t FIXED_DT) l st).1.
Proof.
  induction l as [|k l IH]; intros st Hall; simpl; [done|].
  apply IH. eapply turn_tame; [apply unit_action_turn|done].
Qed.

Lemma run_tame M n : forall s,
  Forall (tame M) (units s) -> Forall (tame M) (units (run n s)).
Proof.
  induction n as [|n IH]; intros s Hall; [done|].
  simpl. apply IH. unfold while_iter. destruct (simulation_running s); [|done].
  unfold loop_body. case_bool_decide; simpl; [done|].
  by apply (fold_tame M _ _ _ (units s, damage_stats s)).
Qed.

Lemma int_bounds (r : R) (lo hi : Z) :
  0 <= r -> IZR lo <= r -> r < IZR hi + 1 -> (lo <= int r <= hi)%Z.
Proof.
  intros Hr Hlo Hhi. unfold int. rewrite decide_True by done.
  destruct (base_Int_part r) as [H1 H2]. split.
  - assert (IZR lo - 1 < IZR (Int_part r)) as H by lra.
    rewrite <- minus_IZR in H. apply lt_IZR in H. lia.
  - assert (IZR (Int_part r) < IZR hi + 1) as H by lra.
    rewrite <- plus_IZR in H. apply lt_IZR in H. lia.
Qed.


(** ** The health bar *)

(** X21: for a living unit of a run from a loaded configuration with
    non-negative weapon damage, the health ratio of line 232 is defined
    (the type is registered and its health is not 0), lies in (0, 1], and
    the filled part of the bar is between 0 and 16 pixels wide. *)
Theorem health_bar_fits data uts us n i u :
  load data = Ok (uts, us) ->
  Forall (fun a => 0 <= Unit.weapon_damage a) us ->
  units (run n (initial_state us)) !! i = Some u ->
  Unit.health u > 0 ->
  exists pct, health_pct uts u = Some pct /\ 0 < pct <= 1 /\
    (0 <= bar_fill pct <= 16)%Z.
Proof.
  intros Hload Hdmg Hi Hh.
  pose proof (run_ages n (initial_state us) Hdmg) as Hages.
  destruct (Forall2_lookup_r _ _ _ _ _ Hages Hi) as (u0 & Hu0 & Hage).
  pose proof (load_built _ _ _ Hload) as Hbuilt. rewrite Forall_forall in Hbuilt.
  destruct (Hbuilt u0) as (ut & Hut & Hmax & _); [by eapply list_elem_of_lookup_2|].
  destruct Hage as (Hty & _ & _ & _ & _ & _ & Hle).
  assert (0 < UnitType.max_health ut) as Hpos by lra.
  assert (0 < Unit.health u / UnitType.max_health ut <= 1) as Hratio.
  { assert (0 < / UnitType.max_health ut) by (by apply Rinv_0_lt_compat).
    assert (UnitType.max_health ut * / UnitType.max_health ut = 1)
      by (apply Rinv_r; lra).
    unfold Rdiv. split; nra. }
  unfold health_pct. rewrite Hty, Hut.
  destruct (Req_dec_T (UnitType.max_health ut) 0) as [|_]; [lra|].
  eexists. split; [done|]. rewrite Rmax_right by lra. split; [done|].
  unfold bar_fill. apply int_bounds; simpl; lra.
Qed.

(** ** The report *)

Lemma report_sum l : forall (m : gmap string R),
  NoDup l -> (forall key, is_Some (m !! key) -> key ∈ l) ->
  foldr (fun key acc => default 0 (m !! key) + acc) 0 l = total_damage m.
Proof.
  induction l as [|k l IH]; intros m Hnd Hdom; simpl.
  - assert (m = ∅) as ->.
    { apply map_empty. intros key. destruct (m !! key) eqn:E; [|done].
      exfalso. by apply (elem_of_nil key), Hdom. }
    by rewrite total_damage_empty.
  - apply NoDup_cons in Hnd as [Hk Hnd].
    assert (foldr (fun key acc => default 0 (m !! key) + acc) 0 l
            = foldr (fun key acc => default 0 (delete k m !! key) + acc) 0 l) as ->.
    { clear IH Hnd Hdom. induction l as [|a l IH]; [done|]. simpl.
      apply not_elem_of_cons in Hk as [Hne Hk].
      rewrite IH by done. by rewrite lookup_delete_ne. }
    rewrite (IH (delete k m)); [|done|].
    + destruct (m !! k) as [v|] eqn:E; simpl.
      * by rewrite (total_damage_lookup k v m E).
      * rewrite delete_id by done. lra.
    + intros key [v Hv]. rewrite lookup_delete_Some in Hv. destruct Hv as [Hne Hv].
      assert (key ∈ k :: l) as Hkey by (apply Hdom; by eexists).
      apply elem_of_cons in Hkey as [->|Hkey]; [by destruct Hne|done].
Qed.

Lemma report_lines_sum (m : gmap string R) (l : list string) :
  foldr (fun line acc => line.2 + acc) 0
    ((fun key => (key, default 0.0 (m !! key))) <$> l)
  = foldr (fun key acc => default 0 (m !! key) + acc) 0 l.
Proof.
  induction l as [|a l IH]; [done|]. rewrite fmap_cons. simpl in *.
  rewrite IH. destruct (m !! a); simpl; lra.
Qed.


(** ** The whole program *)

Lemma draw_units_ok ppu colors uts units :
  Forall (fun u => Unit.health u > 0 ->
            is_Some (colors !! Unit.team_name u) /\
            Unit.type_name u <> ""%string /\
            exists ut, uts !! Unit.type_name u = Some ut /\
                       UnitType.max_health ut <> 0) units ->
  draw_units ppu colors uts units = None.
Proof.
  induction 1 as [|u units Hu _ IH]; [done|]. simpl. rewrite IH.
  unfold draw_unit. destruct (Unit.is_alive u) eqn:Hlive; [|done]. simpl.
  apply is_alive_true in Hlive.
  destruct (Hu Hlive) as ([c ->] & Hname & ut & -> & Hmax).
  destruct (world_to_screen ppu (Unit.x u) (Unit.y u)).
  destruct (Req_dec_T (UnitType.max_health ut) 0); [done|].
  by destruct (Unit.type_name u).
Qed.

(** From a loaded configuration with a unit off the origin, non-empty
    type names and no type of health 0, nothing is raised: [main] is the
    loop. *)
Lemma main_runs data uts us fuel :
  load data = Ok (uts, us) ->
  Exists (fun u => Unit.x u <> 0 \/ Unit.y u <> 0) us ->
  (forall name ut, uts !! name = Some ut ->
     name <> ""%string /\ UnitType.max_health ut <> 0) ->
  main data fuel =
    if simulation_running (run fuel (initial_state us))
    then StillRunning (run fuel (initial_state us))
    else Terminated (default None (winner (run fuel (initial_state us))))
           (damage_stats (run fuel (initial_state us))).
Proof.
  intros Hload Hoff Hnames. unfold main. rewrite Hload.
  destruct (pixels_per_unit us) as [ppu|] eqn:Hppu.
  2:{ apply pixels_per_unit_cases in Hppu. exfalso.
      apply Exists_exists in Hoff as (u & Hu & Hxy).
      rewrite Forall_forall in Hppu. destruct (Hppu u Hu). lra. }
  cbv zeta. apply frames_run. intros k _. unfold render.
  apply draw_units_ok, Forall_forall. intros u Hu _.
  apply list_elem_of_lookup in Hu as [i Hi].
  destruct (Forall2_lookup_r _ _ _ _ _ (run_kin (S k) (initial_state us)) Hi)
    as (u0 & Hu0 & [Hty Hteam]).
  assert (u0 ∈ us) as Hin by (by eapply list_elem_of_lookup_2).
  pose proof (load_built _ _ _ Hload) as Hbuilt. rewrite Forall_forall in Hbuilt.
  destruct (Hbuilt u0 Hin) as (ut & Hut & _).
  destruct (Hnames _ _ Hut) as [Hname Hmax].
  split; [|split].
  - apply generate_team_colors_keys. rewrite Hteam.
    by apply (load_team_names data uts us).
  - by rewrite Hty.
  - exists ut. by rewrite Hty.
Qed.


(** ** Evaluation on concrete inputs *)

Local Open Scope string_scope.

Ltac eval_abs :=
  first [ rewrite Rabs_right by lra | rewrite Rabs_left by lra ]; lra.

Ltac eval_distance :=
  unfold Unit.distance_to; simpl; apply hypot_axis_eval; [lra | eval_abs].

Ltac eval_alive :=
  apply is_alive_true; simpl; lra.

Ltac eval_dead :=
  apply is_alive_false; simpl; lra.

(** [alive_units] of a list given in full. *)
Ltac eval_alive_units :=
  unfold alive_units; simpl length; simpl seq;
  repeat first
    [ rewrite filter_nil
    | rewrite filter_cons_True by (apply Is_true_true; unfold alive_at; simpl; eval_alive)
    | rewrite filter_cons_False by
        (rewrite Is_true_false; unfold alive_at; simpl; eval_dead) ].

(** *** The duel *)

Lemma load_duel : load duel_config = Ok (duel_types, [duel_red; duel_blue]).
Proof. reflexivity. Qed.

Lemma alive_duel : alive_units [duel_red; duel_blue] = [0; 1]%nat.
Proof. by eval_alive_units. Qed.

Lemma nearest_duel_red :
  find_nearest [duel_red; duel_blue] duel_red [0; 1]%nat = (Some 1%nat, Fin 3).
Proof.
  unfold find_nearest, scan_step. simpl.
  replace (Unit.distance_to duel_red duel_blue) with 3; [done|].
  symmetry. eval_distance.
Qed.

Lemma duel_red_turn :
  unit_action [0; 1]%nat 0 FIXED_DT ([duel_red; duel_blue], ∅) 0 = duel_after_red.
Proof.
  rewrite (unit_action_alive _ _ _ _ _ duel_red); [|done|eval_alive].
  rewrite (scheduled_action_in_range _ _ _ _ _ _ 1%nat 3);
    [|apply nearest_duel_red|simpl; lra].
  rewrite bool_decide_eq_true_2 by (simpl; lra).
  unfold attack, duel_after_red, duel_red_fired, duel_blue_dead, add_damage. simpl.
  rewrite lookup_empty, insert_empty. simpl.
  unfold Unit.set_last_attack_time, Unit.set_health. simpl.
  repeat f_equal; lra.
Qed.

Lemma nearest_duel_blue :
  find_nearest duel_after_red.1 duel_blue_dead [0; 1]%nat = (Some 0%nat, Fin 3).
Proof.
  unfold find_nearest, scan_step. simpl.
  replace (Unit.distance_to duel_blue_dead duel_red_fired) with 3; [done|].
  symmetry. eval_distance.
Qed.

Ltac eval_teams_size :=
  match goal with
  | |- context [size ?X] =>
      let n := eval vm_compute in (size X) in
      replace (size X) with n by (vm_compute; reflexivity)
  end.

Lemma duel_first_tick :
  while_iter (initial_state [duel_red; duel_blue]) = duel_tick1.
Proof.
  unfold while_iter. simpl simulation_running. cbv iota.
  rewrite loop_body_running; simpl units; rewrite alive_duel.
  2:{ eval_teams_size. lia. }
  simpl frame_counter. simpl damage_stats. simpl INR. rewrite Rmult_0_l.
  unfold resolver. simpl fold_left.
  rewrite duel_red_turn.
  rewrite (unit_action_dead _ _ _ _ _ duel_blue_dead); [done|done|eval_dead].
Qed.

(** C1 counterexample: in the duel the blue unit is alive at the start of
    the tick and a member of the snapshot; red, processed first, brings its
    health to 0; at its own turn blue is skipped, whereas its scheduled
    action would have struck red.  At the end of the tick red still has
    its full health. *)
Lemma killed_unit_skipped_example :
  let snapshot := alive_units [duel_red; duel_blue] in
  let st := unit_action snapshot 0 FIXED_DT ([duel_red; duel_blue], ∅) 0 in
  load duel_config = Ok (duel_types, [duel_red; duel_blue]) /\
  (1%nat ∈ snapshot) /\
  st.1 !! 1%nat = Some duel_blue_dead /\
  Unit.health duel_blue_dead <= 0 /\
  unit_action snapshot 0 FIXED_DT st 1 = st /\
  unit_action snapshot 0 FIXED_DT st 1
    <> scheduled_action snapshot 0 FIXED_DT st 1 duel_blue_dead /\
  units (while_iter (initial_state [duel_red; duel_blue]))
    = [duel_red_fired; duel_blue_dead].
Proof.
  simpl. rewrite alive_duel, duel_red_turn, duel_first_tick.
  assert (unit_action [0; 1]%nat 0 FIXED_DT duel_after_red 1 = duel_after_red) as Hskip.
  { apply (unit_action_dead _ _ _ _ _ duel_blue_dead); [done|eval_dead]. }
  split; [apply load_duel|]. repeat split.
  - set_solver.
  - simpl. lra.
  - done.
  - rewrite Hskip.
    rewrite (scheduled_action_in_range _ _ _ _ _ _ 0%nat 3);
      [|apply nearest_duel_blue|simpl; lra].
    rewrite bool_decide_eq_true_2 by (simpl; lra).
    unfold attack, duel_after_red. simpl. intros [= H _]. lra.
Qed.

(** C5 counterexample: in the first tick of the duel blue is a member of
    the snapshot, its nearest enemy, red at distance 3, is within its
    weapon range of 5, and its cooldown has elapsed.  Yet blue, brought to
    health 0 by red earlier in the tick, does not attack: its turn changes
    nothing, and red ends the tick with its full health of 10. *)
Lemma killed_unit_in_range_example :
  let snapshot := alive_units [duel_red; duel_blue] in
  let st := unit_action snapshot 0 FIXED_DT ([duel_red; duel_blue], ∅) 0 in
  (1%nat ∈ snapshot) /\
  st.1 !! 1%nat = Some duel_blue_dead /\
  find_nearest st.1 duel_blue_dead snapshot = (Some 0%nat, Fin 3) /\
  3 <= Unit.weapon_range duel_blue_dead /\
  0 - Unit.last_attack_time duel_blue_dead
    >= Unit.weapon_cooldown duel_blue_dead /\
  unit_action snapshot 0 FIXED_DT st 1 = st /\
  unit_action snapshot 0 FIXED_DT st 1 <> attack 1 0 0 st /\
  Unit.health <$> units (while_iter (initial_state [duel_red; duel_blue])) !! 0%nat
    = Some 10.
Proof.
  simpl. rewrite alive_duel, duel_red_turn, duel_first_tick.
  assert (unit_action [0; 1]%nat 0 FIXED_DT duel_after_red 1 = duel_after_red) as Hskip.
  { apply (unit_action_dead _ _ _ _ _ duel_blue_dead); [done|eval_dead]. }
  split; [set_solver|]. split; [done|]. split; [apply nearest_duel_blue|].
  split; [simpl; lra|]. split; [simpl; lra|]. split; [done|]. split; [|done].
  rewrite Hskip. unfold attack, duel_after_red. simpl. intros [= H _]. lra.
Qed.

(** *** The skirmish *)

Lemma load_skirmish :
  exists uts, load skirmish_config = Ok (uts, skirmish_units).
Proof. eexists. reflexivity. Qed.

Ltac eval_at_origin :=
  apply move_at_origin; unfold Unit.at_origin; simpl; rewrite !Rabs_R0; lra.

Lemma skirmish_first_tick :
  while_iter (initial_state skirmish_units) = skirmish_tick1.
Proof.
  unfold while_iter. simpl simulation_running. cbv iota.
  assert (alive_units skirmish_units = [0; 1; 2]%nat) as Halive
    by (unfold skirmish_units; by eval_alive_units).
  rewrite loop_body_running; simpl units; rewrite Halive.
  2:{ eval_teams_size. lia. }
  simpl frame_counter. simpl damage_stats. simpl INR. rewrite Rmult_0_l.
  unfold resolver. simpl fold_left.
  (* red strikes the blue unit beside it *)
  assert (unit_action [0; 1; 2]%nat 0 FIXED_DT (skirmish_units, ∅) 0
          = (units skirmish_tick1, damage_stats skirmish_tick1)) as ->.
  { rewrite (unit_action_alive _ _ _ _ _ (skirmish_red 10 (-1e9)));
      [|reflexivity|eval_alive].
    rewrite (scheduled_action_in_range _ _ _ _ _ _ 1%nat 2); [| |simpl; lra]; cycle 1.
    { unfold find_nearest, scan_step. simpl.
      replace (Unit.distance_to (skirmish_red 10 (-1e9)) (skirmish_near 10)) with 2
        by (symmetry; eval_distance).
      replace (Unit.distance_to (skirmish_red 10 (-1e9)) skirmish_far) with 10
        by (symmetry; eval_distance).
      by rewrite bool_decide_eq_false_2 by lra. }
    rewrite bool_decide_eq_true_2 by (simpl; lra).
    unfold attack, add_damage. simpl.
    rewrite lookup_empty, insert_empty. simpl.
    unfold skirmish_red, skirmish_near, Unit.set_last_attack_time, Unit.set_health.
    simpl. repeat f_equal; lra. }
  (* the struck unit is dead when its turn comes *)
  assert (unit_action [0; 1; 2]%nat 0 FIXED_DT
            (units skirmish_tick1, damage_stats skirmish_tick1) 1
          = (units skirmish_tick1, damage_stats skirmish_tick1)) as ->.
  { apply (unit_action_dead _ _ _ _ _ (skirmish_near 0)); [reflexivity|eval_dead]. }
  (* the far blue unit rests at the origin *)
  rewrite (unit_action_alive _ _ _ _ _ skirmish_far); [|reflexivity|eval_alive].
  rewrite (scheduled_action_out_of_range _ _ _ _ _ _ 0%nat 10); [| |simpl; lra]; cycle 1.
  { unfold find_nearest, scan_step. simpl.
    replace (Unit.distance_to skirmish_far (skirmish_red 10 0)) with 10
      by (symmetry; eval_distance).
    done. }
  simpl.
  replace (Unit.move_toward_origin skirmish_far FIXED_DT) with skirmish_far
    by (symmetry; eval_at_origin).
  done.
Qed.

Lemma skirmish_second_tick : while_iter skirmish_tick1 = skirmish_tick2.
Proof.
  unfold while_iter. simpl simulation_running. cbv iota.
  assert (alive_units (units skirmish_tick1) = [0; 2]%nat) as Halive
    by (unfold skirmish_tick1; simpl units; by eval_alive_units).
  rewrite loop_body_running; rewrite Halive.
  2:{ simpl units. eval_teams_size. lia. }
  simpl frame_counter. simpl damage_stats. simpl units. simpl INR. rewrite Rmult_1_l.
  unfold resolver. simpl fold_left.
  (* red has no enemy in range and walks, although its cooldown runs *)
  assert (unit_action [0; 2]%nat FIXED_DT FIXED_DT
            ([skirmish_red 10 0; skirmish_near 0; skirmish_far], {[ "a" := 10 ]}) 0
          = (units skirmish_tick2, damage_stats skirmish_tick2)) as ->.
  { rewrite (unit_action_alive _ _ _ _ _ (skirmish_red 10 0));
      [|reflexivity|eval_alive].
    rewrite (scheduled_action_out_of_range _ _ _ _ _ _ 2%nat 10);
      [| |simpl; lra]; cycle 1.
    { unfold find_nearest, scan_step. simpl.
      replace (Unit.distance_to (skirmish_red 10 0) skirmish_far) with 10
        by (symmetry; eval_distance).
      done. }
    simpl. rewrite move_along_x_axis; unfold FIXED_DT; simpl; try lra.
    unfold skirmish_red, Unit.set_pos. simpl. repeat f_equal; lra. }
  rewrite (unit_action_alive _ _ _ _ _ skirmish_far); [|reflexivity|eval_alive].
  rewrite (scheduled_action_out_of_range _ _ _ _ _ _ 0%nat 9); [| |simpl; lra]; cycle 1.
  { unfold find_nearest, scan_step. simpl.
    replace (Unit.distance_to skirmish_far (skirmish_red 9 0)) with 9
      by (symmetry; eval_distance).
    done. }
  simpl.
  replace (Unit.move_toward_origin skirmish_far FIXED_DT) with skirmish_far
    by (symmetry; eval_at_origin).
  done.
Qed.

Lemma skirmish_red_out_of_range :
  forall k o, k ∈ alive_units (units skirmish_tick1) ->
    units skirmish_tick1 !! k = Some o ->
    Unit.team_name o <> Unit.team_name (skirmish_red 10 0) ->
    Unit.weapon_range (skirmish_red 10 0) < Unit.distance_to (skirmish_red 10 0) o.
Proof.
  assert (alive_units (units skirmish_tick1) = [0; 2]%nat) as ->
    by (unfold skirmish_tick1; simpl units; by eval_alive_units).
  intros k o Hk Ho Hteam.
  apply elem_of_cons in Hk as [->|Hk]; [|apply list_elem_of_singleton in Hk as ->];
    simpl in Ho; injection Ho as <-.
  - by destruct Hteam.
  - replace (Unit.distance_to (skirmish_red 10 0) skirmish_far) with 10
      by (symmetry; eval_distance).
    simpl. lra.
Qed.

(** C2 counterexample: at the second tick of the skirmish the red unit
    has no enemy within its range and its cooldown has not elapsed, and it
    walks from (10,0) to (9,0). *)
Lemma moving_while_cooling_example :
  let s := skirmish_tick1 in
  let u := skirmish_red 10 0 in
  (exists uts, load skirmish_config = Ok (uts, skirmish_units)) /\
  run 1 (initial_state skirmish_units) = s /\
  units s !! 0%nat = Some u /\
  Unit.health u > 0 /\
  (forall k o, k ∈ alive_units (units s) -> units s !! k = Some o ->
     Unit.team_name o <> Unit.team_name u ->
     Unit.weapon_range u < Unit.distance_to u o) /\
  INR (frame_counter s) * FIXED_DT - Unit.last_attack_time u < Unit.weapon_cooldown u /\
  position (units s) 0 = Some (10, 0) /\
  position (units (while_iter s)) 0 = Some (9, 0).
Proof.
  simpl. rewrite skirmish_first_tick, skirmish_second_tick.
  split; [apply load_skirmish|]. repeat split; try done.
  - lra.
  - apply skirmish_red_out_of_range.
  - unfold FIXED_DT. lra.
Qed.

(** *** The units stuck beside the origin *)

Lemma load_stuck :
  load stuck_config
  = Ok ({[ "a" := UnitType.mk 10 1 1e-7 10 1 ]}, [stuck_red; stuck_blue]).
Proof. reflexivity. Qed.

Lemma stuck_tick n : while_iter (stuck_state n) = stuck_state (S n).
Proof.
  unfold while_iter. simpl simulation_running. cbv iota.
  assert (alive_units (units (stuck_state n)) = [0; 1]%nat) as Halive
    by (simpl units; by eval_alive_units).
  rewrite loop_body_running; rewrite Halive.
  2:{ simpl units. eval_teams_size. lia. }
  simpl frame_counter. simpl damage_stats. simpl units.
  unfold resolver. simpl fold_left.
  set (t := INR n * FIXED_DT).
  assert (forall st i u j d,
            st = ([stuck_red; stuck_blue], (∅ : gmap string R)) ->
            st.1 !! i = Some u -> Unit.health u > 0 -> Unit.at_origin u ->
            find_nearest st.1 u [0; 1]%nat = (Some j, Fin d) ->
            Unit.weapon_range u < d ->
            unit_action [0; 1]%nat t FIXED_DT st i = st) as Hrest.
  { intros st i u j d -> Hi Hh Hbox Hn Hd.
    rewrite (unit_action_alive _ _ _ _ _ u); [|done|by apply is_alive_true].
    rewrite (scheduled_action_out_of_range _ _ _ _ _ _ j d) by done.
    simpl. f_equal. apply list_eq. intros k.
    destruct (decide (i = k)) as [->|Hne].
    - rewrite list_lookup_alter_eq. simpl in Hi. rewrite Hi. simpl.
      by rewrite move_at_origin.
    - by rewrite list_lookup_alter_ne. }
  assert (Unit.distance_to stuck_red stuck_blue = 1e-6) as Hrb by eval_distance.
  assert (Unit.distance_to stuck_blue stuck_red = 1e-6) as Hbr by eval_distance.
  rewrite (Hrest _ 0%nat stuck_red 1%nat 1e-6); try done.
  - rewrite (Hrest _ 1%nat stuck_blue 0%nat 1e-6); try done.
    + simpl. lra.
    + unfold Unit.at_origin. simpl. rewrite Rabs_R0, Rabs_left; lra.
    + unfold find_nearest, scan_step. simpl. by rewrite Hbr.
    + simpl. lra.
  - simpl. lra.
  - unfold Unit.at_origin. simpl. rewrite Rabs_R0, Rabs_right; lra.
  - unfold find_nearest, scan_step. simpl. by rewrite Hrb.
  - simpl. lra.
Qed.

Lemma stuck_run n : forall k, run n (stuck_state k) = stuck_state (n + k).
Proof.
  induction n as [|n IH]; intros k; [done|].
  simpl run. rewrite stuck_tick, IH. f_equal. lia.
Qed.


(** C3 counterexample: a unit at (5e-7, 0) does not move, so its distance
    stays 5e-7, while [max 0 (distance - move_speed * dt)] is 0. *)
Lemma move_near_origin_example :
  Unit.move_toward_origin near_origin_unit FIXED_DT = near_origin_unit /\
  Unit.origin_distance (Unit.move_toward_origin near_origin_unit FIXED_DT) = 5e-7 /\
  Rmax 0 (Unit.origin_distance near_origin_unit
          - Unit.move_speed near_origin_unit * FIXED_DT) = 0 /\
  Unit.origin_distance (Unit.move_toward_origin near_origin_unit FIXED_DT)
  <> Rmax 0 (Unit.origin_distance near_origin_unit
             - Unit.move_speed near_origin_unit * FIXED_DT).
Proof.
  assert (Unit.at_origin near_origin_unit) as Hbox.
  { unfold Unit.at_origin. simpl. rewrite Rabs_R0, Rabs_right; lra. }
  assert (Unit.origin_distance near_origin_unit = 5e-7) as Hd.
  { unfold Unit.origin_distance. simpl. apply hypot_axis_eval; [done|].
    rewrite Rabs_right; lra. }
  rewrite (move_at_origin _ _ Hbox), Hd.
  assert (Rmax 0 (5e-7 - Unit.move_speed near_origin_unit * FIXED_DT) = 0) as Hm.
  { apply Rmax_left. unfold FIXED_DT. simpl. lra. }
  rewrite Hm. repeat split; try done. lra.
Qed.

Lemma load_ghost :
  load ghost_config = Exit 1 "ERROR: Unknown unit type 'ghost' in team 'blue'".
Proof. reflexivity. Qed.

(** C9 counterexample: a member of team blue names the unregistered type
    ghost, but the message reports the member of team red that lacks
    its x, which comes first in the document. *)
Lemma unknown_type_masked_example :
  let m := Config.mk_member (Some "ghost") (Some 4) (Some 0) in
  (("blue", [m]) ∈ default [] (Config.teams ghost_after_gap_config)) /\
  Config.name m = Some "ghost" /\
  ("ghost" ∉ (default [] (Config.units ghost_after_gap_config)).*1) /\
  load ghost_after_gap_config
    = Exit 1 "ERROR: Missing field 'x' for a member of team 'red'" /\
  load ghost_after_gap_config <> Exit 1 (unknown_unit_type "ghost" "blue").
Proof.
  simpl. repeat split.
  - apply list_elem_of_further, list_elem_of_here.
  - by intros ?%list_elem_of_singleton.
  - done.
Qed.

(** *** Two enemies at the same distance *)

Example nearest_tie_takes_first :
  let u := Unit.mk "a" "red" 0 0 10 1 5 10 1 (-1e9) in
  let e1 := Unit.mk "a" "blue" 3 0 10 1 5 10 1 (-1e9) in
  let e2 := Unit.mk "a" "blue" (-3) 0 10 1 5 10 1 (-1e9) in
  find_nearest [u; e1; e2] u [0; 1; 2]%nat = (Some 1%nat, Fin 3).
Proof.
  intros u e1 e2. unfold find_nearest, scan_step. simpl.
  replace (Unit.distance_to u e1) with 3 by (symmetry; eval_distance).
  replace (Unit.distance_to u e2) with 3 by (symmetry; eval_distance).
  by rewrite bool_decide_eq_false_2 by lra.
Qed.

Lemma alive_duel_tick1 : alive_units (units duel_tick1) = [0]%nat.
Proof. simpl units. by eval_alive_units. Qed.

Lemma duel_second_tick : while_iter duel_tick1 = duel_tick2.
Proof.
  unfold while_iter. simpl simulation_running. cbv iota.
  rewrite loop_body_terminal; rewrite alive_duel_tick1.
  2:{ simpl units. eval_teams_size. lia. }
  unfold duel_tick2. simpl. repeat f_equal.
Qed.

(** The duel from start to end: red strikes first and wins. *)
Example duel_outcome :
  main duel_config 2 = Terminated (Some "red") {[ "a" := 10 ]}.
Proof.
  rewrite (main_runs duel_config _ _ 2 load_duel).
  - simpl run. by rewrite duel_first_tick, duel_second_tick.
  - apply Exists_cons_tl, Exists_cons_hd. left. simpl. lra.
  - intros name ut Hut. unfold duel_types in Hut.
    apply lookup_singleton_Some in Hut as [<- <-]. split; [done|simpl; lra].
Qed.

(** *** A cooldown longer than the head start of [last_attack_time] *)

(** C7 counterexample: a unit type with the positive cooldown 2e9; the
    fresh unit fails the cooldown test at time 0. *)
Lemma first_attack_blocked_example :
  exists u,
    Unit.init "a" "red" 0 0 {[ "a" := UnitType.mk 10 1 5 10 2e9 ]} = Some u /\
    0 < Unit.weapon_cooldown u /\
    ¬ (0 - Unit.last_attack_time u >= Unit.weapon_cooldown u).
Proof.
  eexists. split; [reflexivity|]. simpl. split; lra.
Qed.

(** *** The theorems at concrete inputs *)

Lemma killed_unit_is_skipped_witness :
  duel_after_red.1 !! 1%nat = Some duel_blue_dead /\
  Unit.health duel_blue_dead <= 0 /\
  unit_action [0; 1]%nat 0 FIXED_DT duel_after_red 1 = duel_after_red.
Proof.
  assert (Unit.health duel_blue_dead <= 0) as Hdead by (simpl; lra).
  split; [reflexivity|]. split; [exact Hdead|].
  exact (proj1 (killed_unit_is_skipped [0; 1]%nat 0 FIXED_DT duel_after_red
                  1%nat duel_blue_dead eq_refl) Hdead).
Defined.

Lemma out_of_range_unit_moves_witness :
  let st := (units skirmish_tick1, damage_stats skirmish_tick1) in
  let u := skirmish_red 10 0 in
  st.1 !! 0%nat = Some u /\
  Unit.health u > 0 /\
  (forall k o, k ∈ alive_units (units skirmish_tick1) -> st.1 !! k = Some o ->
     Unit.team_name o <> Unit.team_name u ->
     Unit.weapon_range u < Unit.distance_to u o) /\
  unit_action (alive_units (units skirmish_tick1)) FIXED_DT FIXED_DT st 0
    = (<[0%nat := Unit.move_toward_origin u FIXED_DT]> st.1, st.2).
Proof.
  intros st u.
  assert (Unit.health u > 0) as Hh by (simpl; lra).
  split; [reflexivity|]. split; [exact Hh|].
  split; [exact skirmish_red_out_of_range|].
  exact (out_of_range_unit_moves (alive_units (units skirmish_tick1))
           FIXED_DT FIXED_DT st 0%nat u eq_refl Hh skirmish_red_out_of_range).
Defined.

Lemma in_range_unit_attacks_or_waits_witness :
  let st := ([duel_red; duel_blue], (∅ : gmap string R)) in
  st.1 !! 0%nat = Some duel_red /\
  find_nearest st.1 duel_red [0; 1]%nat = (Some 1%nat, Fin 3) /\
  3 <= Unit.weapon_range duel_red /\
  Unit.health duel_red > 0 /\
  0 - Unit.last_attack_time duel_red >= Unit.weapon_cooldown duel_red /\
  exists o, st.1 !! 1%nat = Some o /\ 1%nat <> 0%nat /\
    unit_action [0; 1]%nat 0 FIXED_DT st 0 =
      (<[0%nat := Unit.set_last_attack_time duel_red 0]>
         (<[1%nat := Unit.set_health o (Unit.health o - Unit.weapon_damage duel_red)]>
            st.1),
       <[Unit.type_name duel_red :=
           default 0 (st.2 !! Unit.type_name duel_red)
           + Unit.weapon_damage duel_red]> st.2).
Proof.
  intros st.
  assert (3 <= Unit.weapon_range duel_red) as Hd by (simpl; lra).
  assert (Unit.health duel_red > 0) as Hh by (simpl; lra).
  assert (0 - Unit.last_attack_time duel_red >= Unit.weapon_cooldown duel_red)
    as Hc by (simpl; lra).
  split; [reflexivity|]. split; [exact nearest_duel_red|].
  split; [exact Hd|]. split; [exact Hh|]. split; [exact Hc|].
  exact (proj1 (proj2 (in_range_unit_attacks_or_waits [0; 1]%nat 0 FIXED_DT st
                         0%nat duel_red 1%nat 3 eq_refl nearest_duel_red Hd))
           Hh Hc).
Defined.

Lemma terminal_tick_skips_resolver_witness :
  simulation_running duel_tick1 = true /\
  (size (teams_still_alive (units duel_tick1) (alive_units (units duel_tick1)))
   <= 1)%nat /\
  units (while_iter duel_tick1) = units duel_tick1 /\
  damage_stats (while_iter duel_tick1) = damage_stats duel_tick1 /\
  simulation_running (while_iter duel_tick1) = false.
Proof.
  assert (size (teams_still_alive (units duel_tick1) (alive_units (units duel_tick1)))
          <= 1)%nat as Hsize.
  { rewrite alive_duel_tick1. simpl units. eval_teams_size. lia. }
  split; [reflexivity|]. split; [exact Hsize|].
  destruct (terminal_tick_skips_resolver duel_tick1 eq_refl Hsize)
    as (Hunits & Hdamage & Hstop & _).
  split; [exact Hunits|]. split; [exact Hdamage|exact Hstop].
Defined.

Lemma first_attack_not_blocked_witness :
  Unit.init "a" "red" 0 0 duel_types = Some duel_red /\
  0 <= 0 /\
  Unit.weapon_cooldown duel_red <= 1e9 /\
  0 - Unit.last_attack_time duel_red >= Unit.weapon_cooldown duel_red.
Proof.
  assert (0 <= 0) as Ht by lra.
  assert (Unit.weapon_cooldown duel_red <= 1e9) as Hc by (simpl; lra).
  split; [reflexivity|]. split; [exact Ht|]. split; [exact Hc|].
  exact (first_attack_not_blocked "a" "red" 0 0 duel_types duel_red 0
           eq_refl Ht Hc).
Defined.

Lemma duel_types_moderate :
  forall name ut, duel_types !! name = Some ut ->
    name <> "" /\ moderate_type ut.
Proof.
  intros name ut Hut. unfold duel_types in Hut.
  apply lookup_singleton_Some in Hut as [<- <-].
  split; [done|]. unfold moderate_type. simpl. repeat split; lra.
Qed.

Lemma duel_positions :
  Forall (fun u => Rabs (Unit.x u) <= 1e6 /\ Rabs (Unit.y u) <= 1e6)
    [duel_red; duel_blue] /\
  Exists (fun u => 1e-6 <= Rabs (Unit.x u) \/ 1e-6 <= Rabs (Unit.y u))
    [duel_red; duel_blue].
Proof.
  split.
  - repeat constructor; simpl; eval_abs.
  - apply Exists_cons_tl, Exists_cons_hd. left. simpl. eval_abs.
Qed.


Lemma ghost_first_defect : first_defect_unknown ghost_config "blue" "ghost".
Proof.
  exists duel_types,
    [("red", [Config.mk_member (Some "a") (Some 0) (Some 0)])],
    [Config.mk_member (Some "a") (Some 3) (Some 0)],
    (Config.mk_member (Some "ghost") (Some 4) (Some 0)),
    [], [], [duel_red], [duel_red; duel_blue].
  repeat split; try done; by eexists.
Qed.

Lemma unknown_unit_type_rejected_witness :
  let m := Config.mk_member (Some "ghost") (Some 4) (Some 0) in
  let members := [Config.mk_member (Some "a") (Some 3) (Some 0); m] in
  (("blue", members) ∈ default [] (Config.teams ghost_config)) /\
  m ∈ members /\
  Config.name m = Some "ghost" /\
  ("ghost" ∉ (default [] (Config.units ghost_config)).*1) /\
  first_defect_unknown ghost_config "blue" "ghost" /\
  forall fuel, main ghost_config fuel = Exited 1 (unknown_unit_type "ghost" "blue").
Proof.
  intros m members.
  assert (("blue", members) ∈ default [] (Config.teams ghost_config)) as Hteam
    by apply list_elem_of_further, list_elem_of_here.
  assert (m ∈ members) as Hm by apply list_elem_of_further, list_elem_of_here.
  assert ("ghost" ∉ (default [] (Config.units ghost_config)).*1) as Hfresh
    by (by intros ?%list_elem_of_singleton).
  split; [exact Hteam|]. split; [exact Hm|]. split; [reflexivity|].
  split; [exact Hfresh|]. split; [exact ghost_first_defect|].
  exact (proj2 (unknown_unit_type_rejected ghost_config "blue" members m "ghost"
                  Hteam Hm eq_refl Hfresh) ghost_first_defect).
Defined.


Lemma move_toward_origin_distance_witness :
  let u := skirmish_red 10 0 in
  ¬ Unit.at_origin u /\
  Unit.origin_distance (Unit.move_toward_origin u FIXED_DT)
    = Rmax 0 (Unit.origin_distance u - Unit.move_speed u * FIXED_DT).
Proof.
  intros u.
  assert (¬ Unit.at_origin u) as Hbox.
  { unfold Unit.at_origin. simpl. intros [H _]. rewrite Rabs_right in H; lra. }
  split; [exact Hbox|].
  exact (proj1 (proj2 (move_toward_origin_distance u FIXED_DT) Hbox)).
Defined.

(** *** The further properties at concrete inputs *)

Lemma load_units_in_document_order_witness :
  load duel_config = Ok (duel_types, [duel_red; duel_blue]) /\
  Forall2 (fun tm u => unit_of_member duel_types tm.1 tm.2 = Some u)
    (members_of (default [] (Config.teams duel_config))) [duel_red; duel_blue] /\
  length [duel_red; duel_blue]
  = length (members_of (default [] (Config.teams duel_config))).
Proof.
  split; [exact load_duel|].
  exact (load_units_in_document_order duel_config duel_types
           [duel_red; duel_blue] load_duel).
Defined.

Lemma load_registry_witness :
  load duel_config = Ok (duel_types, [duel_red; duel_blue]) /\
  NoDup (default [] (Config.units duel_config)).*1 /\
  (forall name stats, (name, stats) ∈ default [] (Config.units duel_config) ->
     duel_types !! name = type_of_stats stats /\ is_Some (duel_types !! name)) /\
  (forall name, is_Some (duel_types !! name) ->
     name ∈ (default [] (Config.units duel_config)).*1).
Proof.
  assert (NoDup (default [] (Config.units duel_config)).*1) as Hnd
    by (simpl; apply NoDup_singleton).
  split; [exact load_duel|]. split; [exact Hnd|].
  exact (load_registry duel_config duel_types [duel_red; duel_blue] load_duel Hnd).
Defined.

Lemma load_first_incomplete_type_witness :
  let complete := Config.mk_stats (Some 10) (Some 1) (Some 5) (Some 10) (Some 1) in
  let partial := Config.mk_stats (Some 10) (Some 1) None (Some 10) None in
  default [] (Config.units incomplete_type_config)
    = ([("a", complete)] ++ ("b", partial) :: [])%list /\
  Forall (fun item => complete_stats item.2) [("a", complete)] /\
  first_missing partial = Some "weaponRange" /\
  load incomplete_type_config = Exit 1 (missing_type_field "weaponRange" "b") /\
  forall fuel,
    main incomplete_type_config fuel
    = Exited 1 (missing_type_field "weaponRange" "b").
Proof.
  intros complete partial.
  assert (Forall (fun item => complete_stats item.2) [("a", complete)]) as Hpre.
  { constructor; [|constructor]. unfold complete_stats. simpl.
    repeat split; by eexists. }
  split; [reflexivity|]. split; [exact Hpre|]. split; [reflexivity|].
  exact (load_first_incomplete_type incomplete_type_config [("a", complete)]
           "b" partial [] "weaponRange" eq_refl Hpre eq_refl).
Defined.

Lemma load_first_incomplete_member_witness :
  let units_raw := default [] (Config.units incomplete_member_config) in
  let first := Config.mk_member (Some "a") (Some 0) (Some 0) in
  let second := Config.mk_member (Some "a") (Some 3) (Some 0) in
  let third := Config.mk_member (Some "ghost") None (Some 0) in
  units_raw <> [] /\
  Forall (fun item => complete_stats item.2) units_raw /\
  default [] (Config.teams incomplete_member_config)
    = ([("red", [first])] ++ ("blue", [second] ++ third :: []) :: [])%list /\
  Forall (fun item => Forall (accepted_member units_raw.*1) item.2)
    [("red", [first])] /\
  Forall (accepted_member units_raw.*1) [second] /\
  first_missing_member third = Some "x" /\
  load incomplete_member_config = Exit 1 (missing_member_field "x" "blue") /\
  forall fuel,
    main incomplete_member_config fuel
    = Exited 1 (missing_member_field "x" "blue").
Proof.
  intros units_raw first second third.
  assert (units_raw <> []) as Hne by done.
  assert (Forall (fun item => complete_stats item.2) units_raw) as Hall.
  { constructor; [|constructor]. unfold complete_stats. simpl.
    repeat split; by eexists. }
  assert (forall x, accepted_member units_raw.*1
                      (Config.mk_member (Some "a") (Some x) (Some 0))) as Hacc.
  { intros x. exists "a". simpl. split; [done|]. split; [by eexists|].
    split; [by eexists|]. apply list_elem_of_here. }
  assert (Forall (fun item => Forall (accepted_member units_raw.*1) item.2)
            [("red", [first])]) as Hpt.
  { constructor; [|constructor]. simpl. constructor; [apply Hacc|constructor]. }
  assert (Forall (accepted_member units_raw.*1) [second]) as Hpm.
  { constructor; [apply Hacc|constructor]. }
  split; [exact Hne|]. split; [exact Hall|]. split; [reflexivity|].
  split; [exact Hpt|]. split; [exact Hpm|]. split; [reflexivity|].
  exact (load_first_incomplete_member incomplete_member_config [("red", [first])]
           "blue" [second] third [] [] "x" Hne Hall eq_refl Hpt Hpm eq_refl).
Defined.

Lemma load_missing_top_level_witness :
  (default [] (Config.units no_units_config) = [] /\
   forall fuel,
     main no_units_config fuel
     = Exited 1 "ERROR: 'units' key is missing or empty.") /\
  (default [] (Config.units no_teams_config) <> [] /\
   Forall (fun item => complete_stats item.2)
     (default [] (Config.units no_teams_config)) /\
   default [] (Config.teams no_teams_config) = [] /\
   forall fuel,
     main no_teams_config fuel
     = Exited 1 "ERROR: 'teams' key is missing or empty.").
Proof.
  assert (default [] (Config.units no_teams_config) <> []) as Hne by done.
  assert (Forall (fun item => complete_stats item.2)
            (default [] (Config.units no_teams_config))) as Hall.
  { constructor; [|constructor]. unfold complete_stats. simpl.
    repeat split; by eexists. }
  split.
  - split; [reflexivity|].
    exact (proj1 (load_missing_top_level no_units_config) eq_refl).
  - split; [exact Hne|]. split; [exact Hall|]. split; [reflexivity|].
    exact (proj2 (load_missing_top_level no_teams_config) Hne Hall eq_refl).
Defined.

Lemma move_toward_origin_scales_witness :
  0 <= Unit.move_speed (skirmish_red 10 0) * FIXED_DT /\
  exists c, 0 <= c <= 1 /\
    Unit.move_toward_origin (skirmish_red 10 0) FIXED_DT
    = Unit.set_pos (skirmish_red 10 0)
        (c * Unit.x (skirmish_red 10 0)) (c * Unit.y (skirmish_red 10 0)).
Proof.
  assert (0 <= Unit.move_speed (skirmish_red 10 0) * FIXED_DT) as Hstep
    by (unfold FIXED_DT; simpl; lra).
  split; [exact Hstep|].
  exact (move_toward_origin_scales (skirmish_red 10 0) FIXED_DT Hstep).
Defined.

Lemma duel_damage_nonneg :
  Forall (fun u => 0 <= Unit.weapon_damage u) [duel_red; duel_blue].
Proof. repeat constructor; simpl; lra. Qed.

Lemma duel_run_1 : run 1 (initial_state [duel_red; duel_blue]) = duel_tick1.
Proof. simpl run. apply duel_first_tick. Qed.

Lemma duel_run_2 : run 2 (initial_state [duel_red; duel_blue]) = duel_tick2.
Proof. simpl run. by rewrite duel_first_tick, duel_second_tick. Qed.

Lemma run_keeps_units_witness :
  let s := initial_state [duel_red; duel_blue] in
  Forall (fun u => 0 <= Unit.weapon_damage u) (units s) /\
  length (units (run 1 s)) = length (units s) /\
  forall i u, units s !! i = Some u ->
    exists u', units (run 1 s) !! i = Some u' /\ ages u u'.
Proof.
  intros s. split; [exact duel_damage_nonneg|].
  exact (run_keeps_units s 1 duel_damage_nonneg).
Defined.

Lemma dead_unit_is_inert_witness :
  units duel_tick1 !! 1%nat = Some duel_blue_dead /\
  Unit.health duel_blue_dead <= 0 /\
  units (run 1 duel_tick1) !! 1%nat = Some duel_blue_dead.
Proof.
  assert (Unit.health duel_blue_dead <= 0) as Hdead by (simpl; lra).
  split; [reflexivity|]. split; [exact Hdead|].
  exact (dead_unit_is_inert duel_tick1 1 duel_blue_dead 1 eq_refl Hdead).
Defined.

Lemma somebody_survives_witness :
  load duel_config = Ok (duel_types, [duel_red; duel_blue]) /\
  someone_alive [duel_red; duel_blue] /\
  (forall n, someone_alive (units (run n (initial_state [duel_red; duel_blue])))) /\
  (forall fuel damage, main duel_config fuel <> Terminated None damage).
Proof.
  assert (someone_alive [duel_red; duel_blue]) as Hsome.
  { exists 0%nat, duel_red. split; [reflexivity|]. simpl. lra. }
  split; [exact load_duel|]. split; [exact Hsome|].
  exact (somebody_survives duel_config duel_types [duel_red; duel_blue]
           load_duel Hsome).
Defined.

Lemma winner_is_the_last_team_witness :
  let final := run 2 (initial_state [duel_red; duel_blue]) in
  simulation_running final = false /\
  exists w, winner final = Some w /\
    match w with
    | Some team =>
        (exists i u, units final !! i = Some u /\ Unit.health u > 0 /\
                     Unit.team_name u = team) /\
        (forall i u, units final !! i = Some u -> Unit.health u > 0 ->
                     Unit.team_name u = team)
    | None => forall i u, units final !! i = Some u -> Unit.health u <= 0
    end.
Proof.
  intros final.
  assert (simulation_running final = false) as Hstop
    by (unfold final; by rewrite duel_run_2).
  split; [exact Hstop|].
  exact (winner_is_the_last_team [duel_red; duel_blue] 2 Hstop).
Defined.

Lemma stops_when_one_team_is_left_witness :
  let s := initial_state [duel_red; duel_blue] in
  simulation_running s = true /\
  (simulation_running (run 2 s) = false <->
   (size (teams_alive (units (run 1 s))) <= 1)%nat).
Proof.
  intros s. split; [reflexivity|].
  exact (stops_when_one_team_is_left s 1 eq_refl).
Defined.

Lemma attack_respects_cooldown_witness :
  let s := initial_state [duel_red; duel_blue] in
  units s !! 0%nat = Some duel_red /\
  exists u', units (while_iter s) !! 0%nat = Some u' /\
    (Unit.last_attack_time u' = Unit.last_attack_time duel_red \/
     (Unit.last_attack_time u' = now s /\
      now s - Unit.last_attack_time duel_red >= Unit.weapon_cooldown duel_red)).
Proof.
  intros s. split; [reflexivity|].
  exact (attack_respects_cooldown s 0 duel_red eq_refl).
Defined.

Lemma damage_table_entries_witness :
  load duel_config = Ok (duel_types, [duel_red; duel_blue]) /\
  damage_stats (run 1 (initial_state [duel_red; duel_blue])) !! "a" = Some 10 /\
  is_Some (duel_types !! "a") /\
  (Forall (fun u => 0 <= Unit.weapon_damage u) [duel_red; duel_blue] -> 0 <= 10).
Proof.
  assert (damage_stats (run 1 (initial_state [duel_red; duel_blue])) !! "a"
          = Some 10) as Hentry by (by rewrite duel_run_1).
  split; [exact load_duel|]. split; [exact Hentry|].
  exact (damage_table_entries duel_config duel_types [duel_red; duel_blue] 1
           "a" 10 load_duel Hentry).
Defined.

Lemma every_team_has_a_colour_witness :
  let colors :=
    generate_team_colors grey_hsv_to_rgb (default [] (Config.teams duel_config)).*1 in
  load duel_config = Ok (duel_types, [duel_red; duel_blue]) /\
  units (run 1 (initial_state [duel_red; duel_blue])) !! 0%nat
    = Some duel_red_fired /\
  is_Some (colors !! Unit.team_name duel_red_fired) /\
  forall team, is_Some (colors !! team) ->
    team ∈ (default [] (Config.teams duel_config)).*1.
Proof.
  intros colors.
  assert (units (run 1 (initial_state [duel_red; duel_blue])) !! 0%nat
          = Some duel_red_fired) as Hunit by (by rewrite duel_run_1).
  split; [exact load_duel|]. split; [exact Hunit|].
  exact (every_team_has_a_colour grey_hsv_to_rgb duel_config duel_types
           [duel_red; duel_blue] 1 0 duel_red_fired load_duel Hunit).
Defined.

Lemma team_colour_by_rank_witness :
  let teams := ["red"; "blue"] in
  NoDup teams /\
  sorted teams !! 0%nat = Some "blue" /\
  generate_team_colors grey_hsv_to_rgb teams !! "blue"
    = Some (team_color grey_hsv_to_rgb (length teams) 0) /\
  0 <= INR 0 / INR (Nat.max 1 (length teams)) < 1 /\
  forall j team', sorted teams !! j = Some team' -> team' <> "blue" ->
    INR j / INR (Nat.max 1 (length teams))
    <> INR 0 / INR (Nat.max 1 (length teams)).
Proof.
  intros teams.
  assert (NoDup teams) as Hnd.
  { apply NoDup_cons. split; [|apply NoDup_singleton].
    by intros ?%list_elem_of_singleton. }
  assert (sorted teams !! 0%nat = Some "blue") as Hrank by reflexivity.
  split; [exact Hnd|]. split; [exact Hrank|].
  exact (team_colour_by_rank grey_hsv_to_rgb teams 0 "blue" Hnd Hrank).
Defined.

Lemma duel_scale : exists ppu, pixels_per_unit [duel_red; duel_blue] = Some ppu.
Proof.
  destruct (pixels_per_unit [duel_red; duel_blue]) as [ppu|] eqn:E; [by exists ppu|].
  apply pixels_per_unit_cases in E.
  apply Forall_cons in E as [_ E]. apply Forall_cons in E as [[Hx _] _].
  simpl in Hx. lra.
Qed.


Lemma health_bar_fits_witness :
  load duel_config = Ok (duel_types, [duel_red; duel_blue]) /\
  Forall (fun a => 0 <= Unit.weapon_damage a) [duel_red; duel_blue] /\
  units (run 1 (initial_state [duel_red; duel_blue])) !! 0%nat
    = Some duel_red_fired /\
  Unit.health duel_red_fired > 0 /\
  exists pct, health_pct duel_types duel_red_fired = Some pct /\ 0 < pct <= 1 /\
    (0 <= bar_fill pct <= 16)%Z.
Proof.
  assert (units (run 1 (initial_state [duel_red; duel_blue])) !! 0%nat
          = Some duel_red_fired) as Hunit by (by rewrite duel_run_1).
  assert (Unit.health duel_red_fired > 0) as Hh by (simpl; lra).
  split; [exact load_duel|]. split; [exact duel_damage_nonneg|].
  split; [exact Hunit|]. split; [exact Hh|].
  exact (health_bar_fits duel_config duel_types [duel_red; duel_blue] 1 0
           duel_red_fired load_duel duel_damage_nonneg Hunit Hh).
Defined.

